(** * srvsrv: the synchronous queue (syncq), the ring buffer (buffer) and
      the error annotation (ctxerr)

    A shallow embedding of the Go sources and the properties proved of
    them.

    - [Ring]   : buffer/ring.go, 32-bit indices as [Z] with explicit wrap;
      [contents] is what a buffer holds, oldest first.
    - [SliceBuf] : buffer/slicebuf.go.
    - [Ctxerr] : ctxerr/errors.go, [E] / [Ef] / [newError] and the text of
      [Error()].
    - [Syncq]  : syncq/syncq.go.  The queue is a concurrent program: one
      dispatch goroutine ([goqueue]) and any number of client goroutines
      that talk to it over unbuffered channels.  It is embedded as an
      executable small-step machine: a state holds every goroutine's
      program point and the channels' closed flags, an action names the
      goroutine that moves and the branch its [select] takes.  For one
      client the machine is related to a sequential queue ([seq_call],
      [seq_exec]).  [Syncq.Buffer] and [Syncq.Batching] are the two
      backlog types at the end of syncq.go. *)

From Stdlib Require Import ZArith Lia List Bool String.
From stdpp Require Import base tactics option list strings gmap.

Open Scope Z_scope.
Set Warnings "-register-all".

(* ===================================================================== *)
(** * buffer/ring.go *)
(* ===================================================================== *)

Module Ring.

(** [uint32] arithmetic: every result is reduced modulo 2^32. *)
Definition wrap32 (z : Z) : Z := z mod 2 ^ 32.

(** [powerOf2]: the bit trick of ring.go, statement by statement. *)
Definition powerOf2 (v : Z) : Z :=
  let v := wrap32 (v - 1) in
  let v := Z.lor v (Z.shiftr v 1) in
  let v := Z.lor v (Z.shiftr v 2) in
  let v := Z.lor v (Z.shiftr v 4) in
  let v := Z.lor v (Z.shiftr v 8) in
  let v := Z.lor v (Z.shiftr v 16) in
  wrap32 (v + 1).

(** How [powerOf2] is specified: *)

(** The bits of [y] from [i] upwards cover the [k] bits of [x] from [i]. *)
Definition covers (x y k : Z) : Prop :=
  ∀ i, 0 ≤ i → Z.testbit y i = true ↔ ∃ j, 0 ≤ j < k ∧ Z.testbit x (i + j) = true.

Definition bitlen (x : Z) : Z := if x =? 0 then 0 else Z.log2 x + 1.

Section Buffer.
Context {T : Type} (zeroT : T).

Record RingBuffer := mkRing {
  s : list T;
  cap : Z;
  modMask : Z;
  start : Z;
  end_ : Z;
  full : bool
}.

(** [make([]T, capacity)] is a slice of [capacity] zero values. *)
Definition NewRingBuffer (n : Z) : RingBuffer :=
  let capacity := powerOf2 n in
  {| s := replicate (Z.to_nat capacity) zeroT;
     cap := capacity;
     modMask := wrap32 (capacity - 1);
     start := 0; end_ := 0; full := false |}.

Definition Full (l : RingBuffer) : bool := full l.
Definition Empty (l : RingBuffer) : bool := (start l =? end_ l) && negb (full l).
Definition Capacity (l : RingBuffer) : Z := cap l.

(** The outcome of a method that may hit a run-time panic. *)
Inductive Outcome (A : Type) :=
| Ok (a : A)
| IndexOutOfRange (index : Z) (len : nat).
Arguments Ok {A} a.
Arguments IndexOutOfRange {A} index len.

(** [Push]: [l.s[slot] = v] panics when [slot] is not below [len(l.s)]. *)
Definition Push (l : RingBuffer) (v : T) : Outcome (RingBuffer * bool) :=
  if full l then Ok (l, false)
  else
    let slot := end_ l in
    if (Z.to_nat slot <? length (s l))%nat then
      let s' := <[Z.to_nat slot := v]> (s l) in
      let e' := Z.land (wrap32 (end_ l + 1)) (modMask l) in
      Ok ({| s := s'; cap := cap l; modMask := modMask l;
             start := start l; end_ := e';
             full := (start l =? e') |}, true)
    else IndexOutOfRange slot (length (s l)).

Definition Pop (l : RingBuffer) : Outcome (RingBuffer * (T * bool)) :=
  if (start l =? end_ l) && negb (full l) then Ok (l, (zeroT, false))
  else
    match s l !! Z.to_nat (start l) with
    | Some v =>
        Ok ({| s := s l; cap := cap l; modMask := modMask l;
               start := Z.land (wrap32 (start l + 1)) (modMask l);
               end_ := end_ l; full := false |}, (v, true))
    | None => IndexOutOfRange (start l) (length (s l))
    end.

(** The buffers a program can hold: what [NewRingBuffer] returns and what
    [Push] and [Pop] make of it. *)
Inductive reachable (n : Z) : RingBuffer → Prop :=
| reach_new : reachable n (NewRingBuffer n)
| reach_push l v l' b : reachable n l → Push l v = Ok (l', b) → reachable n l'
| reach_pop l l' r : reachable n l → Pop l = Ok (l', r) → reachable n l'.

(** The shape of every buffer with a non-zero capacity. *)
Definition ring_ok (l : RingBuffer) : Prop :=
  length (s l) = Z.to_nat (cap l) ∧
  (∃ k, 0 ≤ k ≤ 31 ∧ cap l = 2 ^ k) ∧
  modMask l = cap l - 1 ∧
  0 ≤ start l < cap l ∧ 0 ≤ end_ l < cap l.

(** [Size]: the subtractions and the addition are [uint32]; [int] has 64
    bits, so the conversion keeps the value. *)
Definition Size (l : RingBuffer) : Z :=
  if end_ l <? start l then wrap32 (wrap32 (cap l - start l) + end_ l)
  else if start l <? end_ l then wrap32 (end_ l - start l)
  else if full l then cap l
  else 0.

(** [PushAll]: the loop, with [n] the count so far. *)
Fixpoint PushAll_loop (l : RingBuffer) (vs : list T) (n : Z)
    : Outcome (RingBuffer * Z) :=
  match vs with
  | [] => Ok (l, n)
  | v :: vs' =>
      match Push l v with
      | Ok (l', true) => PushAll_loop l' vs' (n + 1)
      | Ok (l', false) => Ok (l', n)
      | IndexOutOfRange i len => IndexOutOfRange i len
      end
  end.

Definition PushAll (l : RingBuffer) (vs : list T) : Outcome (RingBuffer * Z) :=
  PushAll_loop l vs 0.

(** [Consume]: the iterator run against a consumer.  [yield c v] is the
    body of the consumer's loop in the consumer's state [c]: its new
    state and whether it wants more.  The loop is bounded by [fuel]
    turns; [None] is the loop cut short. *)
Fixpoint Consume_loop {C : Type} (yield : C → T → C * bool) (fuel : nat)
    (l : RingBuffer) (c : C) : option (Outcome (RingBuffer * C)) :=
  match fuel with
  | O => None
  | S fuel =>
      match Pop l with
      | Ok (l', (v, true)) =>
          let '(c', more) := yield c v in
          if more then Consume_loop yield fuel l' c' else Some (Ok (l', c'))
      | Ok (l', (_, false)) => Some (Ok (l', c))
      | IndexOutOfRange i len => Some (IndexOutOfRange i len)
      end
  end.

(** [slices.Collect(l.Consume())]. *)
Definition Collect (fuel : nat) (l : RingBuffer)
    : option (Outcome (RingBuffer * list T)) :=
  Consume_loop (λ acc v, (acc ++ [v], true)) fuel l [].

(** What the buffer holds, oldest first: [Size l] slots from [start]
    on, around the end of the slice. *)
Definition contents (l : RingBuffer) : list T :=
  take (Z.to_nat (Size l)) (rotate (Z.to_nat (start l)) (s l)).

(** [ring_ok], and [full] only when the two indices meet. *)
Definition ring_inv (l : RingBuffer) : Prop :=
  ring_ok l ∧ (full l = true → start l = end_ l).

(** What a consumer makes of the elements [xs]: its final state and how
    many elements it took (the one it stopped at included). *)
Fixpoint feed {C : Type} (yield : C → T → C * bool) (xs : list T) (c : C)
    : C * nat :=
  match xs with
  | [] => (c, 0%nat)
  | x :: xs' =>
      let '(c', more) := yield c x in
      if more then let '(c'', k) := feed yield xs' c' in (c'', S k)
      else (c', 1%nat)
  end.

End Buffer.

Arguments Ok {A} a.
Arguments IndexOutOfRange {A} index len.
Arguments RingBuffer T : clear implicits.

(** ** [powerOf2] rounds up to a power of two *)

Lemma covers_one x : covers x x 1.
Proof.
  intros i Hi. split.
  - intros H. exists 0. by rewrite Z.add_0_r.
  - intros (j & Hj & H). by replace (i + j) with i in H by lia.
Qed.

Lemma covers_double x y k :
  0 ≤ k → covers x y k → covers x (Z.lor y (Z.shiftr y k)) (2 * k).
Proof.
  intros Hk Hc i Hi. rewrite Z.lor_spec, Z.shiftr_spec, orb_true_iff by done.
  rewrite (Hc i), (Hc (i + k)) by lia. split.
  - intros [(j & Hj & H)|(j & Hj & H)].
    + exists j. split; [lia|done].
    + exists (k + j). split; [lia|]. by rewrite Z.add_assoc.
  - intros (j & Hj & H). destruct (Z_lt_dec j k).
    + left. exists j. split; [lia|done].
    + right. exists (j - k). split; [lia|].
      by replace (i + k + (j - k)) with (i + j) by lia.
Qed.

Lemma covers_ones x y :
  0 ≤ x < 2 ^ 32 → covers x y 32 → 0 ≤ y → y = Z.ones (bitlen x).
Proof.
  intros Hx Hc Hy. unfold bitlen.
  assert (0 ≤ Z.log2 x) by apply Z.log2_nonneg.
  apply Z.bits_inj'. intros i Hi.
  rewrite Z.testbit_ones_nonneg by (try done; destruct (x =? 0); lia).
  apply eq_true_iff_eq. rewrite (Hc i Hi), Z.ltb_lt.
  destruct (Z.eqb_spec x 0) as [->|Hx0].
  - split; [|lia]. intros (j & _ & Hb). by rewrite Z.bits_0 in Hb.
  - split.
    + intros (j & Hj & Hb).
      destruct (Z_lt_dec (Z.log2 x) (i + j)) as [Hlt|]; [|lia].
      rewrite Z.bits_above_log2 in Hb by lia. done.
    + intros Hlt. exists (Z.log2 x - i).
      assert (Z.log2 x < 32) by (apply Z.log2_lt_pow2; lia).
      split; [lia|]. replace (i + (Z.log2 x - i)) with (Z.log2 x) by lia.
      apply Z.bit_log2. lia.
Qed.

Lemma bitlen_range x : 0 ≤ x < 2 ^ 32 → 0 ≤ bitlen x ≤ 32.
Proof.
  intros Hx. unfold bitlen. destruct (Z.eqb_spec x 0); [lia|].
  assert (0 ≤ Z.log2 x) by apply Z.log2_nonneg.
  assert (Z.log2 x < 32) by (apply Z.log2_lt_pow2; lia). lia.
Qed.

Lemma powerOf2_bitlen n :
  powerOf2 n = wrap32 (2 ^ bitlen (wrap32 (n - 1))).
Proof.
  unfold powerOf2. set (x := wrap32 (n - 1)).
  assert (0 ≤ x < 2 ^ 32) as Hx by (apply Z.mod_pos_bound; lia).
  set (y := Z.lor _ (Z.shiftr _ 16)).
  assert (covers x y 32) as Hc.
  { subst y. change 32 with (2 * 16). apply covers_double; [lia|].
    change 16 with (2 * 8). apply covers_double; [lia|].
    change 8 with (2 * 4). apply covers_double; [lia|].
    change 4 with (2 * 2). apply covers_double; [lia|].
    change 2 with (2 * 1). apply covers_double; [lia|].
    apply covers_one. }
  assert (0 ≤ y) as Hy.
  { subst y. repeat (apply Z.lor_nonneg; split;
      [|apply Z.shiftr_nonneg]); lia. }
  rewrite (covers_ones x y Hx Hc Hy), Z.ones_equiv. f_equal. lia.
Qed.

Lemma powerOf2_round n :
  0 < n ≤ 2 ^ 31 →
  ∃ k, 0 ≤ k ≤ 31 ∧ powerOf2 n = 2 ^ k ∧ n ≤ 2 ^ k < 2 * n.
Proof.
  intros Hn. rewrite powerOf2_bitlen.
  assert (wrap32 (n - 1) = n - 1) as ->.
  { unfold wrap32. apply Z.mod_small. lia. }
  unfold bitlen. destruct (Z.eqb_spec (n - 1) 0) as [H0|H0].
  - exists 0. split; [lia|]. split; [done|]. lia.
  - pose proof (Z.log2_spec (n - 1) ltac:(lia)) as [Hlo Hhi].
    assert (0 ≤ Z.log2 (n - 1)) by apply Z.log2_nonneg.
    assert (Z.log2 (n - 1) < 31) by (apply Z.log2_lt_pow2; lia).
    exists (Z.log2 (n - 1) + 1).
    replace (Z.succ (Z.log2 (n - 1))) with (Z.log2 (n - 1) + 1) in Hhi by lia.
    assert (2 ^ (Z.log2 (n - 1) + 1) = 2 * 2 ^ Z.log2 (n - 1)) as Hp.
    { rewrite Z.pow_add_r by lia. lia. }
    assert (2 ^ (Z.log2 (n - 1) + 1) ≤ 2 ^ 31).
    { apply Z.pow_le_mono_r; lia. }
    split; [lia|]. split; [|lia].
    unfold wrap32. apply Z.mod_small. lia.
Qed.

Lemma powerOf2_overflow n :
  n = 0 ∨ 2 ^ 31 < n < 2 ^ 32 → powerOf2 n = 0.
Proof.
  intros Hn. rewrite powerOf2_bitlen.
  assert (2 ^ 31 ≤ wrap32 (n - 1) < 2 ^ 32) as Hx.
  { unfold wrap32. destruct Hn as [->|Hn].
    - change ((0 - 1) mod 2 ^ 32) with (2 ^ 32 - 1). lia.
    - rewrite Z.mod_small; lia. }
  unfold bitlen. destruct (Z.eqb_spec (wrap32 (n - 1)) 0) as [H0|H0]; [lia|].
  assert (Z.log2 (wrap32 (n - 1)) = 31) as ->.
  { apply Z.log2_unique; [lia|]. change (Z.succ 31) with 32. lia. }
  done.
Qed.

Lemma powerOf2_cases n :
  0 ≤ n < 2 ^ 32 →
  powerOf2 n = 0 ∨ ∃ k, 0 ≤ k ≤ 31 ∧ powerOf2 n = 2 ^ k.
Proof.
  intros Hn. destruct (Z_le_dec n (2 ^ 31)); destruct (Z.eq_dec n 0).
  - left. apply powerOf2_overflow. lia.
  - right. destruct (powerOf2_round n) as (k & ? & ? & _); [lia|by exists k].
  - lia.
  - left. apply powerOf2_overflow. lia.
Qed.

Section BufferProps.
Context {T : Type} (zeroT : T).

Lemma next_index k i :
  0 ≤ k ≤ 31 → 0 ≤ Z.land (wrap32 (i + 1)) (2 ^ k - 1) < 2 ^ k.
Proof.
  intros Hk. replace (2 ^ k - 1) with (Z.ones k) by (rewrite Z.ones_equiv; lia).
  rewrite Z.land_ones by lia. apply Z.mod_pos_bound. lia.
Qed.

Lemma ring_ok_new n :
  0 ≤ n < 2 ^ 32 → powerOf2 n ≠ 0 → ring_ok (NewRingBuffer zeroT n).
Proof.
  intros Hn Hne. destruct (powerOf2_cases n Hn) as [?|(k & Hk & Hc)]; [done|].
  assert (0 < 2 ^ k ≤ 2 ^ 31).
  { split; [lia|]. apply Z.pow_le_mono_r; lia. }
  unfold ring_ok, NewRingBuffer; cbn. rewrite Hc.
  split; [by rewrite length_replicate|]. split; [by exists k|].
  split; [unfold wrap32; rewrite Z.mod_small; lia|]. lia.
Qed.

Lemma ring_ok_push (l : RingBuffer T) v l' b :
  ring_ok l → Push l v = Ok (l', b) → ring_ok l'.
Proof.
  intros Hok H. unfold Push in H.
  destruct (full l); [by simplify_eq|].
  destruct Hok as (Hlen & (k & Hk & Hc) & Hm & Hs & He).
  destruct (_ <? _)%nat; simplify_eq. unfold ring_ok; cbn.
  rewrite length_insert, Hm, Hc. pose proof (next_index k (end_ l) Hk).
  split; [by rewrite <-Hc|]. split; [by exists k|]. split; [done|]. lia.
Qed.

Lemma ring_ok_pop (l : RingBuffer T) l' r :
  ring_ok l → Pop zeroT l = Ok (l', r) → ring_ok l'.
Proof.
  intros Hok H. unfold Pop in H.
  destruct (_ && _); [by simplify_eq|].
  destruct Hok as (Hlen & (k & Hk & Hc) & Hm & Hs & He).
  destruct (s l !! _); simplify_eq. unfold ring_ok; cbn.
  rewrite Hm, Hc. pose proof (next_index k (start l) Hk).
  split; [by rewrite <-Hc|]. split; [by exists k|]. split; [done|]. lia.
Qed.

Lemma ring_ok_reachable n (l : RingBuffer T) :
  0 ≤ n < 2 ^ 32 → powerOf2 n ≠ 0 → reachable zeroT n l → ring_ok l.
Proof.
  intros Hn Hne. induction 1.
  - by apply ring_ok_new.
  - by eapply ring_ok_push.
  - by eapply ring_ok_pop.
Qed.

Lemma ring_ok_push_total (l : RingBuffer T) v : ring_ok l → ∃ r, Push l v = Ok r.
Proof.
  intros (Hlen & _ & _ & _ & He). unfold Push.
  destruct (full l); [by eexists|].
  destruct (Nat.ltb_spec (Z.to_nat (end_ l)) (length (s l))); [by eexists|lia].
Qed.

Lemma push_zero_capacity n v :
  powerOf2 n = 0 → Push (NewRingBuffer zeroT n) v = IndexOutOfRange 0 0.
Proof. intros H. unfold Push, NewRingBuffer. cbn. by rewrite H. Qed.

(** C10.  [NewRingBuffer] rounds a size between 1 and 2^31 up to the next
    power of two; for size 0 the capacity is 0, the mask is 2^32 - 1 and
    the backing slice is empty, so the first [Push] indexes position 0 of
    an empty slice and panics instead of returning false; [Push] returns
    on every buffer a program can hold exactly when the capacity is not
    zero. *)
Theorem ring_push_total_iff_capacity n :
  0 ≤ n < 2 ^ 32 →
  (cap (NewRingBuffer zeroT 0) = 0 ∧
   modMask (NewRingBuffer zeroT 0) = 2 ^ 32 - 1 ∧
   s (NewRingBuffer zeroT 0) = [] ∧
   ∀ v, Push (NewRingBuffer zeroT 0) v = IndexOutOfRange 0 0) ∧
  (0 < n ≤ 2 ^ 31 →
   ∃ k, cap (NewRingBuffer zeroT n) = 2 ^ k ∧ n ≤ 2 ^ k < 2 * n) ∧
  (cap (NewRingBuffer zeroT n) ≠ 0 →
   ∀ l v, reachable zeroT n l → ∃ r, Push l v = Ok r) ∧
  (cap (NewRingBuffer zeroT n) = 0 →
   ∀ v, Push (NewRingBuffer zeroT n) v = IndexOutOfRange 0 0).
Proof.
  intros Hn. split_and!.
  - done.
  - done.
  - done.
  - intros v. by apply push_zero_capacity.
  - intros Hr. destruct (powerOf2_round n Hr) as (k & _ & Hk & Hb).
    exists k. by split.
  - intros Hc l v Hl. apply ring_ok_push_total.
    by eapply ring_ok_reachable.
  - intros Hc v. by apply push_zero_capacity.
Qed.

End BufferProps.

Lemma ring_push_total_iff_capacity_witness :
  Push (NewRingBuffer 0%nat 0) 7%nat = IndexOutOfRange 0 0 ∧
  ∃ r, Push (NewRingBuffer 0%nat 5) 7%nat = Ok r.
Proof.
  split.
  - pose proof (ring_push_total_iff_capacity 0%nat 0 ltac:(lia)) as (H0 & _).
    apply H0.
  - pose proof (ring_push_total_iff_capacity 0%nat 5 ltac:(lia))
      as (_ & _ & Ht & _).
    apply Ht; [vm_compute; lia|apply reach_new].
Defined.

Section BufferContents.
Context {T : Type} (zeroT : T).

Lemma mod_case c x :
  0 < c → 0 ≤ x < 2 * c → x mod c = if x <? c then x else x - c.
Proof.
  intros Hc Hx. destruct (Z.ltb_spec x c).
  - apply Z.mod_small. lia.
  - symmetry. apply (Z.mod_unique_pos x c 1); lia.
Qed.

Lemma next_index_mod k i :
  0 ≤ k ≤ 31 → 0 ≤ i < 2 ^ k →
  Z.land (wrap32 (i + 1)) (2 ^ k - 1) = (i + 1) mod 2 ^ k.
Proof.
  intros Hk Hi.
  assert (2 ^ k ≤ 2 ^ 31) by (apply Z.pow_le_mono_r; lia).
  replace (2 ^ k - 1) with (Z.ones k) by (rewrite Z.ones_equiv; lia).
  rewrite Z.land_ones by lia. unfold wrap32.
  rewrite (Z.mod_small (i + 1)) by lia. done.
Qed.

(** [Size] is the number [m] of elements between the indices. *)
Lemma Size_spec (l : RingBuffer T) :
  ring_inv l →
  0 ≤ Size l ≤ cap l ∧ end_ l = (start l + Size l) mod cap l ∧
  (Size l = cap l ↔ full l = true).
Proof.
  intros [(Hlen & (k & Hk & Hc) & Hm & Hs & He) Hf].
  assert (0 < cap l ≤ 2 ^ 31).
  { rewrite Hc. split; [lia|]. apply Z.pow_le_mono_r; lia. }
  unfold Size, wrap32.
  destruct (Z.ltb_spec (end_ l) (start l)); [|destruct (Z.ltb_spec (start l) (end_ l))].
  - rewrite (Z.mod_small (cap l - start l)) by lia.
    rewrite (Z.mod_small (cap l - start l + end_ l)) by lia.
    rewrite mod_case by lia. destruct (Z.ltb_spec (start l + (cap l - start l + end_ l)) (cap l)).
    + lia.
    + split; [lia|]. split; [lia|]. split; [lia|]. intros Hfull.
      specialize (Hf Hfull). lia.
  - rewrite (Z.mod_small (end_ l - start l)) by lia.
    rewrite mod_case by lia.
    destruct (Z.ltb_spec (start l + (end_ l - start l)) (cap l)); [|lia].
    split; [lia|]. split; [lia|]. split; [lia|]. intros Hfull.
    specialize (Hf Hfull). lia.
  - assert (start l = end_ l) as Heq by lia.
    destruct (full l) eqn:Hfull.
    + rewrite mod_case by lia.
      destruct (Z.ltb_spec (start l + cap l) (cap l)); [lia|].
      split; [lia|]. split; [lia|]. by split.
    + rewrite Z.add_0_r, Z.mod_small by lia. split; [lia|]. split; [lia|].
      split; [lia|done].
Qed.

Lemma Size_unique (l : RingBuffer T) m :
  ring_inv l → 0 ≤ m ≤ cap l → end_ l = (start l + m) mod cap l →
  (m = cap l ↔ full l = true) → Size l = m.
Proof.
  intros HI Hm He Hfull.
  destruct (Size_spec l HI) as (Hn & He' & Hfull').
  destruct HI as [(Hlen & (k & Hk & Hc) & _ & Hs & _) _].
  assert (0 < cap l) by (rewrite Hc; lia).
  rewrite mod_case in He, He' by lia.
  destruct (full l) eqn:F.
  - pose proof (proj2 Hfull eq_refl). pose proof (proj2 Hfull' eq_refl). lia.
  - assert (m ≠ cap l) by (intros Hx; apply Hfull in Hx; done).
    assert (Size l ≠ cap l) by (intros Hx; apply Hfull' in Hx; done).
    destruct (Z.ltb_spec (start l + m) (cap l)),
             (Z.ltb_spec (start l + Size l) (cap l)); lia.
Qed.

Lemma ring_inv_new n :
  0 ≤ n < 2 ^ 32 → powerOf2 n ≠ 0 → ring_inv (NewRingBuffer zeroT n).
Proof. intros Hn Hne. split; [by apply ring_ok_new|done]. Qed.

Lemma ring_inv_push (l : RingBuffer T) v l' b :
  ring_inv l → Push l v = Ok (l', b) → ring_inv l'.
Proof.
  intros [Hok Hf] H. split; [by eapply ring_ok_push|].
  unfold Push in H. destruct (full l) eqn:Hfull; [simplify_eq; intros _; by apply Hf|].
  destruct (_ <? _)%nat; simplify_eq. cbn [full start end_]. intros Heq.
  by apply Z.eqb_eq.
Qed.

Lemma ring_inv_pop (l : RingBuffer T) l' r :
  ring_inv l → Pop zeroT l = Ok (l', r) → ring_inv l'.
Proof.
  intros [Hok Hf] H. split; [by eapply ring_ok_pop|].
  unfold Pop in H. destruct (_ && _) eqn:He; [|].
  - simplify_eq. intros Hfull. rewrite Hfull, andb_false_r in He. done.
  - destruct (s l !! _); by simplify_eq.
Qed.

Lemma length_contents (l : RingBuffer T) :
  ring_inv l → length (contents l) = Z.to_nat (Size l).
Proof.
  intros HI. destruct (Size_spec l HI) as (Hn & _ & _).
  destruct HI as [(Hlen & _) _]. unfold contents.
  rewrite length_take, length_rotate, Hlen. lia.
Qed.


Lemma rotate_index (st n c : Z) (len : nat) :
  0 < c → 0 ≤ st → 0 ≤ n → len = Z.to_nat c →
  rotate_nat_add (Z.to_nat st) (Z.to_nat n) len = Z.to_nat ((st + n) mod c).
Proof.
  intros Hc Hst Hn ->. unfold rotate_nat_add.
  rewrite !Z2Nat.id by lia. done.
Qed.

(** [Push] on a buffer that is not full appends. *)
Lemma Push_contents (l : RingBuffer T) v :
  ring_inv l → full l = false →
  ∃ l', Push l v = Ok (l', true) ∧ ring_inv l' ∧ cap l' = cap l ∧
        Size l' = Size l + 1 ∧ contents l' = contents l ++ [v].
Proof.
  intros HI Hfull. destruct (Size_spec l HI) as (Hn & He & Hfs).
  pose proof HI as [Hok Hf].
  destruct (ring_ok_push_total l v Hok) as [[l' b] HP].
  pose proof (ring_inv_push _ _ _ _ HI HP) as HI'.
  destruct Hok as (Hlen & (k & Hk & Hc) & Hm & Hs & Hee).
  assert (0 < cap l) by (rewrite Hc; lia).
  assert (Size l < cap l).
  { destruct (decide (Size l = cap l)) as [Hx|]; [|lia].
    apply Hfs in Hx. congruence. }
  pose proof HP as HP'. unfold Push in HP. rewrite Hfull in HP.
  destruct (_ <? _)%nat; [|done]. simplify_eq.
  eexists. split; [exact HP'|]. split; [done|]. split; [done|].
  remember (Z.land (wrap32 (end_ l + 1)) (modMask l)) as e' eqn:Ee' in *.
  assert (e' = (end_ l + 1) mod cap l) as He'.
  { rewrite Ee', Hm, Hc. apply next_index_mod; [done|]. by rewrite <- Hc. }
  clear Ee'. rewrite mod_case in He, He' by lia.
  match goal with |- Size ?l1 = _ ∧ _ => assert (Size l1 = Size l + 1) as HS end.
  { apply Size_unique; [done|cbn; lia| |]; cbn [start end_ cap full].
    - rewrite mod_case by lia.
      destruct (Z.ltb_spec (start l + Size l) (cap l)),
               (Z.ltb_spec (end_ l + 1) (cap l)),
               (Z.ltb_spec (start l + (Size l + 1)) (cap l)); lia.
    - destruct (Z.ltb_spec (start l + Size l) (cap l)),
               (Z.ltb_spec (end_ l + 1) (cap l)),
               (Z.eqb_spec (start l) e'); split; intros; try done; lia. }
  split; [done|]. unfold contents. rewrite HS. cbn [s start].
  replace (Z.to_nat (Size l + 1)) with (S (Z.to_nat (Size l))) by lia.
  assert (Z.to_nat (end_ l) =
          rotate_nat_add (Z.to_nat (start l)) (Z.to_nat (Size l)) (length (s l)))
    as ->.
  { rewrite (rotate_index _ _ (cap l)); try lia.
    destruct (Size_spec l HI) as (_ & <- & _). done. }
  rewrite rotate_insert_l by lia.
  rewrite (take_S_r _ _ v).
  - by rewrite take_insert_ge.
  - apply list_lookup_insert_eq. rewrite length_rotate. lia.
Qed.


Lemma rotate_next (l : list T) (st : nat) x :
  l !! st = Some x →
  rotate st l = x :: (drop (S st) l ++ take st l) ∧
  rotate (if (S st <? length l)%nat then S st else 0%nat) l =
    (drop (S st) l ++ take st l) ++ [x].
Proof.
  intros Hl. pose proof (lookup_lt_Some _ _ _ Hl) as Hlt.
  unfold rotate. rewrite Nat.mod_small by done. split.
  - by rewrite (drop_S _ _ _ Hl).
  - destruct (Nat.ltb_spec (S st) (length l)).
    + rewrite Nat.mod_small by done. rewrite (take_S_r _ _ _ Hl).
      by rewrite app_assoc.
    + rewrite Nat.Div0.mod_0_l, drop_0, take_0, app_nil_r.
      rewrite (drop_ge l (S st)) by lia. cbn [app].
      rewrite <- (take_drop st l) at 1.
      by rewrite (drop_S _ _ _ Hl), (drop_ge l (S st)) by lia.
Qed.

(** [Pop] takes the oldest element; on the empty buffer it returns the
    zero value and false. *)
Lemma Pop_contents (l : RingBuffer T) :
  ring_inv l →
  match contents l with
  | [] => Pop zeroT l = Ok (l, (zeroT, false))
  | x :: rest =>
      ∃ l', Pop zeroT l = Ok (l', (x, true)) ∧ ring_inv l' ∧ cap l' = cap l ∧
            Size l' = Size l - 1 ∧ contents l' = rest
  end.
Proof.
  intros HI. destruct (Size_spec l HI) as (Hn & He & Hfs).
  pose proof (length_contents l HI) as Hlc.
  pose proof HI as [(Hlen & (k & Hk & Hc) & Hm & Hs & Hee) Hf].
  assert (0 < cap l) by (rewrite Hc; lia).
  rewrite mod_case in He by lia.
  destruct (decide (Size l = 0)) as [H0|H0].
  - (* empty *)
    rewrite H0 in Hlc. destruct (contents l); [|done].
    unfold Pop. rewrite H0, Z.add_0_r in He.
    destruct (Z.ltb_spec (start l) (cap l)); [|lia].
    destruct (full l) eqn:Hfull; [pose proof (proj2 Hfs eq_refl); lia|].
    rewrite He, Z.eqb_refl. done.
  - (* not empty *)
    destruct (s l !! Z.to_nat (start l)) as [x|] eqn:Hx.
    2:{ apply lookup_ge_None in Hx. lia. }
    destruct (rotate_next _ _ _ Hx) as [Hr Hr'].
    assert (contents l = x :: take (Z.to_nat (Size l - 1))
                               (drop (S (Z.to_nat (start l))) (s l) ++
                                take (Z.to_nat (start l)) (s l))) as Hcl.
    { unfold contents. rewrite Hr.
      replace (Z.to_nat (Size l)) with (S (Z.to_nat (Size l - 1))) by lia. done. }
    rewrite Hcl.
    assert (Pop zeroT l =
            Ok ({| s := s l; cap := cap l; modMask := modMask l;
                   start := Z.land (wrap32 (start l + 1)) (modMask l);
                   end_ := end_ l; full := false |}, (x, true))) as HP.
    { unfold Pop. rewrite Hx.
      destruct (Z.eqb_spec (start l) (end_ l)) as [Heq|]; [|done].
      destruct (full l) eqn:Hfull; [done|]. exfalso. apply H0.
      apply Size_unique; [done|lia| |].
      - rewrite Z.add_0_r, Z.mod_small by lia. done.
      - rewrite Hfull. split; [lia|done]. }
    pose proof (ring_inv_pop _ _ _ HI HP) as HI'.
    eexists. split; [exact HP|]. split; [done|]. split; [done|].
    remember (Z.land (wrap32 (start l + 1)) (modMask l)) as st' eqn:Est in *.
    assert (st' = (start l + 1) mod cap l) as Hst'.
    { rewrite Est, Hm, Hc. apply next_index_mod; [done|]. by rewrite <- Hc. }
    clear Est. rewrite mod_case in Hst' by lia.
    match goal with |- Size ?l1 = _ ∧ _ => assert (Size l1 = Size l - 1) as HS end.
    { apply Size_unique; [done|cbn; lia| |]; cbn [start end_ cap full].
      - destruct (Z.ltb_spec (start l + 1) (cap l));
          rewrite mod_case by lia;
          destruct (Z.ltb_spec (start l + Size l) (cap l)),
                   (Z.ltb_spec (st' + (Size l - 1)) (cap l)); lia.
      - split; [lia|done]. }
    split; [done|]. unfold contents. rewrite HS. cbn [s start].
    assert (Z.to_nat st' =
            if (S (Z.to_nat (start l)) <? length (s l))%nat
            then S (Z.to_nat (start l)) else 0%nat) as ->.
    { destruct (Z.ltb_spec (start l + 1) (cap l)),
               (Nat.ltb_spec (S (Z.to_nat (start l))) (length (s l))); lia. }
    rewrite Hr'. rewrite take_app_le; [done|].
    rewrite length_app, length_drop, length_take. lia.
Qed.


Lemma Push_full (l : RingBuffer T) v :
  full l = true → Push l v = Ok (l, false).
Proof. intros H. unfold Push. by rewrite H. Qed.

Lemma PushAll_loop_spec (l : RingBuffer T) vs n0 :
  ring_inv l →
  let m := Z.min (Z.of_nat (length vs)) (cap l - Size l) in
  ∃ l', PushAll_loop l vs n0 = Ok (l', n0 + m) ∧ ring_inv l' ∧
        cap l' = cap l ∧
        contents l' = contents l ++ take (Z.to_nat m) vs.
Proof.
  revert l n0. induction vs as [|v vs IH]; intros l n0 HI m;
    destruct (Size_spec l HI) as (Hn & _ & Hfs).
  - exists l. subst m. cbn [length PushAll_loop].
    replace (Z.min (Z.of_nat 0) (cap l - Size l)) with 0 by lia.
    rewrite Z.add_0_r, take_0, app_nil_r. done.
  - cbn [PushAll_loop]. destruct (full l) eqn:Hfull.
    + rewrite (Push_full l v Hfull). exists l.
      pose proof (proj2 Hfs eq_refl). subst m.
      replace (Z.min _ _) with 0 by lia.
      rewrite Z.add_0_r, take_0, app_nil_r. done.
    + destruct (Push_contents l v HI Hfull) as (l1 & -> & HI1 & Hc1 & HS1 & Hct1).
      destruct (IH l1 (n0 + 1) HI1) as (l' & -> & HI' & Hc' & Hct').
      assert (Size l ≠ cap l) by (intros Hx; apply Hfs in Hx; done).
      exists l'. subst m. rewrite Hc1, HS1 in *. cbn [length].
      set (m1 := Z.min (Z.of_nat (length vs)) (cap l - (Size l + 1))) in *.
      replace (Z.min (Z.of_nat (S (length vs))) (cap l - Size l)) with (m1 + 1)
        by lia.
      split; [f_equal; f_equal; lia|]. split; [done|]. split; [done|].
      rewrite Hct', Hct1, <- app_assoc. f_equal.
      replace (Z.to_nat (m1 + 1)) with (S (Z.to_nat m1)) by lia. done.
Qed.

Lemma Consume_spec {C} (yield : C → T → C * bool) fuel (l : RingBuffer T) c :
  ring_inv l → (length (contents l) < fuel)%nat →
  ∃ l', Consume_loop zeroT yield fuel l c =
          Some (Ok (l', (feed yield (contents l) c).1)) ∧
        ring_inv l' ∧ cap l' = cap l ∧
        contents l' = drop ((feed yield (contents l) c).2) (contents l).
Proof.
  revert l c. induction fuel as [|fuel IH]; intros l c HI Hlen; [lia|].
  cbn [Consume_loop]. pose proof (Pop_contents l HI) as HP.
  destruct (contents l) as [|x rest] eqn:Hct.
  - rewrite HP. exists l. by rewrite Hct.
  - destruct HP as (l1 & -> & HI1 & Hc1 & _ & Hct1).
    cbn [feed]. destruct (yield c x) as [c' more]. destruct more.
    + destruct (IH l1 c' HI1) as (l' & -> & HI' & Hc' & Hct').
      { rewrite Hct1. cbn in Hlen. lia. }
      rewrite Hct1 in *. destruct (feed yield rest c') as [c'' k].
      exists l'. cbn [fst snd drop] in *. split_and!; try done. congruence.
    + exists l1. cbn. by rewrite drop_0.
Qed.

Lemma reachable_pushAll n (l : RingBuffer T) vs l' m :
  reachable zeroT n l → PushAll l vs = Ok (l', m) → reachable zeroT n l'.
Proof.
  unfold PushAll. generalize 0. revert l.
  induction vs as [|v vs IH]; intros l n0 Hr H; cbn [PushAll_loop] in H.
  - by simplify_eq.
  - destruct (Push l v) as [[l1 []]|] eqn:HP; [| |done].
    + eapply IH; [|exact H]. by eapply reach_push.
    + simplify_eq. by eapply reach_push.
Qed.

Lemma reachable_inv n (l : RingBuffer T) :
  0 < n ≤ 2 ^ 31 → reachable zeroT n l → ring_inv l.
Proof.
  intros Hn. destruct (powerOf2_round n Hn) as (k & Hk & Hc & Hb).
  induction 1.
  - apply ring_inv_new; [lia|]. rewrite Hc. lia.
  - by eapply ring_inv_push.
  - by eapply ring_inv_pop.
Qed.


Lemma contents_new n : contents (NewRingBuffer zeroT n) = [].
Proof. done. Qed.

Lemma feed_collect (xs acc : list T) :
  feed (λ acc v, (acc ++ [v], true)) xs acc = (acc ++ xs, length xs).
Proof.
  revert acc. induction xs as [|x xs IH]; intros acc; cbn [feed length].
  - by rewrite app_nil_r.
  - rewrite IH. by rewrite <- app_assoc.
Qed.

(** X17.  On every buffer made by [NewRingBuffer n] with [n] from 1 to
    2^31, [Push] and [Pop]: [Push] on a buffer that is not full returns
    true and appends the element to the contents; on a full buffer it
    returns false and changes nothing. *)
Theorem ring_push_appends n (l : RingBuffer T) v :
  0 < n ≤ 2 ^ 31 → reachable zeroT n l →
  (Full l = false →
   ∃ l', Push l v = Ok (l', true) ∧ contents l' = contents l ++ [v]) ∧
  (Full l = true → Push l v = Ok (l, false)).
Proof.
  intros Hn Hr. pose proof (reachable_inv n l Hn Hr) as HI. split.
  - intros Hf. destruct (Push_contents l v HI Hf) as (l' & ? & _ & _ & _ & ?).
    by exists l'.
  - apply Push_full.
Qed.

(** X18.  On every such buffer, [Pop] returns the oldest element with
    true and removes it; on the empty buffer it returns the zero value
    and false and changes nothing. *)
Theorem ring_pop_oldest n (l : RingBuffer T) :
  0 < n ≤ 2 ^ 31 → reachable zeroT n l →
  match contents l with
  | [] => Pop zeroT l = Ok (l, (zeroT, false))
  | x :: rest => ∃ l', Pop zeroT l = Ok (l', (x, true)) ∧ contents l' = rest
  end.
Proof.
  intros Hn Hr. pose proof (reachable_inv n l Hn Hr) as HI.
  pose proof (Pop_contents l HI) as HP.
  destruct (contents l); [done|]. destruct HP as (l' & ? & _ & _ & _ & ?).
  by exists l'.
Qed.

(** X19.  On every such buffer, [Size] is the number of elements held,
    between 0 and [Capacity]; [Full] holds exactly when it is the
    capacity and [Empty] exactly when it is 0. *)
Theorem ring_size n (l : RingBuffer T) :
  0 < n ≤ 2 ^ 31 → reachable zeroT n l →
  Size l = Z.of_nat (length (contents l)) ∧
  0 ≤ Size l ≤ Capacity l ∧
  (Full l = true ↔ Size l = Capacity l) ∧
  (Empty l = true ↔ Size l = 0).
Proof.
  intros Hn Hr. pose proof (reachable_inv n l Hn Hr) as HI.
  destruct (Size_spec l HI) as (Hs & He & Hf).
  pose proof (length_contents l HI) as Hl.
  pose proof HI as [(Hlen & (k & Hk & Hc) & Hm & Hst & Hee) Hfe].
  assert (0 < cap l) by (rewrite Hc; lia).
  unfold Capacity, Full, Empty. split_and!; try lia.
  - by split; intros ?; apply Hf.
  - rewrite mod_case in He by lia. split.
    + intros [Heq Hnf]%andb_true_iff. apply Z.eqb_eq in Heq.
      destruct (full l) eqn:F; [done|].
      assert (Size l ≠ cap l) by (intros Hx; apply Hf in Hx; done).
      destruct (Z.ltb_spec (start l + Size l) (cap l)); lia.
    + intros H0. rewrite H0, Z.add_0_r in He.
      destruct (Z.ltb_spec (start l) (cap l)); [|lia].
      rewrite He, Z.eqb_refl. destruct (full l) eqn:F; [|done].
      pose proof (proj2 Hf eq_refl). lia.
Qed.

(** X20.  On every such buffer, [PushAll] stores the elements that fit,
    in order, and returns their number: the smaller of the number given
    and the free space. *)
Theorem ring_pushAll n (l : RingBuffer T) vs :
  0 < n ≤ 2 ^ 31 → reachable zeroT n l →
  let m := Z.min (Z.of_nat (length vs)) (Capacity l - Size l) in
  ∃ l', PushAll l vs = Ok (l', m) ∧
        contents l' = contents l ++ take (Z.to_nat m) vs.
Proof.
  intros Hn Hr m. pose proof (reachable_inv n l Hn Hr) as HI.
  destruct (PushAll_loop_spec l vs 0 HI) as (l' & HP & _ & _ & Hc).
  exists l'. split; [|done]. unfold PushAll. rewrite HP. by rewrite Z.add_0_l.
Qed.

(** X21.  On every such buffer, [Consume] hands the contents to the
    consumer oldest first until the buffer is empty or the consumer
    stops, and removes exactly the elements handed over (the one the
    consumer stopped at included); the loop ends within one turn more
    than there are elements. *)
Theorem ring_consume {C} (yield : C → T → C * bool) n fuel (l : RingBuffer T) c :
  0 < n ≤ 2 ^ 31 → reachable zeroT n l → (length (contents l) < fuel)%nat →
  ∃ l', Consume_loop zeroT yield fuel l c =
          Some (Ok (l', (feed yield (contents l) c).1)) ∧
        contents l' = drop ((feed yield (contents l) c).2) (contents l).
Proof.
  intros Hn Hr Hf. pose proof (reachable_inv n l Hn Hr) as HI.
  destruct (Consume_spec yield fuel l c HI Hf) as (l' & ? & _ & _ & ?).
  by exists l'.
Qed.

(** X22.  [PushAll] of at most [n] elements into [NewRingBuffer n]
    stores them all, and collecting [Consume] gives them back in order
    and leaves the buffer empty. *)
Theorem ring_roundtrip n (vs : list T) :
  0 < n ≤ 2 ^ 31 → Z.of_nat (length vs) ≤ n →
  ∃ l1 l2,
    PushAll (NewRingBuffer zeroT n) vs = Ok (l1, Z.of_nat (length vs)) ∧
    Collect zeroT (S (length vs)) l1 = Some (Ok (l2, vs)) ∧
    contents l2 = [].
Proof.
  intros Hn Hlen. destruct (powerOf2_round n Hn) as (k & Hk & Hc & Hb).
  assert (ring_inv (NewRingBuffer zeroT n)) as HI.
  { apply ring_inv_new; [lia|]. rewrite Hc. lia. }
  destruct (PushAll_loop_spec _ vs 0 HI) as (l1 & HP & HI1 & _ & Hc1).
  assert (Z.min (Z.of_nat (length vs))
            (cap (NewRingBuffer zeroT n) - Size (NewRingBuffer zeroT n)) =
          Z.of_nat (length vs)) as Hm.
  { change (Size (NewRingBuffer zeroT n)) with 0.
    change (cap (NewRingBuffer zeroT n)) with (powerOf2 n). lia. }
  cbv zeta in HP, Hc1. rewrite Hm in HP, Hc1.
  rewrite contents_new, Nat2Z.id, firstn_all in Hc1. cbn [app] in Hc1.
  destruct (Consume_spec (λ acc v, (acc ++ [v], true)) (S (length vs))
              l1 [] HI1) as (l2 & HC & _ & _ & Hc2).
  { rewrite Hc1. lia. }
  rewrite Hc1, feed_collect in HC, Hc2. cbn [fst snd app] in HC, Hc2.
  exists l1, l2. split_and!; [exact HP|exact HC|]. by rewrite Hc2, drop_all.
Qed.

End BufferContents.

Lemma ring_push_appends_witness :
  (Full (NewRingBuffer 0%nat 3) = false →
   ∃ l', Push (NewRingBuffer 0%nat 3) 7%nat = Ok (l', true) ∧
         contents l' = contents (NewRingBuffer 0%nat 3) ++ [7%nat]) ∧
  (Full (NewRingBuffer 0%nat 3) = true →
   Push (NewRingBuffer 0%nat 3) 7%nat = Ok (NewRingBuffer 0%nat 3, false)).
Proof.
  apply (ring_push_appends 0%nat 3 (NewRingBuffer 0%nat 3) 7%nat);
    [lia|apply reach_new].
Defined.

Lemma ring_pop_oldest_witness :
  ∃ l, Push (NewRingBuffer 0%nat 3) 7%nat = Ok (l, true) ∧
       match contents l with
       | [] => Pop 0%nat l = Ok (l, (0%nat, false))
       | x :: rest => ∃ l', Pop 0%nat l = Ok (l', (x, true)) ∧ contents l' = rest
       end.
Proof.
  eexists. split; [vm_compute; reflexivity|].
  apply (ring_pop_oldest 0%nat 3); [lia|].
  eapply reach_push; [apply reach_new|vm_compute; reflexivity].
Defined.

Lemma ring_size_witness :
  ∃ l, Push (NewRingBuffer 0%nat 3) 7%nat = Ok (l, true) ∧
       Size l = Z.of_nat (length (contents l)) ∧
       0 ≤ Size l ≤ Capacity l ∧
       (Full l = true ↔ Size l = Capacity l) ∧
       (Empty l = true ↔ Size l = 0).
Proof.
  eexists. split; [vm_compute; reflexivity|].
  apply (ring_size 0%nat 3); [lia|].
  eapply reach_push; [apply reach_new|vm_compute; reflexivity].
Defined.

Lemma ring_pushAll_witness :
  let l := NewRingBuffer 0%nat 3 in
  let vs := [1; 2; 3; 4; 5]%nat in
  let m := Z.min (Z.of_nat (length vs)) (Capacity l - Size l) in
  ∃ l', PushAll l vs = Ok (l', m) ∧
        contents l' = contents l ++ take (Z.to_nat m) vs.
Proof.
  apply (ring_pushAll 0%nat 3 (NewRingBuffer 0%nat 3) [1; 2; 3; 4; 5]%nat);
    [lia|apply reach_new].
Defined.

Lemma ring_consume_witness :
  ∃ l, PushAll (NewRingBuffer 0%nat 4) [3; 4; 5; 6]%nat = Ok (l, 4) ∧
       ∃ l', Consume_loop 0%nat (λ (c : nat) v, ((c + v)%nat, (v <? 4)%nat)) 5 l 0%nat =
               Some (Ok (l', (feed (λ (c : nat) v, ((c + v)%nat, (v <? 4)%nat))
                               (contents l) 0%nat).1)) ∧
             contents l' =
               drop ((feed (λ (c : nat) v, ((c + v)%nat, (v <? 4)%nat))
                        (contents l) 0%nat).2) (contents l).
Proof.
  eexists. split; [vm_compute; reflexivity|].
  apply (ring_consume 0%nat (λ (c : nat) v, ((c + v)%nat, (v <? 4)%nat)) 4 5);
    [lia| |vm_compute; lia].
  eapply (reachable_pushAll 0%nat 4 (NewRingBuffer 0%nat 4) [3; 4; 5; 6]%nat);
    [apply reach_new|vm_compute; reflexivity].
Defined.

Lemma ring_roundtrip_witness :
  ∃ l1 l2,
    PushAll (NewRingBuffer 0%nat 4) [3; 4; 5; 6]%nat =
      Ok (l1, Z.of_nat (length [3; 4; 5; 6]%nat)) ∧
    Collect 0%nat (S (length [3; 4; 5; 6]%nat)) l1 =
      Some (Ok (l2, [3; 4; 5; 6]%nat)) ∧
    contents l2 = [].
Proof.
  apply (ring_roundtrip 0%nat 4 [3; 4; 5; 6]%nat); [lia|cbn; lia].
Defined.

End Ring.

(* ===================================================================== *)
(** * buffer/slicebuf.go: a buffer of numbered blocks *)
(* ===================================================================== *)

Module SliceBuf.

(** [int32] arithmetic wraps around in two's complement. *)
Definition wrap_int32 (z : Z) : Z := (z + 2 ^ 31) mod 2 ^ 32 - 2 ^ 31.

(** [cmp.Compare] on integers. *)
Definition cmp_Compare (a b : Z) : Z :=
  if a <? b then -1 else if b <? a then 1 else 0.

Inductive Outcome (A : Type) :=
| Ok (a : A)
| Panic (msg : string).
Arguments Ok {A} a.
Arguments Panic {A} msg.

Section SliceBuffer.
(** [T Numbered]: a type with a method [Seq() int32]. *)
Context {T : Type} (Seq : T → Z) (zeroT : T).

(** [slices.SortFunc] is not stable: of its result the code may only
    rely on its being a permutation of the slice (and sorted). *)
Variable SortFunc : (T → T → Z) → list T → list T.
Hypothesis SortFunc_perm : ∀ cmp l, SortFunc cmp l ≡ₚ l.

(** [compare] compares [b] with itself. *)
Definition compare (a b : T) : Z := cmp_Compare (Seq b) (Seq b).
Definition compareN (v : T) (n : Z) : Z := cmp_Compare (Seq v) n.

(** [slices.BinarySearchFunc]: the bisection of the standard library,
    [fuel] bounding the number of halvings. *)
Fixpoint bisect (x : list T) (target : Z) (fuel : nat) (i j : nat) : nat :=
  match fuel with
  | O => i
  | S fuel =>
      if (i <? j)%nat then
        let h := ((i + j) / 2)%nat in
        match x !! h with
        | Some e =>
            if compareN e target <? 0 then bisect x target fuel (S h) j
            else bisect x target fuel i h
        | None => i
        end
      else i
  end.

Definition BinarySearchFunc (x : list T) (target : Z) : nat * bool :=
  let i := bisect x target (S (length x)) 0 (length x) in
  (i, match x !! i with
      | Some e => compareN e target =? 0
      | None => false
      end).

Record SliceBuffer := mkSliceBuffer { s : list T; mark : Z }.

Definition Find (l : SliceBuffer) (n : Z) : T * bool :=
  let '(ix, ok) := BinarySearchFunc (s l) n in
  if ok then (default zeroT (s l !! ix), true) else (zeroT, false).

(** [Add]: [append(l.s)] has no element to append; [v] is not used. *)
Definition Add (l : SliceBuffer) (n : Z) (v : T) : Outcome SliceBuffer :=
  if (Find l n).2 then Panic "block already exists"
  else Ok (mkSliceBuffer (SortFunc compare (s l ++ [])) (mark l)).

(** [slices.Delete(s, i, j)] for [i ≤ j ≤ len(s)]. *)
Definition Delete (x : list T) (i j : nat) : list T := take i x ++ drop j x.

Definition Remove (l : SliceBuffer) (n : Z) : (T * bool) * SliceBuffer :=
  let '(ix, ok) := BinarySearchFunc (s l) n in
  if ok then
    ((default zeroT (s l !! ix), true),
     mkSliceBuffer (Delete (s l) ix (S ix)) (mark l))
  else ((zeroT, false), l).

(** The loop of [sequentialBlocks] over the blocks still to visit, at
    index [i]: the mark, [consumed], the consumer's state, and whether
    the consumer stopped the loop (the [return] before [slices.Delete]). *)
Fixpoint blocks_loop {C : Type} (yield : C → T → C * bool) (blks : list T)
    (i : nat) (mk : Z) (consumed : nat) (c : C) : Z * nat * C * bool :=
  match blks with
  | [] => (mk, consumed, c, false)
  | blk :: rest =>
      if Seq blk =? mk then
        let '(c', more) := yield c blk in
        if more then blocks_loop yield rest (S i) (wrap_int32 (mk + 1)) i c'
        else (wrap_int32 (mk + 1), i, c', true)
      else (mk, consumed, c, false)
  end.

Definition sequentialBlocks {C : Type} (yield : C → T → C * bool)
    (l : SliceBuffer) (c : C) : SliceBuffer * C :=
  let '(mk, consumed, c', stopped) := blocks_loop yield (s l) 0 (mark l) 0 c in
  (mkSliceBuffer (if stopped then s l else Delete (s l) 0 consumed) mk, c').

(** The buffers a program can hold: the zero value and what the methods
    make of it. *)
Inductive reachable : SliceBuffer → Prop :=
| reach_zero : reachable (mkSliceBuffer [] 0)
| reach_Add l n v l' : reachable l → Add l n v = Ok l' → reachable l'
| reach_Remove l n : reachable l → reachable (Remove l n).2
| reach_blocks {C : Type} (yield : C → T → C * bool) l c :
    reachable l → reachable (sequentialBlocks yield l c).1.

(** How many blocks from the front carry the numbers [mk], [mk + 1],
    ... *)
Fixpoint run_length (mk : Z) (blks : list T) : nat :=
  match blks with
  | blk :: rest =>
      if Seq blk =? mk then S (run_length (wrap_int32 (mk + 1)) rest) else 0%nat
  | [] => 0%nat
  end.

Fixpoint advance (k : nat) (mk : Z) : Z :=
  match k with O => mk | S k => advance k (wrap_int32 (mk + 1)) end.

(** The consumer of [slices.Collect]. *)
Definition collect (acc : list T) (v : T) : list T * bool := (acc ++ [v], true).

(** A consumer that is handed the blocks [xs] one by one until it stops:
    its final state, the number of blocks it was handed, and whether it
    stopped. *)
Fixpoint feed {C : Type} (yield : C → T → C * bool) (xs : list T) (c : C)
    : C * nat * bool :=
  match xs with
  | [] => (c, 0%nat, false)
  | x :: xs =>
      let '(c', more) := yield c x in
      if more then let '(c'', n, stopped) := feed yield xs c' in (c'', S n, stopped)
      else (c', 1%nat, true)
  end.

Lemma Find_nil mk n : Find (mkSliceBuffer [] mk) n = (zeroT, false).
Proof. done. Qed.

Lemma reachable_empty l : reachable l → l = mkSliceBuffer [] 0.
Proof.
  induction 1 as [|l n v l' _ -> H| l n _ -> |C yield l c _ ->]; try done.
  unfold Add in H. cbn in H. simplify_eq. f_equal.
  apply Permutation_nil_r. by rewrite SortFunc_perm.
Qed.

(** X29.  [SliceBuffer.Add] stores nothing: every buffer a program can
    make from the zero value is empty, [Add] does not panic on it, and
    [Find(n)] fails right after [Add(n, v)], whatever permutation
    [slices.SortFunc] returns. *)
Theorem slicebuf_always_empty l n v :
  reachable l →
  s l = [] ∧ ∃ l', Add l n v = Ok l' ∧ Find l' n = (zeroT, false).
Proof.
  intros Hr. pose proof (reachable_empty l Hr) as ->. split; [done|].
  destruct (Add (mkSliceBuffer [] 0) n v) as [l'|] eqn:HA; [|done].
  exists l'. split; [done|].
  by rewrite (reachable_empty l' (reach_Add _ _ _ _ Hr HA)).
Qed.

Lemma blocks_loop_collect blks i mk consumed acc :
  blocks_loop collect blks i mk consumed acc =
  (advance (run_length mk blks) mk,
   match run_length mk blks with
   | O => consumed
   | S k => (i + k)%nat
   end,
   acc ++ take (run_length mk blks) blks, false).
Proof.
  revert i mk consumed acc. induction blks as [|blk rest IH];
    intros i mk consumed acc; cbn [blocks_loop run_length].
  - by rewrite take_nil, app_nil_r.
  - destruct (Seq blk =? mk); [|by rewrite take_0, app_nil_r].
    cbn [collect]. rewrite IH. cbn [advance take].
    rewrite <- app_assoc. cbn [app]. repeat f_equal.
    destruct (run_length _ rest); lia.
Qed.

Lemma run_length_le mk blks : (run_length mk blks ≤ length blks)%nat.
Proof.
  revert mk. induction blks as [|blk rest IH]; intros mk; cbn [run_length length].
  - lia.
  - destruct (Seq blk =? mk); [|lia]. specialize (IH (wrap_int32 (mk + 1))). lia.
Qed.

Lemma feed_length {C} (yield : C → T → C * bool) xs c :
  ((feed yield xs c).1.2 ≤ length xs)%nat ∧
  ((feed yield xs c).2 = false → (feed yield xs c).1.2 = length xs).
Proof.
  revert c. induction xs as [|x xs IH]; intros c; cbn [feed length].
  - done.
  - destruct (yield c x) as [c' more]. destruct more.
    + specialize (IH c'). destruct (feed yield xs c') as [[c'' n] stopped].
      cbn [fst snd] in *. split; [lia|]. intros H. destruct IH as [_ IH].
      by rewrite (IH H).
    + cbn [fst snd]. split; [lia|done].
Qed.

Lemma blocks_loop_feed {C} (yield : C → T → C * bool) blks i mk consumed c :
  blocks_loop yield blks i mk consumed c =
  let '(c', n, stopped) := feed yield (take (run_length mk blks) blks) c in
  (advance n mk, match n with O => consumed | S k => (i + k)%nat end, c', stopped).
Proof.
  revert i mk consumed c. induction blks as [|blk rest IH];
    intros i mk consumed c; cbn [blocks_loop run_length].
  - done.
  - destruct (Seq blk =? mk); [|done]. cbn [take feed].
    destruct (yield c blk) as [c' more]. destruct more; [|by rewrite Nat.add_0_r].
    rewrite IH.
    destruct (feed yield (take (run_length (wrap_int32 (mk + 1)) rest) rest) c')
      as [[c'' n] stopped].
    cbn [advance]. repeat f_equal. destruct n; lia.
Qed.

(** X30.  [sequentialBlocks] yields the blocks numbered [mark], [mark +
    1], ... from the front and advances [mark] past every block it
    yielded, but deletes one block fewer than it yielded, so the last one
    stays in the buffer; when the consumer stops, at whichever block,
    nothing is deleted. *)
Theorem sequentialBlocks_keeps l :
  (let k := run_length (mark l) (s l) in
   sequentialBlocks collect l [] =
   (mkSliceBuffer (drop (k - 1)%nat (s l)) (advance k (mark l)), take k (s l))) ∧
  (∀ {C} (yield : C → T → C * bool) c,
     let k := run_length (mark l) (s l) in
     let '(c', n, stopped) := feed yield (take k (s l)) c in
     sequentialBlocks yield l c =
     (mkSliceBuffer (if stopped then s l else drop (n - 1)%nat (s l))
                    (advance n (mark l)), c') ∧
     (n ≤ k)%nat ∧ (stopped = false → n = k)).
Proof.
  split.
  - intros k. unfold sequentialBlocks. rewrite blocks_loop_collect. fold k.
    cbn [app]. unfold Delete. rewrite take_0. cbn [app].
    destruct k; [done|]. by rewrite Nat.add_0_l, Nat.sub_succ, Nat.sub_0_r.
  - intros C yield c k. unfold sequentialBlocks. rewrite blocks_loop_feed.
    fold k. pose proof (feed_length yield (take k (s l)) c) as Hn.
    destruct (feed yield (take k (s l)) c) as [[c' n] stopped].
    cbn [fst snd] in Hn. split_and!.
    + unfold Delete. rewrite take_0. cbn [app]. destruct stopped; [done|].
      destruct n; [done|]. by rewrite Nat.add_0_l, Nat.sub_succ, Nat.sub_0_r.
    + destruct Hn as [Hn _]. rewrite length_take in Hn. lia.
    + intros ->. destruct Hn as [_ Hn]. rewrite (Hn eq_refl), length_take.
      pose proof (run_length_le (mark l) (s l)). fold k in H. lia.
Qed.

End SliceBuffer.

Lemma slicebuf_always_empty_witness :
  s (mkSliceBuffer (T:=nat) [] 0) = [] ∧
  ∃ l', Add Z.of_nat 0%nat (λ _ l, l) (mkSliceBuffer [] 0) 7 7%nat = Ok l' ∧
        Find Z.of_nat 0%nat l' 7 = (0%nat, false).
Proof.
  apply (slicebuf_always_empty Z.of_nat 0%nat (λ _ l, l) (λ _ l, reflexivity l)
           (mkSliceBuffer [] 0) 7 7%nat).
  apply reach_zero.
Defined.

Lemma sequentialBlocks_keeps_witness :
  sequentialBlocks Z.of_nat collect (mkSliceBuffer [0; 1; 5]%nat 0) [] =
    (mkSliceBuffer [1; 5]%nat 2, [0; 1]%nat) ∧
  sequentialBlocks Z.of_nat (λ acc v, (acc ++ [v], (length acc <? 1)%nat))
                   (mkSliceBuffer [0; 1; 2; 5]%nat 0) [] =
    (mkSliceBuffer [0; 1; 2; 5]%nat 2, [0; 1]%nat).
Proof.
  split.
  - exact (proj1 (sequentialBlocks_keeps Z.of_nat (mkSliceBuffer [0; 1; 5]%nat 0))).
  - exact (proj1 (proj2 (sequentialBlocks_keeps Z.of_nat
                           (mkSliceBuffer [0; 1; 2; 5]%nat 0))
                        (list nat) (λ acc v, (acc ++ [v], (length acc <? 1)%nat)) [])).
Defined.

End SliceBuf.


(* ===================================================================== *)
(** * ctxerr/errors.go *)
(* ===================================================================== *)

Module Ctxerr.

(** Go [error] values.  [Sentinel] is an [errors.New] value (compared by
    identity, here by its text); [Annotated] is a [*ctxerr.Error] with its
    fields [Op], [Msg], [Err] and [Attrs].  The captured call stack is
    run-time data and is left out. *)
Inductive error :=
| Sentinel (msg : string)
| Annotated (Op Msg : string) (Err : option error) (Attrs : gmap string string).

(** The dynamic types the [switch arg := arg.(type)] of [newError] tells
    apart.  A [*Error] argument is either a pointer to a value
    ([ArgErrorPtr], with the fields of the value) or the nil pointer of
    that type ([ArgNilErrorPtr]); both are taken by [case *Error].
    [ArgContext] carries [ctxlog.GetAttrs(ctx)] as key and
    [Value.String()] pairs; [ArgError] is a value of any other type that
    implements [error]; [ArgOther] is any other argument, the nil interface
    included, which no case but [default] takes. *)
Inductive arg :=
| ArgOp (op : string)
| ArgErrorPtr (Op Msg : string) (Err : option error) (Attrs : gmap string string)
| ArgNilErrorPtr
| ArgContext (attrs : list (string * string))
| ArgError (err : error)
| ArgString (msg : string)
| ArgOther.

Record Error := mkError {
  Op : string; Msg : string; Err : option error; Attrs : gmap string string
}.

(** The loop [for _, attr := range v { e.Attrs[attr.Key] = ... }]. *)
Definition attrs_map (attrs : list (string * string)) : gmap string string :=
  foldl (λ m kv, <[kv.1 := kv.2]> m) ∅ attrs.

(** One turn of the type switch; [None] is a panic: the [panic] of the
    default case, or the nil dereference of [copyArg := *arg] in
    [case *Error]. *)
Definition newError_arg (e : Error) (a : arg) : option Error :=
  match a with
  | ArgOp op => Some (mkError op (Msg e) (Err e) (Attrs e))
  | ArgErrorPtr o m c at_ =>
      Some (mkError (Op e) (Msg e) (Some (Annotated o m c at_)) (Attrs e))
  | ArgNilErrorPtr => None
  | ArgContext attrs => Some (mkError (Op e) (Msg e) (Err e) (attrs_map attrs))
  | ArgError err => Some (mkError (Op e) (Msg e) (Some err) (Attrs e))
  | ArgString m => Some (mkError (Op e) m (Err e) (Attrs e))
  | ArgOther => None
  end.

Fixpoint newError_loop (e : Error) (args : list arg) : option Error :=
  match args with
  | [] => Some e
  | a :: args =>
      match newError_arg e a with
      | Some e' => newError_loop e' args
      | None => None
      end
  end.

Definition newError (args : list arg) : option Error :=
  newError_loop (mkError "" "" None ∅) args.

Definition E (args : list arg) : option error :=
  match newError args with
  | Some e => Some (Annotated (Op e) (Msg e) (Err e) (Attrs e))
  | None => None
  end.

(** [Unwrap]. *)
Definition Unwrap (e : error) : option error :=
  match e with
  | Annotated _ _ c _ => c
  | Sentinel _ => None
  end.

(** The errors [errors.Is] visits: the error and its chain of causes. *)
Fixpoint chain (e : error) : list error :=
  match e with
  | Sentinel _ => [e]
  | Annotated _ _ None _ => [e]
  | Annotated _ _ (Some c) _ => e :: chain c
  end.

Definition Canceled : error := Sentinel "context canceled".
Definition DeadlineExceeded : error := Sentinel "context deadline exceeded".

(** ** The fields [newError] sets *)

(** The arguments of each kind, in order. *)
Definition ops (args : list arg) : list string :=
  omap (λ a, match a with ArgOp o => Some o | _ => None end) args.
Definition msgs (args : list arg) : list string :=
  omap (λ a, match a with ArgString m => Some m | _ => None end) args.
Definition errs (args : list arg) : list error :=
  omap (λ a, match a with
             | ArgErrorPtr o m c at_ => Some (Annotated o m c at_)
             | ArgError err => Some err
             | _ => None
             end) args.
Definition ctxs (args : list arg) : list (list (string * string)) :=
  omap (λ a, match a with ArgContext attrs => Some attrs | _ => None end) args.

(** ** [Error()] *)




(** ** [Ef] *)

Section Ef.
(** [fmt.Sprintf], on the format string and its operands. *)
Variable Sprintf : string → list arg → string.

Definition is_string (a : arg) : bool :=
  match a with ArgString _ => true | _ => false end.

(** [slices.IndexFunc]: the first index at which [f] holds, or [-1]. *)
Fixpoint IndexFunc (f : arg → bool) (args : list arg) : Z :=
  match args with
  | [] => -1
  | a :: args =>
      if f a then 0
      else let i := IndexFunc f args in if i <? 0 then -1 else i + 1
  end.

Definition Ef (args : list arg) : option error :=
  let idx := IndexFunc is_string args in
  if 0 <? idx then
    let fmtArgs := drop (Z.to_nat idx) args in
    let args := take (Z.to_nat idx) args in
    match fmtArgs with
    | ArgString msg :: operands =>
        let msg := if (1 <? length fmtArgs)%nat then Sprintf msg operands else msg in
        E (args ++ [ArgString msg])
    | _ => None   (* fmtArgs[0].(string) fails: not reached *)
    end
  else E args.

End Ef.

Section CtxerrProps.

Lemma newError_loop_None e args :
  newError_loop e args = None ↔ ArgOther ∈ args ∨ ArgNilErrorPtr ∈ args.
Proof.
  revert e. induction args as [|a args IH]; intros e; cbn [newError_loop].
  - split; [done|]. by intros [?%elem_of_nil|?%elem_of_nil].
  - rewrite !elem_of_cons.
    destruct a; cbn [newError_arg]; rewrite ?IH;
      try (split; [intros [?|?]; [left|right]; by right
                  |intros [[?|?]|[?|?]]; try discriminate;
                   [by left|by right]]).
    + split; [intros _; right; by left|done].
    + split; [intros _; left; by left|done].
Qed.

Lemma last_cons_Some {A} (x : A) l : last (x :: l) = Some (default x (last l)).
Proof.
  destruct l as [|y l]; [done|]. rewrite last_cons_cons.
  destruct (last (y :: l)) eqn:H; [done|]. by apply last_None in H.
Qed.

Lemma ops_cons a args :
  ops (a :: args) = match a with ArgOp o => o :: ops args | _ => ops args end.
Proof. by destruct a. Qed.
Lemma msgs_cons a args :
  msgs (a :: args) =
  match a with ArgString m => m :: msgs args | _ => msgs args end.
Proof. by destruct a. Qed.
Lemma errs_cons a args :
  errs (a :: args) =
  match a with
  | ArgErrorPtr o m c at_ => Annotated o m c at_ :: errs args
  | ArgError err => err :: errs args
  | _ => errs args
  end.
Proof. by destruct a. Qed.
Lemma ctxs_cons a args :
  ctxs (a :: args) =
  match a with ArgContext attrs => attrs :: ctxs args | _ => ctxs args end.
Proof. by destruct a. Qed.

Lemma newError_loop_fields e args e' :
  newError_loop e args = Some e' →
  Op e' = default (Op e) (last (ops args)) ∧
  Msg e' = default (Msg e) (last (msgs args)) ∧
  Err e' = from_option Some (Err e) (last (errs args)) ∧
  Attrs e' = default (Attrs e) (attrs_map <$> last (ctxs args)).
Proof.
  revert e. induction args as [|a args IH]; intros e H; cbn [newError_loop] in H.
  - by simplify_eq.
  - rewrite ops_cons, msgs_cons, errs_cons, ctxs_cons.
    destruct a; cbn [newError_arg] in H; try done;
      destruct (IH _ H) as (Ho & Hm & He & Ha);
      cbn [Op Msg Err Attrs] in Ho, Hm, He, Ha;
      rewrite ?last_cons_Some; cbn [default from_option fmap option_fmap option_map];
      split_and!; try done.
    + rewrite He. by destruct (last (errs args)).
    + rewrite Ha. by destruct (last (ctxs args)).
    + rewrite He. by destruct (last (errs args)).
Qed.

(** X26.  [newError] panics exactly when an argument has a type it does
    not know or is a nil [*Error]; otherwise [Op], [Msg], [Err] and [Attrs]
    are set by the last argument of their kind, and are empty when there is
    none. *)
Theorem newError_fields args :
  (newError args = None ↔ ArgOther ∈ args ∨ ArgNilErrorPtr ∈ args) ∧
  (∀ e, newError args = Some e →
        Op e = default "" (last (ops args)) ∧
        Msg e = default "" (last (msgs args)) ∧
        Err e = last (errs args) ∧
        Attrs e = default ∅ (attrs_map <$> last (ctxs args))).
Proof.
  split; [apply newError_loop_None|]. intros e H.
  destruct (newError_loop_fields _ _ _ H) as (? & ? & He & ?).
  split_and!; try done. rewrite He. cbn [Err]. by destruct (last (errs args)).
Qed.


Section EfProps.
Variable Sprintf : string → list arg → string.

Lemma IndexFunc_none args :
  Forall (λ a, is_string a = false) args → IndexFunc is_string args = -1.
Proof.
  induction 1 as [|a args Ha _ IH]; [done|]. cbn [IndexFunc].
  by rewrite Ha, IH.
Qed.

Lemma IndexFunc_first pre f rest :
  Forall (λ a, is_string a = false) pre →
  IndexFunc is_string (pre ++ ArgString f :: rest) = Z.of_nat (length pre).
Proof.
  induction 1 as [|a pre Ha _ IH]; [done|]. cbn [IndexFunc app length].
  rewrite Ha, IH. destruct (Z.ltb_spec (Z.of_nat (length pre)) 0); lia.
Qed.

(** X28.  [Ef] formats only when the format string is not its first
    argument: with the string first, or with no string, the arguments go
    to [newError] as they are; otherwise the arguments after the string
    are consumed by [Sprintf] and only the formatted message is passed
    on. *)
Theorem Ef_cases :
  (∀ f rest, Ef Sprintf (ArgString f :: rest) = E (ArgString f :: rest)) ∧
  (∀ args, Forall (λ a, is_string a = false) args → Ef Sprintf args = E args) ∧
  (∀ pre f rest,
     pre ≠ [] → Forall (λ a, is_string a = false) pre →
     Ef Sprintf (pre ++ ArgString f :: rest) =
     E (pre ++ [ArgString (match rest with
                           | [] => f
                           | _ => Sprintf f rest
                           end)])).
Proof.
  split_and!.
  - done.
  - intros args H. unfold Ef. by rewrite (IndexFunc_none _ H).
  - intros pre f rest Hne H. unfold Ef. rewrite (IndexFunc_first _ _ _ H).
    destruct (Z.ltb_spec 0 (Z.of_nat (length pre))) as [_|Hl].
    2:{ destruct pre; [done|cbn in Hl; lia]. }
    rewrite Nat2Z.id, drop_app_length, take_app_length. by destruct rest.
Qed.

End EfProps.

End CtxerrProps.

Lemma Ef_cases_witness :
  Ef (λ f _, f) [ArgString "%d items"; ArgOther] = None ∧
  Ef (λ f _, f) [ArgOp "load"; ArgString "%d items"; ArgOther] =
    Some (Annotated "load" "%d items" None ∅).
Proof.
  pose proof (Ef_cases (λ f _, f)) as (H1 & _ & H3). split.
  - rewrite H1. reflexivity.
  - exact (H3 [ArgOp "load"] "%d items" [ArgOther] ltac:(done)
             ltac:(by repeat constructor)).
Defined.

Lemma newError_fields_witness :
  newError [ArgOp "a"; ArgString "x"; ArgOp "b"; ArgError Canceled] =
    Some (mkError "b" "x" (Some Canceled) ∅) ∧
  newError [ArgOp "a"; ArgOther] = None ∧
  newError [ArgOp "a"; ArgNilErrorPtr; ArgString "x"] = None.
Proof.
  split; [reflexivity|]. split.
  - apply (proj2 (proj1 (newError_fields [ArgOp "a"; ArgOther]))).
    left. apply elem_of_cons. right. apply elem_of_cons. by left.
  - apply (proj2 (proj1 (newError_fields
                           [ArgOp "a"; ArgNilErrorPtr; ArgString "x"]))).
    right. apply elem_of_cons. right. apply elem_of_cons. by left.
Defined.

End Ctxerr.

(* ===================================================================== *)
(** * syncq/syncq.go *)
(* ===================================================================== *)

Module Syncq.
Import Ctxerr.

(** [atomic.Int64]: [Add] wraps around in two's complement. *)
Definition wrap64 (z : Z) : Z := (z + 2 ^ 63) mod 2 ^ 64 - 2 ^ 63.

Definition ErrQueueShutdown : error := Sentinel "Queue is shutdown".

(** A [context.Context] as the queue uses it: its identity (which [Done]
    channel it has) and the attributes [ctxlog.GetAttrs] finds in it.
    Whether it is cancelled, and with which [Err], is part of the state. *)
Record Context := mkCtx { ctx_id : nat; ctx_attrs : list (string * string) }.

Section Queue.
Context {E : Type} (zero : E).

(** ** Client goroutines *)

(** The methods of [Queue] a client calls, and what they return. *)
Inductive Call :=
| CPush (ctx : Context) (e : E)
| CPop (ctx : Context)
| CClose
| CShutdown
| CWaitEmpty (ctx : Context)
| CSize.

Inductive Ret :=
| RPush (err : option error)
| RPop (element : E) (open : bool)
| RClose
| RShutdown
| RWaitEmpty (b : bool)
| RSize (size total : Z).

(** The channels [closeOnce] is applied to. *)
Inductive Chan := pushc | shutdownc.

(** Where [closeOnce] returns to: [Close], [Shutdown], or inside
    [WaitEmpty] the [select] (after [q.Close()]) or the [<-q.done]
    (after [q.Shutdown()]). *)
Inductive Kont :=
| KClose
| KShutdown
| KWaitEmptySelect (ctx : Context)
| KWaitEmptyDone.

(** The program points of a client goroutine at which the next
    instruction is visible to other goroutines.  Statements that touch
    only local variables ([return], [if found]) are executed together with
    the visible instruction before them. *)
Inductive Frame :=
| Idle                                   (* between two calls *)
| PushParked (ctx : Context) (e : E)     (* Push: blocked in the select *)
| PushPanics                             (* Push: woken by close(q.pushc) *)
| PushSent                               (* Push: before total.Add(1) *)
| PushCounted                            (* Push: before size.Add(1) *)
| PopParked (ctx : Context)              (* Pop: blocked in the select *)
| PopReceived (x : E)                    (* Pop: found, before size.Add(-1) *)
| CloseOnceDefault (c : Chan) (k : Kont) (* closeOnce: before close(c) *)
| WaitEmptySelect (ctx : Context)        (* WaitEmpty: before the select *)
| WaitEmptyParked (ctx : Context)        (* WaitEmpty: blocked in the select *)
| WaitEmptyShutdown                      (* WaitEmpty: before q.Shutdown() *)
| WaitEmptyDone                          (* WaitEmpty: before <-q.done *)
| WaitEmptyDoneParked                    (* WaitEmpty: blocked in <-q.done *)
| SizeLoaded (s : Z).                    (* Size: before total.Load() *)

Record Thread := mkThread {
  prog : list Call;    (* the calls still to make *)
  frame : Frame;
  log : list Ret       (* what the calls made so far returned *)
}.

Definition set_frame (th : Thread) (f : Frame) : Thread :=
  mkThread (prog th) f (log th).

Definition ret (th : Thread) (r : Ret) : Thread :=
  mkThread (prog th) Idle (log th ++ [r]).

(** ** The dispatch goroutine [goqueue] *)

Inductive APc :=
| ARunning      (* about to execute the select of the loop *)
| AParked       (* blocked in the select *)
| AClosePopc    (* returned: before the deferred close(q.popc) *)
| ACloseDone    (* before the deferred close(q.done) *)
| AExited.

(** The local variables of [goqueue]; [a_pushc] and [a_popc] tell whether
    the local [pushc] and [popc] are non-nil. *)
Record Actor := mkActor {
  a_pc : APc;
  queue : list E;
  next : E;
  a_pushc : bool;
  a_popc : bool
}.

(** The code after the select: compute [empty], [closed], [popReady] and
    run the [switch]. *)
Definition after_select (q : list E) (nx : E) (pc_ popc_ : bool) : Actor :=
  let empty := bool_decide (length q = 0%nat) && negb popc_ in
  let closed := negb pc_ in
  let popReady := negb popc_ in
  if closed && empty then mkActor AClosePopc q nx pc_ popc_
  else
    match q with
    | x :: q' =>
        if popReady then mkActor ARunning q' x pc_ true
        else mkActor ARunning q nx pc_ popc_
    | [] => mkActor ARunning q nx pc_ popc_
    end.

(** [case e, ok := <-pushc] with [ok]: [queue = append(queue, e)]. *)
Definition actor_recv (a : Actor) (e : E) : Actor :=
  after_select (queue a ++ [e]) (next a) (a_pushc a) (a_popc a).

(** [case e, ok := <-pushc] on the closed channel: [pushc = nil]. *)
Definition actor_recv_closed (a : Actor) : Actor :=
  after_select (queue a) (next a) false (a_popc a).

(** [case popc <- next]: [popc = nil]. *)
Definition actor_sent (a : Actor) : Actor :=
  after_select (queue a) (next a) (a_pushc a) false.

(** [case <-q.shutdown]: [return]. *)
Definition actor_shutdown (a : Actor) : Actor :=
  mkActor AClosePopc (queue a) (next a) (a_pushc a) (a_popc a).

Definition set_pc (a : Actor) (pc : APc) : Actor :=
  mkActor pc (queue a) (next a) (a_pushc a) (a_popc a).

(** ** The state of the program *)

Record State := mkState {
  threads : list Thread;
  actor : Actor;
  pushc_closed : bool;
  popc_closed : bool;
  shutdown_closed : bool;
  done_closed : bool;
  size : Z;
  total : Z;
  ctx_err : nat → option error;   (* ctx.Err() of each context *)
  panicked : bool;                (* a goroutine panicked: the process is gone *)
  (* history variables, not read by any step: *)
  accepted : list E;       (* what goqueue received on pushc, in order *)
  delivered : list E;      (* what Pop received on popc, in order *)
  dropped : list E         (* what closeOnce received on pushc *)
}.

(** [New]: the channels are open, the counters zero, [goqueue] is started
    with [pushc = q.pushc] and [popc = nil]; [progs] are the clients. *)
Definition New (progs : list (list Call)) (cerr : nat → option error) : State :=
  {| threads := (λ p, mkThread p Idle []) <$> progs;
     actor := mkActor ARunning [] zero true false;
     pushc_closed := false; popc_closed := false;
     shutdown_closed := false; done_closed := false;
     size := 0; total := 0; ctx_err := cerr; panicked := false;
     accepted := []; delivered := []; dropped := [] |}.

Definition is_PushParked (th : Thread) : bool :=
  match frame th with PushParked _ _ => true | _ => false end.
Definition is_PopParked (th : Thread) : bool :=
  match frame th with PopParked _ => true | _ => false end.

(** ** Waking blocked goroutines *)

(** [close(q.shutdown)]: every select blocked on [<-q.shutdown] takes
    that case. *)
Definition wake_shutdown (th : Thread) : Thread :=
  match frame th with
  | PushParked _ _ => ret th (RPush (Some ErrQueueShutdown))
  | PopParked _ => ret th (RPop zero false)
  | _ => th
  end.

(** [close(q.pushc)]: a blocked [Push] is woken and its send will panic. *)
Definition wake_pushc (th : Thread) : Thread :=
  match frame th with
  | PushParked _ _ => set_frame th PushPanics
  | _ => th
  end.

(** [close(q.popc)]: a blocked [Pop] receives [zero, false]. *)
Definition wake_popc (th : Thread) : Thread :=
  match frame th with
  | PopParked _ => ret th (RPop zero false)
  | _ => th
  end.

(** [close(q.done)]. *)
Definition wake_done (th : Thread) : Thread :=
  match frame th with
  | WaitEmptyParked _ => ret th (RWaitEmpty true)
  | WaitEmptyDoneParked => ret th (RWaitEmpty false)
  | _ => th
  end.

(** [return ctxerr.E(ctx, ctx.Err())].  [E] panics only on an argument of
    a type it does not know or on a nil [*Error]; a context and the error
    of a cancelled context are neither. *)
Definition push_ctx_error (ctx : Context) (err : error) : error :=
  match Ctxerr.E [ArgContext (ctx_attrs ctx); ArgError err] with
  | Some e => e
  | None => err
  end.

(** The context [id] is cancelled with [err]: every select blocked on its
    [Done] channel takes that case. *)
Definition wake_cancel (id : nat) (err : error) (th : Thread) : Thread :=
  match frame th with
  | PushParked ctx _ =>
      if bool_decide (ctx_id ctx = id)
      then ret th (RPush (Some (push_ctx_error ctx err)))
      else th
  | PopParked ctx =>
      if bool_decide (ctx_id ctx = id) then ret th (RPop zero false) else th
  | WaitEmptyParked ctx =>
      if bool_decide (ctx_id ctx = id) then set_frame th WaitEmptyShutdown else th
  | _ => th
  end.

(** ** Steps *)

Definition set_threads (ts : list Thread) (s : State) : State :=
  mkState ts (actor s) (pushc_closed s) (popc_closed s) (shutdown_closed s)
    (done_closed s) (size s) (total s) (ctx_err s) (panicked s)
    (accepted s) (delivered s) (dropped s).

Definition set_thread (t : nat) (th : Thread) (s : State) : State :=
  set_threads (<[t := th]> (threads s)) s.

Definition set_actor (a : Actor) (s : State) : State :=
  mkState (threads s) a (pushc_closed s) (popc_closed s) (shutdown_closed s)
    (done_closed s) (size s) (total s) (ctx_err s) (panicked s)
    (accepted s) (delivered s) (dropped s).

Definition set_counters (sz tot : Z) (s : State) : State :=
  mkState (threads s) (actor s) (pushc_closed s) (popc_closed s)
    (shutdown_closed s) (done_closed s) sz tot (ctx_err s) (panicked s)
    (accepted s) (delivered s) (dropped s).

Definition set_closed (pu po sh dn : bool) (s : State) : State :=
  mkState (threads s) (actor s) pu po sh dn (size s) (total s) (ctx_err s)
    (panicked s) (accepted s) (delivered s) (dropped s).

Definition set_history (acc del drp : list E) (s : State) : State :=
  mkState (threads s) (actor s) (pushc_closed s) (popc_closed s)
    (shutdown_closed s) (done_closed s) (size s) (total s) (ctx_err s)
    (panicked s) acc del drp.

Definition set_ctx_err (ce : nat → option error) (s : State) : State :=
  mkState (threads s) (actor s) (pushc_closed s) (popc_closed s)
    (shutdown_closed s) (done_closed s) (size s) (total s) ce (panicked s)
    (accepted s) (delivered s) (dropped s).

Definition panic (s : State) : State :=
  mkState (threads s) (actor s) (pushc_closed s) (popc_closed s)
    (shutdown_closed s) (done_closed s) (size s) (total s) (ctx_err s) true
    (accepted s) (delivered s) (dropped s).

(** The case a select takes.  [BrChan] is the case on the queue's own
    channel ([pushc], [popc], [done], or the channel of [closeOnce]) when
    the dispatch goroutine is the partner or the channel is closed;
    [BrFrom t] is the receive of [closeOnce] from the blocked sender [t];
    [BrNone] is blocking, or [default], and is possible only when no case
    can proceed. *)
Inductive Branch := BrCtx | BrShutdown | BrChan | BrFrom (t : nat) | BrNone.

Inductive ABranch :=
| ARecvFrom (t : nat)   (* case e, ok := <-pushc, from the blocked Push t *)
| ARecvClosed           (* case e, ok := <-pushc, channel closed *)
| ASendTo (t : nat)     (* case popc <- next, to the blocked Pop t *)
| AShutdown             (* case <-q.shutdown *)
| APark.                (* no case can proceed *)

Inductive Action :=
| ActThread (t : nat) (b : Branch)
| ActActor (b : ABranch)
| ActCancel (id : nat) (err : error).

Definition cancelled (s : State) (ctx : Context) : bool :=
  bool_decide (is_Some (ctx_err s (ctx_id ctx))).

Definition parked (a : Actor) : bool :=
  match a_pc a with AParked => true | _ => false end.

(** The dispatch goroutine is blocked in its select. *)
Definition actor_waits (s : State) : bool := parked (actor s).

(** The select of [Push]. *)
Definition push_select (t : nat) (th : Thread) (ctx : Context) (e : E)
    (b : Branch) (s : State) : option State :=
  match b with
  | BrCtx =>
      match ctx_err s (ctx_id ctx) with
      | Some err =>
          Some (set_thread t (ret th (RPush (Some (push_ctx_error ctx err)))) s)
      | None => None
      end
  | BrShutdown =>
      if shutdown_closed s
      then Some (set_thread t (ret th (RPush (Some ErrQueueShutdown))) s)
      else None
  | BrChan =>
      if pushc_closed s then Some (panic s)      (* send on closed channel *)
      else if actor_waits s && a_pushc (actor s) then
        Some (set_history (accepted s ++ [e]) (delivered s) (dropped s)
               (set_actor (actor_recv (actor s) e)
                 (set_thread t (set_frame th PushSent) s)))
      else None
  | BrNone =>
      if cancelled s ctx || shutdown_closed s || pushc_closed s
         || (actor_waits s && a_pushc (actor s))
      then None
      else Some (set_thread t (set_frame th (PushParked ctx e)) s)
  | BrFrom _ => None
  end.

(** The select of [Pop]. *)
Definition pop_select (t : nat) (th : Thread) (ctx : Context)
    (b : Branch) (s : State) : option State :=
  match b with
  | BrChan =>
      if popc_closed s then Some (set_thread t (ret th (RPop zero false)) s)
      else if actor_waits s && a_popc (actor s) then
        Some (set_history (accepted s) (delivered s ++ [next (actor s)]) (dropped s)
               (set_actor (actor_sent (actor s))
                 (set_thread t (set_frame th (PopReceived (next (actor s)))) s)))
      else None
  | BrShutdown =>
      if shutdown_closed s then Some (set_thread t (ret th (RPop zero false)) s)
      else None
  | BrCtx =>
      if cancelled s ctx then Some (set_thread t (ret th (RPop zero false)) s)
      else None
  | BrNone =>
      if cancelled s ctx || shutdown_closed s || popc_closed s
         || (actor_waits s && a_popc (actor s))
      then None
      else Some (set_thread t (set_frame th (PopParked ctx)) s)
  | BrFrom _ => None
  end.

Definition chan_closed (c : Chan) (s : State) : bool :=
  match c with pushc => pushc_closed s | shutdownc => shutdown_closed s end.

(** A sender is blocked on [c]: only [Push] sends, and only on [pushc]. *)
Definition sender_blocked (c : Chan) (s : State) : bool :=
  match c with
  | pushc => existsb is_PushParked (threads s)
  | shutdownc => false
  end.

Definition continue (k : Kont) (th : Thread) : Thread :=
  match k with
  | KClose => ret th RClose
  | KShutdown => ret th RShutdown
  | KWaitEmptySelect ctx => set_frame th (WaitEmptySelect ctx)
  | KWaitEmptyDone => set_frame th WaitEmptyDone
  end.

(** [closeOnce], the select: [case <-c: return] when [c] is closed or a
    sender is blocked on it, else [default]. *)
Definition closeOnce_select (t : nat) (th : Thread) (c : Chan) (k : Kont)
    (b : Branch) (s : State) : option State :=
  match b with
  | BrChan =>
      if chan_closed c s then Some (set_thread t (continue k th) s) else None
  | BrFrom t' =>
      match c, threads s !! t' with
      | pushc, Some th' =>
          match frame th' with
          | PushParked _ e =>
              Some (set_history (accepted s) (delivered s) (dropped s ++ [e])
                     (set_thread t (continue k th)
                       (set_thread t' (set_frame th' PushSent) s)))
          | _ => None
          end
      | _, _ => None
      end
  | BrNone =>
      if chan_closed c s || sender_blocked c s then None
      else Some (set_thread t (set_frame th (CloseOnceDefault c k)) s)
  | _ => None
  end.

(** [closeOnce], the default case: [close(c)]. *)
Definition closeOnce_close (t : nat) (th : Thread) (c : Chan) (k : Kont)
    (s : State) : State :=
  if chan_closed c s then panic s                 (* close of closed channel *)
  else
    match c with
    | pushc =>
        let s1 := set_closed true (popc_closed s) (shutdown_closed s)
                    (done_closed s) s in
        set_thread t (continue k th)
          (set_threads (wake_pushc <$> threads s)
            (if actor_waits s && a_pushc (actor s)
             then set_actor (actor_recv_closed (actor s)) s1 else s1))
    | shutdownc =>
        let s1 := set_closed (pushc_closed s) (popc_closed s) true
                    (done_closed s) s in
        set_thread t (continue k th)
          (set_threads (wake_shutdown <$> threads s)
            (if actor_waits s then set_actor (actor_shutdown (actor s)) s1
             else s1))
    end.

(** The select of [WaitEmpty]. *)
Definition waitEmpty_select (t : nat) (th : Thread) (ctx : Context)
    (b : Branch) (s : State) : option State :=
  match b with
  | BrChan =>
      if done_closed s then Some (set_thread t (ret th (RWaitEmpty true)) s)
      else None
  | BrCtx =>
      if cancelled s ctx then Some (set_thread t (set_frame th WaitEmptyShutdown) s)
      else None
  | BrNone =>
      if done_closed s || cancelled s ctx then None
      else Some (set_thread t (set_frame th (WaitEmptyParked ctx)) s)
  | _ => None
  end.

(** A call begins: its first visible instruction. *)
Definition call_step (t : nat) (th : Thread) (c : Call) (b : Branch)
    (s : State) : option State :=
  match c with
  | CPush ctx e => push_select t th ctx e b s
  | CPop ctx => pop_select t th ctx b s
  | CClose => closeOnce_select t th pushc KClose b s
  | CShutdown => closeOnce_select t th shutdownc KShutdown b s
  | CWaitEmpty ctx => closeOnce_select t th pushc (KWaitEmptySelect ctx) b s
  | CSize => Some (set_thread t (set_frame th (SizeLoaded (size s))) s)
  end.

(** One instruction of client [t]. *)
Definition thread_step (t : nat) (th : Thread) (b : Branch) (s : State)
    : option State :=
  match frame th with
  | Idle =>
      match prog th with
      | c :: rest => call_step t (mkThread rest Idle (log th)) c b s
      | [] => None
      end
  | PushPanics => Some (panic s)               (* send on closed channel *)
  | PushSent =>
      Some (set_counters (size s) (wrap64 (total s + 1))
             (set_thread t (set_frame th PushCounted) s))
  | PushCounted =>
      Some (set_counters (wrap64 (size s + 1)) (total s)
             (set_thread t (ret th (RPush None)) s))
  | PopReceived x =>
      Some (set_counters (wrap64 (size s - 1)) (total s)
             (set_thread t (ret th (RPop x true)) s))
  | CloseOnceDefault c k => Some (closeOnce_close t th c k s)
  | WaitEmptySelect ctx => waitEmpty_select t th ctx b s
  | WaitEmptyShutdown => closeOnce_select t th shutdownc KWaitEmptyDone b s
  | WaitEmptyDone =>
      if done_closed s then Some (set_thread t (ret th (RWaitEmpty false)) s)
      else Some (set_thread t (set_frame th WaitEmptyDoneParked) s)
  | SizeLoaded sz => Some (set_thread t (ret th (RSize sz (total s))) s)
  | PushParked _ _ | PopParked _ | WaitEmptyParked _ | WaitEmptyDoneParked => None
  end.

(** One turn of [goqueue]. *)
Definition actor_step (b : ABranch) (s : State) : option State :=
  let a := actor s in
  match a_pc a with
  | ARunning =>
      match b with
      | ARecvFrom t =>
          match threads s !! t with
          | Some th =>
              match frame th with
              | PushParked _ e =>
                  if a_pushc a then
                    Some (set_history (accepted s ++ [e]) (delivered s) (dropped s)
                           (set_actor (actor_recv a e)
                             (set_thread t (set_frame th PushSent) s)))
                  else None
              | _ => None
              end
          | None => None
          end
      | ARecvClosed =>
          if a_pushc a && pushc_closed s
          then Some (set_actor (actor_recv_closed a) s) else None
      | ASendTo t =>
          match threads s !! t with
          | Some th =>
              match frame th with
              | PopParked _ =>
                  if a_popc a then
                    Some (set_history (accepted s) (delivered s ++ [next a]) (dropped s)
                           (set_actor (actor_sent a)
                             (set_thread t (set_frame th (PopReceived (next a))) s)))
                  else None
              | _ => None
              end
          | None => None
          end
      | AShutdown =>
          if shutdown_closed s then Some (set_actor (actor_shutdown a) s)
          else None
      | APark =>
          if (a_pushc a && (pushc_closed s || existsb is_PushParked (threads s)))
             || (a_popc a && existsb is_PopParked (threads s))
             || shutdown_closed s
          then None
          else Some (set_actor (set_pc a AParked) s)
      end
  | AClosePopc =>
      Some (set_closed (pushc_closed s) true (shutdown_closed s) (done_closed s)
             (set_actor (set_pc a ACloseDone)
               (set_threads (wake_popc <$> threads s) s)))
  | ACloseDone =>
      Some (set_closed (pushc_closed s) (popc_closed s) (shutdown_closed s) true
             (set_actor (set_pc a AExited)
               (set_threads (wake_done <$> threads s) s)))
  | AParked | AExited => None
  end.

(** A context is cancelled (or its deadline passes). *)
Definition cancel_step (id : nat) (err : error) (s : State) : option State :=
  match ctx_err s id with
  | Some _ => None
  | None =>
      Some (set_ctx_err (λ i, if bool_decide (i = id) then Some err else ctx_err s i)
             (set_threads (wake_cancel id err <$> threads s) s))
  end.

(** One step of the program.  After a panic nothing runs. *)
Definition step (a : Action) (s : State) : option State :=
  if panicked s then None
  else
    match a with
    | ActThread t b =>
        match threads s !! t with
        | Some th => thread_step t th b s
        | None => None
        end
    | ActActor b => actor_step b s
    | ActCancel id err => cancel_step id err s
    end.

(** A schedule is a list of actions, run from left to right. *)
Fixpoint run (sch : list Action) (s : State) : option State :=
  match sch with
  | [] => Some s
  | a :: sch =>
      match step a s with
      | Some s' => run sch s'
      | None => None
      end
  end.

(** ** Invariants *)

(** What [goqueue] still has to deliver: the element on offer, if any,
    then the backlog. *)
Definition pending (a : Actor) : list E :=
  (if a_popc a then [next a] else []) ++ queue a.

Definition alive (pc : APc) : bool :=
  match pc with ARunning | AParked => true | _ => false end.

Definition kont_chan (k : Kont) : Chan :=
  match k with
  | KClose | KWaitEmptySelect _ => pushc
  | KShutdown | KWaitEmptyDone => shutdownc
  end.

Record actor_ok_at (a : Actor) (pu po sh dn : bool) (acc del : list E) : Prop :=
  mkActorOk {
  ok_queue : alive (a_pc a) = true → a_popc a = false → queue a = [];
  ok_work : alive (a_pc a) = true → a_pushc a = false → pending a ≠ [];
  ok_pushc : a_pushc a = false → pu = true;
  ok_exit : alive (a_pc a) = false → sh = true ∨ (a_pushc a = false ∧ pending a = []);
  ok_popc : po = match a_pc a with ACloseDone | AExited => true | _ => false end;
  ok_done : dn = match a_pc a with AExited => true | _ => false end;
  ok_parked : a_pc a = AParked → sh = false ∧ (a_pushc a = true → pu = false);
  ok_hist : acc = del ++ pending a
}.

Definition actor_ok (s : State) : Prop :=
  actor_ok_at (actor s) (pushc_closed s) (popc_closed s) (shutdown_closed s)
    (done_closed s) (accepted s) (delivered s).

Definition thread_ok_at (a : Actor) (pu po sh dn : bool)
    (cerr : nat → option Ctxerr.error) (th : Thread) : Prop :=
  match frame th with
  | PushParked ctx _ =>
      sh = false ∧ pu = false ∧ cerr (ctx_id ctx) = None ∧
      (a_pc a = AParked → a_pushc a = false)
  | PopParked ctx =>
      sh = false ∧ po = false ∧ cerr (ctx_id ctx) = None ∧
      (a_pc a = AParked → a_popc a = false)
  | WaitEmptyParked ctx => dn = false ∧ cerr (ctx_id ctx) = None
  | WaitEmptyDoneParked => dn = false ∧ sh = true
  | WaitEmptyDone => sh = true
  | CloseOnceDefault c k => kont_chan k = c
  | _ => True
  end.

Definition thread_ok (s : State) : Thread → Prop :=
  thread_ok_at (actor s) (pushc_closed s) (popc_closed s) (shutdown_closed s)
    (done_closed s) (ctx_err s).

Definition Inv (s : State) : Prop :=
  actor_ok s ∧ Forall (thread_ok s) (threads s).

(** ** Accounting *)

Definition is_push_ok (r : Ret) : bool :=
  match r with RPush None => true | _ => false end.
Definition is_pop_ok (r : Ret) : bool :=
  match r with RPop _ true => true | _ => false end.

Definition count_ok (f : Ret → bool) (l : list Ret) : Z :=
  Z.of_nat (length (List.filter f l)).

(** The successful [Push] and [Pop] calls of a client so far. *)
Definition pushes (th : Thread) : Z := count_ok is_push_ok (log th).
Definition pops (th : Thread) : Z := count_ok is_pop_ok (log th).

(** A [Push] between its hand-off and its return; one that has added to
    [total] but not yet to [size]; a [Pop] between its receive and its
    [size.Add(-1)]. *)
Definition handed_off (th : Thread) : Z :=
  match frame th with PushSent | PushCounted => 1 | _ => 0 end.
Definition half_counted (th : Thread) : Z :=
  match frame th with PushCounted => 1 | _ => 0 end.
Definition receiving (th : Thread) : Z :=
  match frame th with PopReceived _ => 1 | _ => 0 end.

Definition sumZ (f : Thread → Z) (l : list Thread) : Z :=
  foldr (λ th z, f th + z) 0 l.

Record Cnt (s : State) : Prop := mkCnt {
  cnt_total :
    total s = wrap64 (sumZ (λ th, pushes th + half_counted th) (threads s));
  cnt_size : size s = wrap64 (sumZ (λ th, pushes th - pops th) (threads s));
  cnt_sent :
    Z.of_nat (length (accepted s) + length (dropped s)) =
    sumZ (λ th, pushes th + handed_off th) (threads s);
  cnt_received :
    Z.of_nat (length (delivered s)) =
    sumZ (λ th, pops th + receiving th) (threads s)
}.

(** No call is in progress. *)
Definition quiescent (s : State) : Prop :=
  Forall (λ th, frame th = Idle) (threads s).

(** Waking a blocked call changes none of the tallies. *)
Definition neutral (w : Thread → Thread) : Prop :=
  ∀ th, pushes (w th) = pushes th ∧ pops (w th) = pops th ∧
        handed_off (w th) = handed_off th ∧
        half_counted (w th) = half_counted th ∧
        receiving (w th) = receiving th.

(** ** One client: the queue as its caller sees it *)

(** With a single client that makes its calls one after the other, the
    queue behaves like a sequential object whose state is the backlog and
    the two one-shot flags.  [seq_call] lists what a call may return in a
    state and the state it leaves; where a select has several cases that
    can proceed there are several outcomes. *)
Record Abs := mkAbs { bl : list E; closed : bool; shut : bool }.

Definition abs (s : State) : Abs :=
  mkAbs (pending (actor s)) (pushc_closed s) (shutdown_closed s).

Inductive seq_call (cerr : nat → option error) : Abs → Call → Ret → Abs → Prop :=
| seq_push A ctx e :
    closed A = false → shut A = false →
    seq_call cerr A (CPush ctx e) (RPush None) (mkAbs (bl A ++ [e]) false false)
| seq_push_cancelled A ctx e err :
    cerr (ctx_id ctx) = Some err →
    seq_call cerr A (CPush ctx e) (RPush (Some (push_ctx_error ctx err))) A
| seq_push_shutdown A ctx e :
    shut A = true →
    seq_call cerr A (CPush ctx e) (RPush (Some ErrQueueShutdown)) A
| seq_pop A ctx x rest :
    bl A = x :: rest → shut A = false →
    seq_call cerr A (CPop ctx) (RPop x true) (mkAbs rest (closed A) false)
| seq_pop_end A ctx :
    is_Some (cerr (ctx_id ctx)) ∨ shut A = true ∨ (closed A = true ∧ bl A = []) →
    seq_call cerr A (CPop ctx) (RPop zero false) A
| seq_close A :
    seq_call cerr A CClose RClose (mkAbs (bl A) true (shut A))
| seq_shutdown A :
    seq_call cerr A CShutdown RShutdown (mkAbs (bl A) (closed A) true)
| seq_waitEmpty_done A ctx :
    shut A = true ∨ bl A = [] →
    seq_call cerr A (CWaitEmpty ctx) (RWaitEmpty true) (mkAbs (bl A) true (shut A))
| seq_waitEmpty_cancelled A ctx :
    is_Some (cerr (ctx_id ctx)) →
    seq_call cerr A (CWaitEmpty ctx) (RWaitEmpty false) (mkAbs (bl A) true true)
| seq_size A sz tot :
    seq_call cerr A CSize (RSize sz tot) A.

(** The calls [cs], made in order from [A], return [rs] and leave [A']. *)
Inductive seq_run (cerr : nat → option error) : Abs → list Call → list Ret → Abs → Prop :=
| seq_run_nil A : seq_run cerr A [] [] A
| seq_run_snoc A cs rs A1 c r A2 :
    seq_run cerr A cs rs A1 → seq_call cerr A1 c r A2 →
    seq_run cerr A (cs ++ [c]) (rs ++ [r]) A2.

(** The call in progress, [c], seen from the state [A] in which it
    began: where it stands and what it has made of the queue, [B], so
    far. *)
Definition in_call (cerr : nat → option error) (A : Abs) (c : Call) (B : Abs)
    (f : Frame) : Prop :=
  match f with
  | Idle => False
  | PushParked ctx e => c = CPush ctx e ∧ B = A
  | PushPanics => False
  | PushSent | PushCounted =>
      ∃ ctx e, c = CPush ctx e ∧ closed A = false ∧ shut A = false ∧
               B = mkAbs (bl A ++ [e]) false false
  | PopParked ctx => c = CPop ctx ∧ B = A
  | PopReceived x =>
      ∃ ctx, c = CPop ctx ∧ shut A = false ∧ bl A = x :: bl B ∧
             closed B = closed A ∧ shut B = false
  | CloseOnceDefault ch k =>
      match k with
      | KClose => c = CClose ∧ ch = pushc ∧ closed B = false ∧ B = A
      | KShutdown => c = CShutdown ∧ ch = shutdownc ∧ shut B = false ∧ B = A
      | KWaitEmptySelect ctx =>
          c = CWaitEmpty ctx ∧ ch = pushc ∧ closed B = false ∧ B = A
      | KWaitEmptyDone =>
          ∃ ctx, c = CWaitEmpty ctx ∧ ch = shutdownc ∧
                 is_Some (cerr (ctx_id ctx)) ∧ shut A = false ∧
                 B = mkAbs (bl A) true false
      end
  | WaitEmptySelect ctx | WaitEmptyParked ctx =>
      c = CWaitEmpty ctx ∧ B = mkAbs (bl A) true (shut A)
  | WaitEmptyShutdown =>
      ∃ ctx, c = CWaitEmpty ctx ∧ is_Some (cerr (ctx_id ctx)) ∧
             B = mkAbs (bl A) true (shut A)
  | WaitEmptyDone | WaitEmptyDoneParked =>
      ∃ ctx, c = CWaitEmpty ctx ∧ is_Some (cerr (ctx_id ctx)) ∧
             B = mkAbs (bl A) true true
  | SizeLoaded _ => c = CSize ∧ B = A
  end.

(** The simulation: the client [th] of the program [p] has completed
    [length (log th)] calls, their results are results of the sequential
    queue, and the concrete state matches the abstract one. *)
Definition sim (p : list Call) (cerr : nat → option error) (s : State) : Prop :=
  ∃ th A,
    threads s = [th] ∧ ctx_err s = cerr ∧ Inv s ∧
    seq_run cerr (mkAbs [] false false) (take (length (log th)) p) (log th) A ∧
    match frame th with
    | Idle =>
        prog th = drop (length (log th)) p ∧ abs s = A ∧
        (panicked s = true →
         ∃ ctx e rest, prog th = CPush ctx e :: rest ∧ closed A = true)
    | f =>
        panicked s = false ∧
        ∃ c, p !! length (log th) = Some c ∧
             prog th = drop (S (length (log th))) p ∧
             in_call cerr A c (abs s) f
    end.

Definition is_cancel (a : Action) : bool :=
  match a with ActCancel _ _ => true | _ => false end.

(** A schedule without cancellations: the contexts stay as they are. *)
Definition quiet (sch : list Action) : Prop :=
  Forall (λ a, is_cancel a = false) sch.

(** ** Termination *)

(** How many instructions a call in frame [f] has at most left; a whole
    call costs less than [7]. *)
Definition frame_rank (f : Frame) : Z :=
  match f with
  | Idle => 0
  | PushParked _ _ => 3
  | PushPanics => 1
  | PushSent => 2
  | PushCounted => 1
  | PopParked _ => 2
  | PopReceived _ => 1
  | CloseOnceDefault _ (KWaitEmptySelect _) => 6
  | CloseOnceDefault _ KWaitEmptyDone => 3
  | CloseOnceDefault _ _ => 1
  | WaitEmptySelect _ => 5
  | WaitEmptyParked _ => 4
  | WaitEmptyShutdown => 4
  | WaitEmptyDone => 2
  | WaitEmptyDoneParked => 1
  | SizeLoaded _ => 1
  end.

Definition thread_rank (th : Thread) : Z :=
  7 * Z.of_nat (length (prog th)) + frame_rank (frame th).

Definition actor_rank (a : Actor) : Z :=
  match a_pc a with
  | ARunning => 4 + (if a_pushc a then 2 else 0)
  | AParked => 3 + (if a_pushc a then 2 else 0)
  | AClosePopc => 2
  | ACloseDone => 1
  | AExited => 0
  end.

(** Every step that is not a cancellation makes [measure] smaller: a
    hand-off wakes [goqueue] (one more turn of its loop) but uses up an
    instruction of the client, which counts double. *)
Definition measure (s : State) : Z :=
  2 * sumZ thread_rank (threads s) + actor_rank (actor s) +
  (if panicked s then 0 else 1).

(** ** Blocking *)

(** A client blocked in a select or a receive: only another goroutine can
    let it continue. *)
Definition blocked (f : Frame) : bool :=
  match f with
  | PushParked _ _ | PopParked _ | WaitEmptyParked _ | WaitEmptyDoneParked => true
  | _ => false
  end.

(** A client that has made all its calls. *)
Definition finished (th : Thread) : bool :=
  match frame th, prog th with
  | Idle, [] => true
  | _, _ => false
  end.

(** No goroutine can take a step unless a context is cancelled. *)
Definition stuck (s : State) : Prop :=
  ∀ a, is_cancel a = false → step a s = None.

(** Some goroutine can take a step without any context being cancelled. *)
Definition runnable (s : State) : bool :=
  negb (panicked s) &&
  (match a_pc (actor s) with AParked | AExited => false | _ => true end
   || existsb (λ th, negb (blocked (frame th)) && negb (finished th)) (threads s)).

(** ** The sequential queue as a function *)

(** What a call does to the sequential queue [A] when the contexts are as
    [cerr] says: it returns, it blocks until a context is cancelled, it
    panics, or ([Either]) its select has two cases that can proceed with
    different results (and [Size], whose result is not a function of
    [A]). *)
Inductive SeqOutcome :=
| Returns (r : Ret) (A : Abs)
| Blocks
| Panics
| Either.

Definition is_nil (l : list E) : bool :=
  match l with [] => true | _ => false end.

Definition seq_next (cerr : nat → option error) (A : Abs) (c : Call) : SeqOutcome :=
  match c with
  | CPush ctx e =>
      match cerr (ctx_id ctx) with
      | Some _ => Either
      | None =>
          if closed A then (if shut A then Either else Panics)
          else if shut A then Returns (RPush (Some ErrQueueShutdown)) A
          else Returns (RPush None) (mkAbs (bl A ++ [e]) false false)
      end
  | CPop ctx =>
      if shut A then Returns (RPop zero false) A
      else
        match bl A, cerr (ctx_id ctx) with
        | x :: rest, None => Returns (RPop x true) (mkAbs rest (closed A) false)
        | _ :: _, Some _ => Either
        | [], Some _ => Returns (RPop zero false) A
        | [], None => if closed A then Returns (RPop zero false) A else Blocks
        end
  | CClose => Returns RClose (mkAbs (bl A) true (shut A))
  | CShutdown => Returns RShutdown (mkAbs (bl A) (closed A) true)
  | CWaitEmpty ctx =>
      match cerr (ctx_id ctx), shut A || is_nil (bl A) with
      | None, true => Returns (RWaitEmpty true) (mkAbs (bl A) true (shut A))
      | None, false => Blocks
      | Some _, true => Either
      | Some _, false => Returns (RWaitEmpty false) (mkAbs (bl A) true true)
      end
  | CSize => Either
  end.

(** The calls [cs] made in order from [A], as far as they return: the
    results, the state reached and the calls not made, the first of which
    blocks or panics; [None] when a call on the way is not determined. *)
Fixpoint seq_exec (cerr : nat → option error) (A : Abs) (cs : list Call)
    : option (list Ret * Abs * list Call) :=
  match cs with
  | [] => Some ([], A, [])
  | c :: cs' =>
      match seq_next cerr A c with
      | Returns r A' =>
          match seq_exec cerr A' cs' with
          | Some (rs, B, rest) => Some (r :: rs, B, rest)
          | None => None
          end
      | Blocks | Panics => Some ([], A, cs)
      | Either => None
      end
  end.

(** ** What a returned value tells the caller *)

(** [Close] has closed [pushc], unless its [closeOnce] received an
    element from a blocked [Push]; [Shutdown] has closed [shutdown];
    [WaitEmpty] returns after [goqueue] has closed [done], and [false]
    only after [Shutdown]; [Pop] returns an element [goqueue] sent, or
    the zero value. *)
Definition ret_ok_at (pu sh dn : bool) (del drp : list E) (r : Ret) : Prop :=
  match r with
  | RClose => pu = true ∨ drp ≠ []
  | RShutdown => sh = true
  | RWaitEmpty b => dn = true ∧ (b = false → sh = true)
  | RPop x o => if o then x ∈ del else x = zero
  | _ => True
  end.

Definition thread_post_at (pu sh dn : bool) (del drp : list E) (th : Thread)
    : Prop :=
  Forall (ret_ok_at pu sh dn del drp) (log th) ∧
  match frame th with PopReceived x => x ∈ del | _ => True end.

Definition Post (s : State) : Prop :=
  Forall (thread_post_at (pushc_closed s) (shutdown_closed s) (done_closed s)
            (delivered s) (dropped s)) (threads s).

End Queue.

Arguments Call E : clear implicits.
Arguments Ret E : clear implicits.
Arguments Frame E : clear implicits.
Arguments Thread E : clear implicits.
Arguments Actor E : clear implicits.
Arguments State E : clear implicits.

(** ** Concrete runs *)

Definition c0 : Context := mkCtx 0 [].
Definition live : nat → option Ctxerr.error := λ _, None.

(** The schedule on which [Size] reports a negative size: the element of
    the first client's [Push] is handed on to the second client's [Pop],
    which subtracts it from [size] before the [Push] has added it. *)
Definition negative_size_schedule : list Action :=
  [ ActActor APark; ActThread 0 BrChan;    (* Push hands 7 to goqueue *)
    ActThread 1 BrNone; ActActor (ASendTo 1);  (* Pop receives 7 *)
    ActThread 1 BrNone;                    (* Pop: size.Add(-1) *)
    ActThread 2 BrNone; ActThread 2 BrNone ].  (* Size() *)

Definition all_cancelled : nat → option Ctxerr.error := λ _, Some Ctxerr.Canceled.

(** The run in which [Close] takes the element of a blocked [Push]: the
    [Push] of client 0 reaches its select before [goqueue] reaches its
    own and blocks; the select of [closeOnce] in client 1 finds the
    blocked sender and receives from it. *)
Definition lost_push_schedule : list Action :=
  [ ActThread 0 BrNone;        (* Push blocks: nobody receives yet *)
    ActThread 1 (BrFrom 0);    (* closeOnce: case <-c takes the element *)
    ActThread 0 BrNone;        (* Push: total.Add(1) *)
    ActThread 0 BrNone ].      (* Push: size.Add(1); return nil *)

Definition lost_push_progs : list (list (Call nat)) :=
  [[CPush c0 7%nat]; [CClose]; [CPop c0]].

(** What holds from then on: nothing was accepted, and the clients have
    nothing left to do but the one [Pop]. *)
Definition nothing_accepted (s : State nat) : Prop :=
  accepted s = [] ∧
  Forall (λ th, (prog th = [] ∨ prog th = [CPop c0]) ∧
                (frame th = Idle ∨ frame th = PopParked c0)) (threads s).

(** The run in which a [Push] follows a [Close] that has returned: client
    1 calls [Close] while the [Push] of client 0 is blocked, so
    [closeOnce] receives from it and returns without closing the channel;
    client 1 then calls [Push]. *)
Definition push_after_close_progs : list (list (Call nat)) :=
  [[CPush c0 7%nat]; [CClose; CPush c0 8%nat]].

Definition close_returned_schedule : list Action :=
  [ ActThread 0 BrNone;        (* Push(7) blocks: nobody receives yet *)
    ActThread 1 (BrFrom 0);    (* Close: case <-c of closeOnce; returns *)
    ActThread 0 BrNone;        (* Push(7): total.Add(1) *)
    ActThread 0 BrNone ].      (* Push(7): size.Add(1); return nil *)

Definition late_push_schedule : list Action :=
  [ ActActor APark;            (* goqueue blocks in its select *)
    ActThread 1 BrChan;        (* Push(8): case q.pushc <- e *)
    ActThread 1 BrNone;        (* Push(8): total.Add(1) *)
    ActThread 1 BrNone ].      (* Push(8): size.Add(1); return nil *)

(** Nothing is closed and the clients have only [Push] calls left. *)
Definition is_CPush (c : Call nat) : bool :=
  match c with CPush _ _ => true | _ => false end.

Definition in_Push (f : Frame nat) : bool :=
  match f with
  | Idle | PushParked _ _ | PushSent | PushCounted => true
  | _ => false
  end.

Definition pushes_only (s : State nat) : Prop :=
  panicked s = false ∧ pushc_closed s = false ∧ shutdown_closed s = false ∧
  Forall (λ th, forallb is_CPush (prog th) = true ∧ in_Push (frame th) = true)
         (threads s).

(** A second context, and the contexts when only that one is cancelled. *)
Definition c1 : Context := mkCtx 1 [].
Definition c1_cancelled : nat → option Ctxerr.error :=
  λ i, if (i =? 1)%nat then Some Ctxerr.Canceled else None.

(** One client, [goqueue] always first: a [Push] finds [goqueue] waiting
    and hands its element over, then adds to [total] and [size]. *)
Definition push_steps : list Action :=
  [ActActor APark; ActThread 0 BrChan; ActThread 0 BrNone; ActThread 0 BrNone].

(** A [Pop] finds [goqueue] offering [next], then subtracts from [size]. *)
Definition pop_steps : list Action :=
  [ActActor APark; ActThread 0 BrChan; ActThread 0 BrNone].

(** [closeOnce] takes its default and closes the channel. *)
Definition close_steps : list Action :=
  [ActThread 0 BrNone; ActThread 0 BrNone].

(** [goqueue] runs its two deferred closes. *)
Definition exit_steps : list Action := [ActActor APark; ActActor APark].

Section Properties.
Context {E : Type} (zero : E).

(** ** The invariants hold in every state the program reaches *)

Lemma Forall_insert_mono {A} (P Q : A → Prop) l t x :
  Forall P l → (∀ y, y ∈ l → P y → Q y) → Q x → Forall Q (<[t:=x]> l).
Proof.
  intros HP HPQ Hx. apply Forall_insert; [|done].
  rewrite Forall_forall in HP. apply Forall_forall. auto.
Qed.

Lemma Forall_fmap_mono {A} (P Q : A → Prop) (f : A → A) l :
  Forall P l → (∀ y, y ∈ l → P y → Q (f y)) → Forall Q (f <$> l).
Proof.
  intros HP HPQ. apply Forall_fmap. rewrite Forall_forall in HP.
  apply Forall_forall. intros; simpl; auto.
Qed.

Lemma existsb_false_elem {A} (f : A → bool) l :
  existsb f l = false → ∀ y, y ∈ l → f y = false.
Proof.
  intros H y Hy. destruct (f y) eqn:Hf; [|done].
  assert (existsb f l = true); [|congruence].
  apply existsb_exists. exists y. split; [by apply list_elem_of_In|done].
Qed.

Lemma after_select_cases (q : list E) nx pu po :
  (pu = false ∧ q = [] ∧ po = false ∧
   after_select q nx pu po = mkActor AClosePopc q nx pu po) ∨
  (∃ (x : E) (q' : list E), q = x :: q' ∧ po = false ∧
   after_select q nx pu po = mkActor ARunning q' x pu true) ∨
  ((po = true ∨ q = []) ∧ (pu = true ∨ po = true) ∧
   after_select q nx pu po = mkActor ARunning q nx pu po).
Proof.
  unfold after_select. destruct pu, po, q; simpl; naive_solver.
Qed.

(** What [after_select] establishes, whatever the event before it. *)
Lemma actor_ok_after_select (q : list E) (nx : E) (apu apo pu sh : bool) (acc del : list E) :
  (apu = false → pu = true) →
  acc = del ++ (if apo then [nx] else []) ++ q →
  actor_ok_at (after_select q nx apu apo) pu false sh false acc del.
Proof.
  intros Hpu Hh.
  destruct (after_select_cases q nx apu apo)
    as [(->&->&->&->)|[(x&q'&->&->&->)|(Hq&Hw&->)]];
    constructor; cbn; unfold pending; cbn; try done; auto.
  - intros _ ->. destruct Hq as [?|?]; done.
  - intros _ ->. destruct Hw as [?| ->]; done.
Qed.


Lemma after_select_pc (q : list E) nx pu po :
  a_pc (after_select q nx pu po) ≠ AParked.
Proof.
  destruct (after_select_cases q nx pu po)
    as [(_&_&_&->)|[(x&q'&_&_&->)|(_&_&->)]]; done.
Qed.

Lemma actor_ok_event (a : Actor E) pu pu' po sh dn (acc del acc' del' : list E)
    (q' : list E) (apu' apo' : bool) :
  actor_ok_at a pu po sh dn acc del →
  alive (a_pc a) = true →
  (apu' = false → pu' = true) →
  acc' = del' ++ (if apo' then [next a] else []) ++ q' →
  actor_ok_at (after_select q' (next a) apu' apo') pu' po sh dn acc' del'.
Proof.
  intros [] Hal Hpu Hh.
  assert (po = false) as -> by (destruct (a_pc a); done).
  assert (dn = false) as -> by (destruct (a_pc a); done).
  by apply actor_ok_after_select.
Qed.

Ltac thr_mono :=
  let y := fresh "y" in let Hy := fresh "Hy" in let Hin := fresh "Hin" in
  intros y Hin Hy; unfold thread_ok, thread_ok_at in *; cbn in *;
  destruct (frame y); try done; intuition (try congruence).

Lemma Inv_set_thread t th' (s : State E) :
  Inv s → thread_ok s th' → Inv (set_thread t th' s).
Proof.
  intros [Ha Ht] Hth. split; [exact Ha|].
  cbn. eapply Forall_insert_mono; [exact Ht| |exact Hth]. auto.
Qed.

Lemma Inv_panic (s : State E) : Inv s → Inv (panic s).
Proof. intros [Ha Ht]. split; [exact Ha|exact Ht]. Qed.

Lemma Inv_set_counters a b (s : State E) : Inv s → Inv (set_counters a b s).
Proof. intros [Ha Ht]. split; [exact Ha|exact Ht]. Qed.

Lemma thread_ok_ret (s : State E) th r : thread_ok s (ret th r).
Proof. done. Qed.

Lemma Inv_push_select t th ctx e b (s s' : State E) :
  Inv s → push_select t th ctx e b s = Some s' → Inv s'.
Proof.
  intros HI H. unfold push_select in H.
  destruct b; try done.
  - destruct (ctx_err s (ctx_id ctx)); simplify_eq. by apply Inv_set_thread.
  - destruct (shutdown_closed s); simplify_eq. by apply Inv_set_thread.
  - destruct (pushc_closed s) eqn:Hpu; simplify_eq; [by apply Inv_panic|].
    unfold actor_waits, parked in H.
    destruct (a_pc (actor s)) eqn:Hpc; try done; cbn in H.
    destruct (a_pushc (actor s)) eqn:Hapu; simplify_eq.
    destruct HI as [Ha Ht]. split.
    + unfold actor_ok, actor_recv in *; cbn.
      eapply actor_ok_event; [exact Ha|by rewrite Hpc|by rewrite Hapu|].
      rewrite (ok_hist _ _ _ _ _ _ _ Ha). unfold pending. by rewrite <-!app_assoc.
    + cbn. eapply Forall_insert_mono; [exact Ht| |done].
      pose proof (after_select_pc (queue (actor s) ++ [e]) (next (actor s))
        (a_pushc (actor s)) (a_popc (actor s))).
      unfold actor_recv. thr_mono.
  - repeat (apply orb_false_elim in H as [H ?] || 
            (destruct (_ || _) eqn:Hor in H; [done|])); simplify_eq.
    apply orb_false_elim in Hor as [Hor Hw].
    apply orb_false_elim in Hor as [Hor Hpu].
    apply orb_false_elim in Hor as [Hc Hsh].
    apply Inv_set_thread; [done|].
    unfold thread_ok, thread_ok_at; cbn.
    unfold cancelled in Hc. apply bool_decide_eq_false in Hc.
    rewrite <-eq_None_not_Some in Hc.
    split_and!; try done.
    intros Hpc. unfold actor_waits, parked in Hw. rewrite Hpc in Hw. done.
Qed.

Lemma Inv_pop_select t th ctx b (s s' : State E) :
  Inv s → pop_select zero t th ctx b s = Some s' → Inv s'.
Proof.
  intros HI H. unfold pop_select in H.
  destruct b; try done.
  - destruct (cancelled s ctx); simplify_eq. by apply Inv_set_thread.
  - destruct (shutdown_closed s); simplify_eq. by apply Inv_set_thread.
  - destruct (popc_closed s) eqn:Hpo; simplify_eq; [by apply Inv_set_thread|].
    unfold actor_waits, parked in H.
    destruct (a_pc (actor s)) eqn:Hpc; try done; cbn in H.
    destruct (a_popc (actor s)) eqn:Hapo; simplify_eq.
    destruct HI as [Ha Ht]. split.
    + unfold actor_ok, actor_sent in *; cbn.
      eapply actor_ok_event; [exact Ha|by rewrite Hpc|apply Ha|].
      rewrite (ok_hist _ _ _ _ _ _ _ Ha). unfold pending. rewrite Hapo.
      by rewrite <-!app_assoc.
    + cbn. eapply Forall_insert_mono; [exact Ht| |done].
      pose proof (after_select_pc (queue (actor s)) (next (actor s))
        (a_pushc (actor s)) false).
      unfold actor_sent. thr_mono.
  - destruct (_ || _) eqn:Hor in H; [done|]. simplify_eq.
    apply orb_false_elim in Hor as [Hor Hw].
    apply orb_false_elim in Hor as [Hor Hpu].
    apply orb_false_elim in Hor as [Hc Hsh].
    apply Inv_set_thread; [done|].
    unfold thread_ok, thread_ok_at; cbn.
    unfold cancelled in Hc. apply bool_decide_eq_false in Hc.
    rewrite <-eq_None_not_Some in Hc.
    split_and!; try done.
    intros Hpc. unfold actor_waits, parked in Hw. rewrite Hpc in Hw. done.
Qed.

Lemma thread_ok_continue (s : State E) k th :
  (k = KWaitEmptyDone → shutdown_closed s = true) → thread_ok s (continue k th).
Proof. destruct k; try done. intros H. by apply H. Qed.

Lemma Inv_closeOnce_select t th c k b (s s' : State E) :
  Inv s → kont_chan k = c →
  closeOnce_select t th c k b s = Some s' → Inv s'.
Proof.
  intros HI Hk H. unfold closeOnce_select in H.
  destruct b; try done.
  - destruct (chan_closed c s) eqn:Hc; simplify_eq.
    apply Inv_set_thread; [done|]. apply thread_ok_continue.
    intros ->. done.
  - destruct c; [|done]. destruct (threads s !! t0) as [th'|] eqn:Hl; [|done].
    destruct (frame th') eqn:Hf; simplify_eq.
    destruct HI as [Ha Ht]. split; [exact Ha|]. cbn.
    apply Forall_insert; [|apply thread_ok_continue; by intros ->].
    apply Forall_insert; done.
  - destruct (_ || _) eqn:Hor in H; [done|]. simplify_eq.
    apply Inv_set_thread; done.
Qed.

Lemma actor_ok_close_pushc (a : Actor E) pu po sh dn (acc del : list E) :
  actor_ok_at a pu po sh dn acc del →
  (a_pc a = AParked → a_pushc a = false) →
  actor_ok_at a true po sh dn acc del.
Proof.
  intros [] Hn. constructor; try done.
  intros Hpc. split; [by apply ok_parked0|]. intros Hpu.
  rewrite (Hn Hpc) in Hpu. done.
Qed.

Lemma actor_ok_close_shutdown (a : Actor E) pu po sh dn (acc del : list E) :
  actor_ok_at a pu po sh dn acc del →
  actor_ok_at (if parked a then actor_shutdown a else a) pu po true dn acc del.
Proof.
  intros []. unfold parked. destruct (a_pc a) eqn:Hpc.
  all: unfold actor_shutdown; constructor; cbn; rewrite ?Hpc; try done; auto.
Qed.

Lemma actor_waits_parked (s : State E) : actor_waits s = parked (actor s).
Proof. done. Qed.

Lemma parked_true (a : Actor E) : parked a = true ↔ a_pc a = AParked.
Proof. unfold parked. by destruct (a_pc a). Qed.

Lemma Inv_closeOnce_close t th c k (s : State E) :
  Inv s → kont_chan k = c → Inv (closeOnce_close zero t th c k s).
Proof.
  intros [Ha Ht] Hk. unfold closeOnce_close in *.
  destruct (chan_closed c s) eqn:Hc; [by apply Inv_panic|].
  destruct c; cbn in Hc.
  - rewrite actor_waits_parked.
    destruct (parked (actor s) && a_pushc (actor s)) eqn:Hw.
    + apply andb_prop in Hw as [Hpc%parked_true Hapu].
      split.
      * unfold actor_ok, actor_recv_closed in *; cbn.
        eapply actor_ok_event; [exact Ha|by rewrite Hpc|done|].
        by rewrite (ok_hist _ _ _ _ _ _ _ Ha).
      * cbn. apply Forall_insert; [|apply thread_ok_continue; by intros ->].
        eapply Forall_fmap_mono; [exact Ht|].
        intros y Hin Hy.
        pose proof (after_select_pc (queue (actor s)) (next (actor s))
                false (a_popc (actor s))).
        unfold wake_pushc, actor_recv_closed, thread_ok, thread_ok_at in *;
          cbn in *.
        destruct (frame y) eqn:Hf; cbn; rewrite ?Hf; try done;
          intuition (try congruence).
    + split.
      * unfold actor_ok in *; cbn. eapply actor_ok_close_pushc; [exact Ha|].
        intros Hpc%parked_true. rewrite Hpc in Hw.
        by destruct (a_pushc (actor s)).
      * cbn. apply Forall_insert; [|apply thread_ok_continue; by intros ->].
        eapply Forall_fmap_mono; [exact Ht|].
        intros y Hin Hy.
        unfold wake_pushc, thread_ok, thread_ok_at in *; cbn in *.
        destruct (frame y) eqn:Hf; cbn; rewrite ?Hf; try done;
          intuition (try congruence).
  - rewrite actor_waits_parked.
    pose proof (actor_ok_close_shutdown _ _ _ _ _ _ _ Ha) as Ha'.
    destruct (parked (actor s)) eqn:Hpc.
    all: split; [exact Ha'|].
    all: cbn; apply Forall_insert; [|by apply thread_ok_continue].
    all: eapply Forall_fmap_mono; [exact Ht|].
    all: intros y Hin Hy;
              unfold wake_shutdown, thread_ok, thread_ok_at in *; cbn in *;
              destruct (frame y) eqn:Hf; cbn; rewrite ?Hf; try done;
              intuition (try congruence).
Qed.

Lemma Inv_waitEmpty_select t th ctx b (s s' : State E) :
  Inv s → waitEmpty_select t th ctx b s = Some s' → Inv s'.
Proof.
  intros HI H. unfold waitEmpty_select in H.
  destruct b; try done.
  - destruct (cancelled s ctx); simplify_eq. by apply Inv_set_thread.
  - destruct (done_closed s); simplify_eq. by apply Inv_set_thread.
  - destruct (_ || _) eqn:Hor in H; [done|]. simplify_eq.
    apply orb_false_elim in Hor as [Hdn Hc].
    apply Inv_set_thread; [done|].
    unfold cancelled in Hc. apply bool_decide_eq_false in Hc.
    rewrite <-eq_None_not_Some in Hc. done.
Qed.

Lemma Inv_thread_step t th b (s s' : State E) :
  Inv s → threads s !! t = Some th →
  thread_step zero t th b s = Some s' → Inv s'.
Proof.
  intros HI Hl H.
  assert (thread_ok s th) as Hth.
  { destruct HI as [_ Ht]. rewrite Forall_lookup in Ht. by eapply Ht. }
  unfold thread_step in H. destruct (frame th) eqn:Hf; simplify_eq.
  - destruct (prog th) as [|c rest]; [done|].
    destruct c; cbn in H.
    + by eapply Inv_push_select.
    + by eapply Inv_pop_select.
    + (eapply Inv_closeOnce_select; [exact HI| |exact H]; done).
    + (eapply Inv_closeOnce_select; [exact HI| |exact H]; done).
    + (eapply Inv_closeOnce_select; [exact HI| |exact H]; done).
    + simplify_eq. by apply Inv_set_thread.
  - by apply Inv_panic.
  - apply Inv_set_counters. by apply Inv_set_thread.
  - apply Inv_set_counters. by apply Inv_set_thread.
  - apply Inv_set_counters. by apply Inv_set_thread.
  - apply Inv_closeOnce_close; [done|].
    unfold thread_ok, thread_ok_at in Hth. by rewrite Hf in Hth.
  - by eapply Inv_waitEmpty_select.
  - (eapply Inv_closeOnce_select; [exact HI| |exact H]; done).
  - unfold thread_ok, thread_ok_at in Hth. rewrite Hf in Hth.
    destruct (done_closed s) eqn:Hdn; simplify_eq; by apply Inv_set_thread.
  - by apply Inv_set_thread.
Qed.

Lemma Inv_actor_step b (s s' : State E) :
  Inv s → actor_step zero b s = Some s' → Inv s'.
Proof.
  intros [Ha Ht] H. unfold actor_step in H.
  destruct (a_pc (actor s)) eqn:Hpc; try done.
  - destruct b.
    + destruct (threads s !! t) as [th|] eqn:Hl; [|done].
      destruct (frame th) eqn:Hf; try done.
      destruct (a_pushc (actor s)) eqn:Hapu; simplify_eq. split.
      * unfold actor_ok, actor_recv in *; cbn.
        eapply actor_ok_event; [exact Ha|by rewrite Hpc|by rewrite Hapu|].
        rewrite (ok_hist _ _ _ _ _ _ _ Ha). unfold pending.
        by rewrite <-!app_assoc.
      * cbn. eapply Forall_insert_mono; [exact Ht| |done].
        pose proof (after_select_pc (queue (actor s) ++ [e]) (next (actor s))
          (a_pushc (actor s)) (a_popc (actor s))).
        unfold actor_recv. thr_mono.
    + destruct (a_pushc (actor s) && pushc_closed s) eqn:Hc; simplify_eq.
      apply andb_prop in Hc as [Hapu Hpu]. split.
      * unfold actor_ok, actor_recv_closed in *; cbn.
        eapply actor_ok_event; [exact Ha|by rewrite Hpc|done|].
        by rewrite (ok_hist _ _ _ _ _ _ _ Ha).
      * cbn. eapply Forall_impl; [exact Ht|].
        pose proof (after_select_pc (queue (actor s)) (next (actor s))
          false (a_popc (actor s))).
        unfold actor_recv_closed. intros y. generalize I. revert y. thr_mono.
    + destruct (threads s !! t) as [th|] eqn:Hl; [|done].
      destruct (frame th) eqn:Hf; try done.
      destruct (a_popc (actor s)) eqn:Hapo; simplify_eq. split.
      * unfold actor_ok, actor_sent in *; cbn.
        eapply actor_ok_event; [exact Ha|by rewrite Hpc|apply Ha|].
        rewrite (ok_hist _ _ _ _ _ _ _ Ha). unfold pending. rewrite Hapo.
        by rewrite <-!app_assoc.
      * cbn. eapply Forall_insert_mono; [exact Ht| |done].
        pose proof (after_select_pc (queue (actor s)) (next (actor s))
          (a_pushc (actor s)) false).
        unfold actor_sent. thr_mono.
    + destruct (shutdown_closed s) eqn:Hsh; simplify_eq. split.
      * unfold actor_ok, actor_shutdown in *; cbn. destruct Ha.
        rewrite Hpc in *. constructor; cbn; try done; auto.
      * cbn. eapply Forall_impl; [exact Ht|].
        unfold actor_shutdown. intros y. generalize I. revert y. thr_mono.
    + destruct (_ || _) eqn:Hor in H; [done|]. simplify_eq.
      apply orb_false_elim in Hor as [Hor Hsh].
      apply orb_false_elim in Hor as [Hpu Hpo].
      split.
      * unfold actor_ok, set_pc in *; cbn. destruct Ha.
        rewrite Hpc in *. constructor; cbn; try done.
        intros _. split; [done|]. intros Hapu. rewrite Hapu in Hpu.
        cbn in Hpu. by apply orb_false_elim in Hpu as [? _].
      * cbn. rewrite Forall_forall in Ht. apply Forall_forall. intros y Hin.
        specialize (Ht y Hin).
        assert (a_pushc (actor s) = true → is_PushParked y = false) as H1.
        { intros Hapu. rewrite Hapu in Hpu. cbn in Hpu.
          apply orb_false_elim in Hpu as [_ Hpu].
          by eapply existsb_false_elem. }
        assert (a_popc (actor s) = true → is_PopParked y = false) as H2.
        { intros Hapo. rewrite Hapo in Hpo. cbn in Hpo.
          by eapply existsb_false_elem. }
        unfold thread_ok, thread_ok_at, is_PushParked, is_PopParked, set_pc in *.
        cbn. destruct (frame y); try done.
        -- destruct (a_pushc (actor s)); [by specialize (H1 eq_refl)|].
           intuition.
        -- destruct (a_popc (actor s)); [by specialize (H2 eq_refl)|].
           intuition.
  - simplify_eq. split.
    + unfold actor_ok, set_pc in *; cbn. destruct Ha. rewrite Hpc in *.
      constructor; cbn; try done.
    + cbn. eapply Forall_fmap_mono; [exact Ht|].
      intros y Hin Hy;
        unfold wake_popc, thread_ok, thread_ok_at in *; cbn in *;
        destruct (frame y) eqn:Hf; cbn; rewrite ?Hf; try done;
        intuition (try congruence).
  - simplify_eq. split.
    + unfold actor_ok, set_pc in *; cbn. destruct Ha. rewrite Hpc in *.
      constructor; cbn; try done.
    + cbn. eapply Forall_fmap_mono; [exact Ht|].
      destruct Ha. rewrite Hpc in *.
      intros y Hin Hy;
        unfold wake_done, thread_ok, thread_ok_at in *; cbn in *;
        destruct (frame y) eqn:Hf; cbn; rewrite ?Hf; try done;
        intuition (try congruence).
Qed.

Lemma Inv_cancel_step id err (s s' : State E) :
  Inv s → cancel_step zero id err s = Some s' → Inv s'.
Proof.
  intros [Ha Ht] H. unfold cancel_step in H.
  destruct (ctx_err s id) eqn:Hid; simplify_eq.
  split; [exact Ha|]. cbn.
  eapply Forall_fmap_mono; [exact Ht|].
  intros y Hin Hy;
    unfold wake_cancel, thread_ok, thread_ok_at in *; cbn in *;
    destruct (frame y) eqn:Hf; cbn; rewrite ?Hf; try done;
    repeat case_bool_decide; cbn; rewrite ?Hf; intuition (try congruence).
  all: by rewrite bool_decide_eq_false_2.
Qed.

Lemma Inv_step a (s s' : State E) :
  Inv s → step zero a s = Some s' → Inv s'.
Proof.
  intros HI H. unfold step in H.
  destruct (panicked s); [done|]. destruct a.
  - destruct (threads s !! t) eqn:Hl; [|done]. by eapply Inv_thread_step.
  - by eapply Inv_actor_step.
  - by eapply Inv_cancel_step.
Qed.

Lemma Inv_New progs cerr : Inv (New zero progs cerr).
Proof.
  split.
  - constructor; try done.
  - cbn. apply Forall_fmap. by apply Forall_true.
Qed.
(** ** Accounting: the counters follow the calls *)

Lemma wrap64_add_l a b : wrap64 (wrap64 a + b) = wrap64 (a + b).
Proof.
  unfold wrap64. f_equal.
  replace ((a + 2 ^ 63) mod 2 ^ 64 - 2 ^ 63 + b + 2 ^ 63)
    with ((a + 2 ^ 63) mod 2 ^ 64 + b) by lia.
  rewrite Zplus_mod_idemp_l. f_equal. lia.
Qed.

Lemma wrap64_sub_l a b : wrap64 (wrap64 a - b) = wrap64 (a - b).
Proof. unfold Z.sub. apply wrap64_add_l. Qed.

Lemma wrap64_small z : - 2 ^ 63 ≤ z < 2 ^ 63 → wrap64 z = z.
Proof. intros H. unfold wrap64. rewrite Z.mod_small; lia. Qed.

Lemma count_ok_snoc (f : Ret E → bool) l r :
  count_ok f (l ++ [r]) = count_ok f l + (if f r then 1 else 0).
Proof.
  unfold count_ok. rewrite List.filter_app, length_app. cbn.
  destruct (f r); cbn; lia.
Qed.

Lemma count_ok_nonneg (f : Ret E → bool) l : 0 ≤ count_ok f l.
Proof. unfold count_ok. lia. Qed.

Lemma sumZ_cons (f : Thread E → Z) x l : sumZ f (x :: l) = f x + sumZ f l.
Proof. done. Qed.

Lemma sumZ_insert (f : Thread E → Z) l t th th' :
  l !! t = Some th → sumZ f (<[t:=th']> l) = sumZ f l - f th + f th'.
Proof.
  revert t. induction l as [|x l IH]; intros [|t] Hl; try done.
  - injection Hl as ->. change (<[0%nat:=th']> (th :: l)) with (th' :: l).
    rewrite !sumZ_cons. lia.
  - change (<[S t:=th']> (x :: l)) with (x :: <[t:=th']> l).
    rewrite !sumZ_cons, (IH t Hl). lia.
Qed.

Lemma sumZ_fmap (f : Thread E → Z) g l :
  (∀ th, f (g th) = f th) → sumZ f (g <$> l) = sumZ f l.
Proof.
  intros H. induction l as [|x l IH]; cbn; [done|]. rewrite H. f_equal. exact IH.
Qed.

Lemma sumZ_ext (f g : Thread E → Z) l :
  Forall (λ th, f th = g th) l → sumZ f l = sumZ g l.
Proof.
  induction 1 as [|x l H _ IH]; cbn; [done|]. rewrite H. f_equal. exact IH.
Qed.


Ltac st_cbn :=
  cbn [threads actor total size accepted dropped delivered pushc_closed
       popc_closed shutdown_closed done_closed ctx_err panicked
       set_thread set_threads set_counters set_history set_actor set_closed
       set_ctx_err panic].

Ltac st_cbn_in H :=
  cbn [threads actor total size accepted dropped delivered pushc_closed
       popc_closed shutdown_closed done_closed ctx_err panicked
       set_thread set_threads set_counters set_history set_actor set_closed
       set_ctx_err panic] in H.

Ltac contrib Hf :=
  unfold pushes, pops, handed_off, half_counted, receiving, ret, set_frame;
  cbn [frame log prog]; rewrite ?Hf, ?count_ok_snoc; cbn [is_push_ok is_pop_ok].

(** A goal [Cnt s'] where [s'] updates thread [t] of [s]. *)
Ltac cnt_thread Hc Hl Hf :=
  destruct Hc as [Hc1 Hc2 Hc3 Hc4]; constructor;
  cbn [threads total size accepted dropped delivered set_thread set_threads
       set_counters set_history set_actor set_closed set_ctx_err panic];
  rewrite ?(sumZ_insert _ _ _ _ _ Hl), ?length_app;
  cbn [length];
  [ rewrite Hc1, ?wrap64_add_l; f_equal; contrib Hf; lia
  | rewrite Hc2, ?wrap64_add_l, ?wrap64_sub_l; f_equal; contrib Hf; lia
  | first [rewrite <-Hc3 | rewrite Nat2Z.inj_add, Nat2Z.inj_add in Hc3 |- * ];
    contrib Hf; lia
  | first [rewrite <-Hc4 | idtac]; contrib Hf; lia ].

Lemma Cnt_push_select t th ctx e b (s s' : State E) rest :
  Cnt s → threads s !! t = Some th → frame th = Idle →
  push_select t (mkThread rest Idle (log th)) ctx e b s = Some s' → Cnt s'.
Proof.
  intros Hc Hl Hf H. unfold push_select in H.
  destruct b; try done.
  - destruct (ctx_err s (ctx_id ctx)); simplify_eq. cnt_thread Hc Hl Hf.
  - destruct (shutdown_closed s); simplify_eq. cnt_thread Hc Hl Hf.
  - destruct (pushc_closed s) eqn:Hpu; simplify_eq; [by destruct Hc|].
    destruct (actor_waits s && a_pushc (actor s)); simplify_eq.
    cnt_thread Hc Hl Hf.
  - destruct (_ || _) eqn:Hor in H; [done|]. simplify_eq. cnt_thread Hc Hl Hf.
Qed.

Lemma Cnt_pop_select t th ctx b (s s' : State E) rest :
  Cnt s → threads s !! t = Some th → frame th = Idle →
  pop_select zero t (mkThread rest Idle (log th)) ctx b s = Some s' → Cnt s'.
Proof.
  intros Hc Hl Hf H. unfold pop_select in H.
  destruct b; try done.
  - destruct (cancelled s ctx); simplify_eq. cnt_thread Hc Hl Hf.
  - destruct (shutdown_closed s); simplify_eq. cnt_thread Hc Hl Hf.
  - destruct (popc_closed s) eqn:Hpu; simplify_eq; [cnt_thread Hc Hl Hf|].
    destruct (actor_waits s && a_popc (actor s)); simplify_eq.
    cnt_thread Hc Hl Hf.
  - destruct (_ || _) eqn:Hor in H; [done|]. simplify_eq. cnt_thread Hc Hl Hf.
Qed.

Lemma Cnt_closeOnce_select t th th0 c k b (s s' : State E) :
  Cnt s → threads s !! t = Some th → log th0 = log th →
  (frame th = Idle ∨ frame th = WaitEmptyShutdown) →
  closeOnce_select t th0 c k b s = Some s' → Cnt s'.
Proof.
  intros Hc Hl Hlog Hf H. unfold closeOnce_select in H.
  assert (pushes (continue k th0) + half_counted (continue k th0)
            = pushes th + half_counted th ∧
          pushes (continue k th0) - pops (continue k th0) = pushes th - pops th ∧
          pushes (continue k th0) + handed_off (continue k th0)
            = pushes th + handed_off th ∧
          pops (continue k th0) + receiving (continue k th0)
            = pops th + receiving th) as (N1&N2&N3&N4).
  { destruct k; cbn; destruct Hf as [Hf|Hf]; contrib Hf; rewrite Hlog; lia. }
  destruct b; try done.
  - destruct (chan_closed c s) eqn:Hcl; simplify_eq.
    destruct Hc as [Hc1 Hc2 Hc3 Hc4]; constructor; st_cbn;
      rewrite (sumZ_insert _ _ _ _ _ Hl); cbv beta;
      first [rewrite Hc1 | rewrite Hc2 | rewrite <-Hc3 | rewrite <-Hc4];
      first [f_equal; lia | lia].
  - destruct c; [|done]. destruct (threads s !! t0) as [th'|] eqn:Hl'; [|done].
    destruct (frame th') eqn:Hf'; simplify_eq.
    assert (t ≠ t0) as Hne.
    { intros ->. rewrite Hl in Hl'. simplify_eq. destruct Hf; congruence. }
    assert (<[t0:=set_frame th' PushSent]> (threads s) !! t = Some th) as Hl2.
    { by rewrite list_lookup_insert_ne. }
    destruct Hc as [Hc1 Hc2 Hc3 Hc4]; constructor; st_cbn;
      rewrite (sumZ_insert _ _ _ _ _ Hl2), (sumZ_insert _ _ _ _ _ Hl'),
        ?length_app; cbv beta; cbn [length]; rewrite ?N1, ?N2, ?N3, ?N4.
    + rewrite Hc1. f_equal. contrib Hf'. lia.
    + rewrite Hc2. f_equal. contrib Hf'. lia.
    + rewrite <-Hc3. contrib Hf'. lia.
    + rewrite <-Hc4. contrib Hf'. lia.
  - destruct (_ || _) eqn:Hor in H; [done|]. simplify_eq.
    destruct Hc as [Hc1 Hc2 Hc3 Hc4]; constructor; st_cbn;
      rewrite (sumZ_insert _ _ _ _ _ Hl); cbv beta;
      first [rewrite Hc1 | rewrite Hc2 | rewrite <-Hc3 | rewrite <-Hc4];
      first [f_equal|idtac]; destruct Hf as [Hf|Hf]; contrib Hf; rewrite Hlog; lia.
Qed.


Ltac neutral_tac w :=
  intros th; unfold w; destruct (frame th) eqn:Hf;
  repeat case_bool_decide; contrib Hf; repeat split; lia.

Lemma neutral_shutdown : neutral (wake_shutdown zero).
Proof. neutral_tac @wake_shutdown. Qed.
Lemma neutral_pushc : neutral (@wake_pushc E).
Proof. neutral_tac @wake_pushc. Qed.
Lemma neutral_popc : neutral (wake_popc zero).
Proof. neutral_tac @wake_popc. Qed.
Lemma neutral_done : neutral (@wake_done E).
Proof. neutral_tac @wake_done. Qed.
Lemma neutral_cancel id err : neutral (wake_cancel zero id err).
Proof. neutral_tac @wake_cancel. Qed.

Lemma Cnt_wake w (s s' : State E) :
  neutral w → Cnt s →
  threads s' = w <$> threads s → total s' = total s → size s' = size s →
  accepted s' = accepted s → dropped s' = dropped s →
  delivered s' = delivered s → Cnt s'.
Proof.
  intros Hw [Hc1 Hc2 Hc3 Hc4] Hth Ht Hs Ha Hd Hdl.
  constructor; rewrite ?Hth, ?Ht, ?Hs, ?Ha, ?Hd, ?Hdl, sumZ_fmap; try done.
  all: intros th; destruct (Hw th) as (H1&H2&H3&H4&H5);
    rewrite ?H1, ?H2, ?H3, ?H4, ?H5; done.
Qed.

Lemma Cnt_same (s s' : State E) :
  Cnt s →
  threads s' = threads s → total s' = total s → size s' = size s →
  accepted s' = accepted s → dropped s' = dropped s →
  delivered s' = delivered s → Cnt s'.
Proof.
  intros [Hc1 Hc2 Hc3 Hc4] Hth Ht Hs Ha Hd Hdl.
  constructor; rewrite ?Hth, ?Ht, ?Hs, ?Ha, ?Hd, ?Hdl; done.
Qed.

Lemma Cnt_closeOnce_close t th c k (s : State E) :
  Cnt s → threads s !! t = Some th → frame th = CloseOnceDefault c k →
  Cnt (closeOnce_close zero t th c k s).
Proof.
  intros Hc Hl Hf. unfold closeOnce_close.
  assert (pushes (continue k th) + half_counted (continue k th)
            = pushes th + half_counted th ∧
          pushes (continue k th) - pops (continue k th) = pushes th - pops th ∧
          pushes (continue k th) + handed_off (continue k th)
            = pushes th + handed_off th ∧
          pops (continue k th) + receiving (continue k th)
            = pops th + receiving th) as (N1&N2&N3&N4).
  { destruct k; cbn; contrib Hf; lia. }
  destruct (chan_closed c s) eqn:Hcl; [by eapply Cnt_same|].
  destruct c.
  - assert (Cnt (set_threads (wake_pushc <$> threads s)
       (if actor_waits s && a_pushc (actor s)
        then set_actor (actor_recv_closed (actor s))
              (set_closed true (popc_closed s) (shutdown_closed s) (done_closed s) s)
        else set_closed true (popc_closed s) (shutdown_closed s) (done_closed s) s)))
      as Hc'.
    { eapply (Cnt_wake _ s); [apply neutral_pushc|done|idtac..];
        by destruct (_ && _). }
    assert ((@wake_pushc E <$> threads s) !! t = Some th) as Hl'.
    { rewrite list_lookup_fmap, Hl. cbn. unfold wake_pushc. by rewrite Hf. }
    destruct Hc' as [Hc1 Hc2 Hc3 Hc4]. st_cbn_in Hc1; st_cbn_in Hc2; st_cbn_in Hc3;
      st_cbn_in Hc4; constructor; st_cbn;
      rewrite (sumZ_insert _ _ _ _ _ Hl'); cbv beta;
      first [rewrite Hc1 | rewrite Hc2 | rewrite <-Hc3 | rewrite <-Hc4];
      first [f_equal; lia | lia].
  - assert (Cnt (set_threads (wake_shutdown zero <$> threads s)
         (if actor_waits s
          then set_actor (actor_shutdown (actor s))
            (set_closed (pushc_closed s) (popc_closed s) true (done_closed s) s)
          else set_closed (pushc_closed s) (popc_closed s) true (done_closed s) s)))
      as Hc'.
    { eapply (Cnt_wake _ s); [apply neutral_shutdown|done|idtac..];
        by destruct (actor_waits s). }
    assert ((wake_shutdown zero <$> threads s) !! t = Some th) as Hl'.
    { rewrite list_lookup_fmap, Hl. cbn. unfold wake_shutdown. by rewrite Hf. }
    destruct Hc' as [Hc1 Hc2 Hc3 Hc4]. st_cbn_in Hc1; st_cbn_in Hc2; st_cbn_in Hc3;
      st_cbn_in Hc4; constructor; st_cbn;
      rewrite (sumZ_insert _ _ _ _ _ Hl'); cbv beta;
      first [rewrite Hc1 | rewrite Hc2 | rewrite <-Hc3 | rewrite <-Hc4];
      first [f_equal; lia | lia].
Qed.

Lemma Cnt_waitEmpty_select t th ctx b (s s' : State E) :
  Cnt s → threads s !! t = Some th → frame th = WaitEmptySelect ctx →
  waitEmpty_select t th ctx b s = Some s' → Cnt s'.
Proof.
  intros Hc Hl Hf H. unfold waitEmpty_select in H.
  destruct b; try done.
  - destruct (cancelled s ctx); simplify_eq. cnt_thread Hc Hl Hf.
  - destruct (done_closed s); simplify_eq. cnt_thread Hc Hl Hf.
  - destruct (_ || _) eqn:Hor in H; [done|]. simplify_eq. cnt_thread Hc Hl Hf.
Qed.

Lemma Cnt_thread_step t th b (s s' : State E) :
  Cnt s → threads s !! t = Some th →
  thread_step zero t th b s = Some s' → Cnt s'.
Proof.
  intros Hc Hl H.
  unfold thread_step in H. destruct (frame th) eqn:Hf; simplify_eq.
  - destruct (prog th) as [|c rest]; [done|].
    destruct c; cbn in H.
    + by eapply Cnt_push_select.
    + by eapply Cnt_pop_select.
    + eapply Cnt_closeOnce_select; [exact Hc|exact Hl| |by left|exact H]. done.
    + eapply Cnt_closeOnce_select; [exact Hc|exact Hl| |by left|exact H]. done.
    + eapply Cnt_closeOnce_select; [exact Hc|exact Hl| |by left|exact H]. done.
    + simplify_eq. cnt_thread Hc Hl Hf.
  - by eapply Cnt_same.
  - cnt_thread Hc Hl Hf.
  - cnt_thread Hc Hl Hf.
  - cnt_thread Hc Hl Hf.
  - by apply Cnt_closeOnce_close.
  - by eapply Cnt_waitEmpty_select.
  - eapply Cnt_closeOnce_select; [exact Hc|exact Hl| |by right|exact H]. done.
  - destruct (done_closed s) eqn:Hdn; simplify_eq; cnt_thread Hc Hl Hf.
  - cnt_thread Hc Hl Hf.
Qed.

Lemma Cnt_actor_step b (s s' : State E) :
  Cnt s → actor_step zero b s = Some s' → Cnt s'.
Proof.
  intros Hc H. unfold actor_step in H.
  destruct (a_pc (actor s)) eqn:Hpc; try done.
  - destruct b.
    + destruct (threads s !! t) as [th|] eqn:Hl; [|done].
      destruct (frame th) eqn:Hf; try done.
      destruct (a_pushc (actor s)) eqn:Hapu; simplify_eq.
      cnt_thread Hc Hl Hf.
    + destruct (a_pushc (actor s) && pushc_closed s) eqn:Hcl; simplify_eq.
      by eapply Cnt_same.
    + destruct (threads s !! t) as [th|] eqn:Hl; [|done].
      destruct (frame th) eqn:Hf; try done.
      destruct (a_popc (actor s)) eqn:Hapo; simplify_eq.
      cnt_thread Hc Hl Hf.
    + destruct (shutdown_closed s) eqn:Hsh; simplify_eq. by eapply Cnt_same.
    + destruct (_ || _) eqn:Hor in H; [done|]. simplify_eq. by eapply Cnt_same.
  - simplify_eq. eapply (Cnt_wake _ s); [apply neutral_popc|done|idtac..]; done.
  - simplify_eq. eapply (Cnt_wake _ s); [apply neutral_done|done|idtac..]; done.
Qed.

Lemma Cnt_step a (s s' : State E) :
  Cnt s → step zero a s = Some s' → Cnt s'.
Proof.
  intros Hc H. unfold step in H.
  destruct (panicked s); [done|]. destruct a.
  - destruct (threads s !! t) eqn:Hl; [|done]. by eapply Cnt_thread_step.
  - by eapply Cnt_actor_step.
  - unfold cancel_step in H. destruct (ctx_err s id); simplify_eq.
    eapply (Cnt_wake _ s); [apply neutral_cancel|done|idtac..]; done.
Qed.

Lemma sumZ_New (f : Thread E → Z) (progs : list (list (Call E))) :
  (∀ p, f (mkThread p Idle []) = 0) →
  sumZ f ((λ p, mkThread p Idle []) <$> progs) = 0.
Proof.
  intros Hf. induction progs as [|p progs IH]; [done|].
  rewrite fmap_cons, sumZ_cons, Hf, IH. done.
Qed.

Lemma Cnt_New progs cerr : Cnt (New zero progs cerr).
Proof. constructor; cbn [New threads total size accepted dropped delivered];
  rewrite sumZ_New; done. Qed.

End Properties.
Section Accounting.
Context {E : Type} (zero : E).

Lemma Inv_run sch (s s' : State E) :
  Inv s → run zero sch s = Some s' → Inv s'.
Proof.
  revert s. induction sch as [|a sch IH]; intros s HI H; cbn in H.
  - by simplify_eq.
  - destruct (step zero a s) as [s1|] eqn:Hs; [|done].
    eapply IH; [|exact H]. by eapply Inv_step.
Qed.

Lemma Cnt_run sch (s s' : State E) :
  Cnt s → run zero sch s = Some s' → Cnt s'.
Proof.
  revert s. induction sch as [|a sch IH]; intros s HI H; cbn in H.
  - by simplify_eq.
  - destruct (step zero a s) as [s1|] eqn:Hs; [|done].
    eapply IH; [|exact H]. by eapply Cnt_step.
Qed.

Lemma run_app sch1 sch2 (s : State E) :
  run zero (sch1 ++ sch2) s =
  match run zero sch1 s with Some s1 => run zero sch2 s1 | None => None end.
Proof.
  revert s. induction sch1 as [|a sch1 IH]; intros s; cbn; [done|].
  destruct (step zero a s); [apply IH|done].
Qed.

Ltac step_unfold H :=
  unfold step, thread_step, call_step, push_select, pop_select, closeOnce_select,
    waitEmpty_select, actor_step, cancel_step, closeOnce_close in H.

(** [total] changes only by [total.Add(1)]. *)
Lemma step_total a (s s' : State E) :
  step zero a s = Some s' →
  total s' = total s ∨ total s' = wrap64 (total s + 1).
Proof.
  intros H. step_unfold H.
  repeat case_match; simplify_eq; cbn; auto.
Qed.

Lemma sumZ_nonneg (f : Thread E → Z) l : (∀ th, 0 ≤ f th) → 0 ≤ sumZ f l.
Proof.
  intros Hf. induction l as [|x l IH]; [done|].
  rewrite sumZ_cons. specialize (Hf x). lia.
Qed.

Lemma sumZ_add (f g : Thread E → Z) l :
  sumZ (λ th, f th + g th) l = sumZ f l + sumZ g l.
Proof.
  induction l as [|x l IH]; [done|]. rewrite !sumZ_cons, IH. lia.
Qed.

Lemma sumZ_sub (f g : Thread E → Z) l :
  sumZ (λ th, f th - g th) l = sumZ f l - sumZ g l.
Proof.
  induction l as [|x l IH]; [done|]. rewrite !sumZ_cons, IH. lia.
Qed.

Lemma sumZ_zero (f : Thread E → Z) l :
  Forall (λ th, f th = 0) l → sumZ f l = 0.
Proof.
  induction 1 as [|x l Hx _ IH]; [done|]. rewrite sumZ_cons, Hx, IH. done.
Qed.

Lemma handed_off_nonneg (th : Thread E) : 0 ≤ handed_off th.
Proof. unfold handed_off. destruct (frame th); lia. Qed.
Lemma receiving_nonneg (th : Thread E) : 0 ≤ receiving th.
Proof. unfold receiving. destruct (frame th); lia. Qed.
Lemma pushes_nonneg (th : Thread E) : 0 ≤ pushes th.
Proof. apply count_ok_nonneg. Qed.
Lemma pops_nonneg (th : Thread E) : 0 ≤ pops th.
Proof. apply count_ok_nonneg. Qed.

(** [Size] never blocks: both of its loads can always be executed. *)
Lemma Size_steps t th rest b (s : State E) :
  panicked s = false → threads s !! t = Some th →
  (frame th = Idle ∧ prog th = CSize :: rest →
   step zero (ActThread t b) s =
     Some (set_thread t (mkThread rest (SizeLoaded (size s)) (log th)) s)) ∧
  (∀ sz, frame th = SizeLoaded sz →
   step zero (ActThread t b) s =
     Some (set_thread t (ret th (RSize sz (total s))) s)).
Proof.
  intros Hp Hl. unfold step, thread_step. rewrite Hp, Hl. split.
  - intros [-> ->]. done.
  - intros sz ->. done.
Qed.

(** C8 (as amended).  In every state the program reaches, [size] is the
    int64 value of (successful pushes - successful pops), and that
    difference is never below minus the number of Push calls that have
    handed their element off and not yet returned.  When no call is in
    progress, [total] is the int64 value of the number of successful
    pushes and the difference is not negative; as long as fewer than 2^63
    pushes succeeded the counters are these numbers themselves.  A step
    leaves [total] alone or adds one to it.  [Size] reads [size], then
    [total], and both reads can always proceed. *)
Theorem accounting_at_quiescence progs cerr sch (s : State E) :
  run zero sch (New zero progs cerr) = Some s →
  let P := sumZ pushes (threads s) in
  let Q := sumZ pops (threads s) in
  size s = wrap64 (P - Q) ∧
  - sumZ handed_off (threads s) ≤ P - Q ∧
  (quiescent s →
     total s = wrap64 P ∧ 0 ≤ P - Q ∧
     (P < 2 ^ 63 → total s = P ∧ size s = P - Q ∧ 0 ≤ size s)) ∧
  (∀ a s', step zero a s = Some s' →
     total s' = total s ∨ total s' = wrap64 (total s + 1)) ∧
  (∀ t th rest b, panicked s = false → threads s !! t = Some th →
     frame th = Idle → prog th = CSize :: rest →
     ∃ s1, step zero (ActThread t b) s = Some s1 ∧
       threads s1 !! t = Some (mkThread rest (SizeLoaded (size s)) (log th)) ∧
       ∀ b', step zero (ActThread t b') s1 =
         Some (set_thread t
                (mkThread rest Idle (log th ++ [RSize (size s) (total s1)])) s1)).
Proof.
  intros Hrun P Q.
  pose proof (Cnt_run _ _ _ (Cnt_New zero progs cerr) Hrun) as [Hc1 Hc2 Hc3 Hc4].
  pose proof (Inv_run _ _ _ (Inv_New zero progs cerr) Hrun) as [Ha _].
  rewrite sumZ_sub in Hc2. rewrite !sumZ_add in *.
  fold P Q in Hc1, Hc2, Hc3, Hc4.
  assert (0 ≤ sumZ receiving (threads s)) by (apply sumZ_nonneg, receiving_nonneg).
  assert (0 ≤ P) by (apply sumZ_nonneg, pushes_nonneg).
  assert (0 ≤ Q) by (apply sumZ_nonneg, pops_nonneg).
  assert (Q + sumZ receiving (threads s) ≤ P + sumZ handed_off (threads s)) as Hle.
  { rewrite <-Hc3, <-Hc4, (ok_hist _ _ _ _ _ _ _ Ha), length_app. lia. }
  split_and!.
  - done.
  - lia.
  - intros Hq.
    assert (sumZ half_counted (threads s) = 0) as Hhc.
    { apply sumZ_zero. eapply Forall_impl; [exact Hq|].
      intros th Hf. unfold half_counted. by rewrite Hf. }
    assert (sumZ handed_off (threads s) = 0) as Hh.
    { apply sumZ_zero. eapply Forall_impl; [exact Hq|].
      intros th Hf. unfold handed_off. by rewrite Hf. }
    rewrite Hhc, Z.add_0_r in Hc1. split_and!; [done|lia|].
    intros HP. rewrite Hc1, Hc2, !wrap64_small by lia. lia.
  - intros a s'. apply step_total.
  - intros t th rest b Hp Hl Hf Hpr.
    destruct (Size_steps t th rest b s Hp Hl) as [Hs1 _].
    eexists. split; [apply Hs1; by split|].
    assert (t < length (threads s))%nat by (by eapply lookup_lt_Some).
    split.
    + cbn. by rewrite list_lookup_insert_eq.
    + intros b'. unfold step, thread_step. cbn. rewrite Hp.
      rewrite list_lookup_insert_eq by done. reflexivity.
Qed.

End Accounting.

Lemma accounting_size_negative :
  ∃ s, run 0%nat negative_size_schedule
         (New 0%nat [[CPush c0 7%nat]; [CPop c0]; [CSize]] live) = Some s ∧
       panicked s = false ∧ shutdown_closed s = false ∧
       size s = -1 ∧
       log <$> threads s = [[]; [RPop 7%nat true]; [RSize (-1) 0]].
Proof. eexists. split; [vm_compute; reflexivity|]. by vm_compute. Qed.

Lemma accounting_at_quiescence_witness :
  ∃ s, run 0%nat [ActActor APark; ActThread 0 BrChan; ActThread 0 BrNone;
                  ActThread 0 BrNone]
         (New 0%nat [[CPush c0 7%nat]] live) = Some s ∧ quiescent s ∧
       total s = 1 ∧ size s = 1.
Proof.
  eexists. split; [vm_compute; reflexivity|]. split; [by repeat constructor|].
  cbv zeta in *.
  match goal with |- total ?s = _ ∧ _ =>
    pose proof (accounting_at_quiescence 0%nat [[CPush c0 7%nat]] live
      [ActActor APark; ActThread 0 BrChan; ActThread 0 BrNone; ActThread 0 BrNone]
      s ltac:(vm_compute; reflexivity)) as (_ & _ & Hq & _)
  end.
  destruct Hq as (_ & _ & Hq); [by repeat constructor|].
  destruct Hq as (H1 & H2 & _); [vm_compute; reflexivity|].
  split; [exact H1|exact H2].
Defined.

Section AfterShutdown.
Context {E : Type} (zero : E).

Ltac step_unfold H :=
  unfold step, thread_step, call_step, push_select, pop_select, closeOnce_select,
    waitEmpty_select, actor_step, cancel_step, closeOnce_close in H.

Lemma thread_ok_lookup (s : State E) t th :
  Inv s → threads s !! t = Some th → thread_ok s th.
Proof. intros [_ Ht] Hl. rewrite Forall_lookup in Ht. by eapply Ht. Qed.




(** Once the producer channel is closed, and while [shutdown] is open, a
    [Push] with a live context has exactly one case that can proceed, the
    send on the closed channel: it panics, and no error value is
    returned. *)
Theorem push_after_close_panics t th ctx e rest (s : State E) :
  panicked s = false → threads s !! t = Some th →
  frame th = Idle → prog th = CPush ctx e :: rest →
  pushc_closed s = true → shutdown_closed s = false →
  ctx_err s (ctx_id ctx) = None →
  step zero (ActThread t BrChan) s = Some (panic s) ∧
  ∀ b s', step zero (ActThread t b) s = Some s' → b = BrChan ∧ s' = panic s.
Proof.
  intros Hp Hl Hf Hpr Hpu Hsh Hc. split.
  - unfold step, thread_step. rewrite Hp, Hl, Hf, Hpr. cbn. by rewrite Hpu.
  - intros b s' H. unfold step, thread_step in H.
    rewrite Hp, Hl, Hf, Hpr in H. cbn in H. unfold push_select in H.
    rewrite Hc, Hsh, Hpu in H. unfold cancelled in H. rewrite Hc in H.
    destruct b; simplify_eq; done.
Qed.

End AfterShutdown.

Section CancelledPush.
Context {E : Type} (zero : E).

Lemma chain_self (e : Ctxerr.error) : e ∈ Ctxerr.chain e.
Proof. destruct e as [|? ? [c|] ?]; cbn; apply list_elem_of_here. Qed.

Lemma push_ctx_error_eq ctx err :
  push_ctx_error ctx err =
  Ctxerr.Annotated "" "" (Some err) (Ctxerr.attrs_map (ctx_attrs ctx)).
Proof. done. Qed.

(** The cancellation case of [Push].  For a [Push] whose context is
    cancelled with [err]: the cancellation case of its select can always be taken, and a [Push]
    that was blocked when the context expired is woken into it; either way
    [Push] returns the [ctxerr] error that wraps [err] and carries the
    context's attributes, and [total], [size], the backlog and the
    history are as before.  The select never blocks, and the cancellation
    case is the only one it can take unless [shutdown] is closed, the
    producer channel is closed, or [goqueue] is waiting to receive. *)
Theorem cancelled_push_is_atomic t th ctx e err (s : State E) :
  panicked s = false → threads s !! t = Some th →
  let r := RPush (Some (Ctxerr.Annotated "" "" (Some err)
                          (Ctxerr.attrs_map (ctx_attrs ctx)))) in
  err ∈ Ctxerr.chain (push_ctx_error ctx err) ∧
  (∀ rest, frame th = Idle → prog th = CPush ctx e :: rest →
     ctx_err s (ctx_id ctx) = Some err →
     step zero (ActThread t BrCtx) s =
       Some (set_thread t (mkThread rest Idle (log th ++ [r])) s) ∧
     step zero (ActThread t BrNone) s = None ∧
     (shutdown_closed s = false → pushc_closed s = false →
      actor_waits s && a_pushc (actor s) = false →
      ∀ b s', step zero (ActThread t b) s = Some s' → b = BrCtx)) ∧
  (frame th = PushParked ctx e → ctx_err s (ctx_id ctx) = None →
     ∃ s', step zero (ActCancel (ctx_id ctx) err) s = Some s' ∧
       threads s' !! t = Some (mkThread (prog th) Idle (log th ++ [r])) ∧
       total s' = total s ∧ size s' = size s ∧ actor s' = actor s ∧
       accepted s' = accepted s ∧ delivered s' = delivered s ∧
       dropped s' = dropped s).
Proof.
  intros Hp Hl r. split_and!.
  - rewrite push_ctx_error_eq. cbn. apply list_elem_of_further, chain_self.
  - intros rest Hf Hpr Hc. split_and!.
    + unfold step, thread_step. rewrite Hp, Hl, Hf, Hpr. cbn. by rewrite Hc.
    + unfold step, thread_step. rewrite Hp, Hl, Hf, Hpr. cbn.
      unfold cancelled. rewrite Hc. by rewrite bool_decide_eq_true_2.
    + intros Hsh Hpu Hw b s' H. unfold step, thread_step in H.
      rewrite Hp, Hl, Hf, Hpr in H. cbn in H. unfold push_select in H.
      rewrite Hsh, Hpu, Hw in H. unfold cancelled in H. rewrite Hc in H.
      rewrite bool_decide_eq_true_2 in H by done.
      destruct b; cbn in H; try done.
  - intros Hf Hc. unfold step, cancel_step. rewrite Hp, Hc.
    eexists. split; [done|]. cbn. split; [|done].
    rewrite list_lookup_fmap, Hl. cbn. unfold wake_cancel. rewrite Hf.
    by rewrite bool_decide_eq_true_2.
Qed.

End CancelledPush.



Lemma push_after_close_panics_witness :
  ∃ s, run 0%nat [ActThread 0 BrNone; ActThread 0 BrNone]
         (New 0%nat [[CClose; CPush c0 7%nat]] live) = Some s ∧
       step 0%nat (ActThread 0 BrChan) s = Some (panic s).
Proof.
  eexists. split; [vm_compute; reflexivity|].
  eapply (push_after_close_panics 0%nat 0%nat); try (vm_compute; reflexivity).
Defined.

(** C5, at the failing input.  On a new queue, a [Push] whose context is
    already cancelled can return nil instead of the cancellation error:
    when [goqueue] is blocked in its select, the send case of [Push] can
    proceed as well as [<-ctx.Done()], and taking it the element is
    accepted and [total] and [size] are incremented. *)
Lemma cancelled_push_accepted :
  ctx_err (New 0%nat [[CPush c0 7%nat]] all_cancelled) (ctx_id c0) =
    Some Ctxerr.Canceled ∧
  ∃ s, run 0%nat [ActActor APark; ActThread 0 BrChan; ActThread 0 BrNone;
                  ActThread 0 BrNone]
         (New 0%nat [[CPush c0 7%nat]] all_cancelled) = Some s ∧
       panicked s = false ∧
       log <$> threads s = [[RPush None]] ∧
       total s = 1 ∧ size s = 1 ∧ accepted s = [7%nat] ∧
       pending (actor s) = [7%nat].
Proof.
  split; [reflexivity|].
  eexists. split; [vm_compute; reflexivity|]. by vm_compute.
Qed.

Lemma cancelled_push_is_atomic_witness :
  step 0%nat (ActThread 0 BrCtx) (New 0%nat [[CPush c0 7%nat]] all_cancelled) =
  Some (set_thread 0 (mkThread [] Idle
          [RPush (Some (Ctxerr.Annotated "" "" (Some Ctxerr.Canceled) ∅))])
         (New 0%nat [[CPush c0 7%nat]] all_cancelled)).
Proof.
  pose proof (cancelled_push_is_atomic 0%nat 0%nat
    (mkThread [CPush c0 7%nat] Idle []) c0 7%nat Ctxerr.Canceled
    (New 0%nat [[CPush c0 7%nat]] all_cancelled) eq_refl eq_refl) as (_ & H & _).
  apply (H [] eq_refl eq_refl eq_refl).
Defined.

Lemma nothing_accepted_step a (s s' : State nat) :
  Inv s → nothing_accepted s → step 0%nat a s = Some s' → nothing_accepted s'.
Proof.
  intros [Ha Ht] [Hacc Hth] H.
  assert (a_popc (actor s) = false) as Hpo.
  { pose proof (ok_hist _ _ _ _ _ _ _ Ha) as Hh. rewrite Hacc in Hh.
    unfold pending in Hh. destruct (a_popc (actor s)); [|done].
    by destruct (delivered s). }
  unfold step in H. destruct (panicked s); [done|]. destruct a as [t b|b|id err].
  - destruct (threads s !! t) as [th|] eqn:Hl; [|done].
    pose proof Hth as Hth'. rewrite Forall_lookup in Hth'.
    destruct (Hth' _ _ Hl) as [Hpr Hf].
    unfold thread_step in H. destruct Hf as [Hf|Hf]; rewrite Hf in H; [|done].
    destruct Hpr as [Hpr|Hpr]; rewrite Hpr in H; [done|]. cbn in H.
    unfold pop_select in H. rewrite Hpo, andb_false_r in H.
    destruct b; repeat case_match; simplify_eq; split; try done; cbn.
    all: apply Forall_insert; [done|]; cbn; auto.
  - unfold actor_step in H. rewrite Hpo in H.
    destruct (a_pc (actor s)); try done.
    + destruct b; repeat case_match; simplify_eq; try done.
      rewrite Forall_lookup in Hth.
      match goal with Hl : threads s !! _ = Some ?th, Hf : frame ?th = _ |- _ =>
        destruct (Hth _ _ Hl) as [_ [Hf'|Hf']]; congruence end.
    + simplify_eq. split; [done|]. cbn. apply Forall_fmap.
      eapply Forall_impl; [exact Hth|]. intros th [Hpr Hf]. cbn.
      unfold wake_popc. destruct Hf as [Hf|Hf]; rewrite Hf; cbn; auto.
    + simplify_eq. split; [done|]. cbn. apply Forall_fmap.
      eapply Forall_impl; [exact Hth|]. intros th [Hpr Hf]. cbn.
      unfold wake_done. destruct Hf as [Hf|Hf]; rewrite Hf; cbn; auto.
  - unfold cancel_step in H. destruct (ctx_err s id); simplify_eq.
    split; [done|]. cbn. apply Forall_fmap.
    eapply Forall_impl; [exact Hth|]. intros th [Hpr Hf]. cbn.
    unfold wake_cancel. destruct Hf as [Hf|Hf]; rewrite Hf; cbn; auto.
    case_bool_decide; cbn; auto.
Qed.

Lemma nothing_accepted_run sch (s s' : State nat) :
  Inv s → nothing_accepted s → run 0%nat sch s = Some s' →
  nothing_accepted s' ∧ Inv s'.
Proof.
  revert s. induction sch as [|a sch IH]; intros s HI Hn H; cbn in H.
  - by simplify_eq.
  - destruct (step 0%nat a s) as [s1|] eqn:Hs; [|done].
    eapply IH; [| |exact H]; [by eapply Inv_step|by eapply nothing_accepted_step].
Qed.

(** C2, at the failing input.  After [lost_push_schedule] the [Push] of 7
    has returned nil and is counted in [total] and [size], [Close] has
    returned without closing the producer channel, and 7 is neither in
    the backlog nor on offer: [closeOnce] received it.  Whatever runs
    afterwards, nothing is ever delivered. *)
Lemma close_drops_blocked_push :
  ∃ s, run 0%nat lost_push_schedule (New 0%nat lost_push_progs live) = Some s ∧
       log <$> threads s = [[RPush None]; [RClose]; []] ∧
       total s = 1 ∧ size s = 1 ∧ panicked s = false ∧
       pushc_closed s = false ∧ pending (actor s) = [] ∧ dropped s = [7%nat] ∧
       ∀ sch' s', run 0%nat sch' s = Some s' →
         delivered s' = [] ∧ pending (actor s') = [].
Proof.
  eexists. split; [vm_compute; reflexivity|].
  do 7 (split; [vm_compute; reflexivity|]).
  intros sch' s' Hrun.
  eapply nothing_accepted_run in Hrun as [[Hacc _] [Ha _]].
  - pose proof (ok_hist _ _ _ _ _ _ _ Ha) as Hh. rewrite Hacc in Hh.
    symmetry in Hh. by apply app_eq_nil in Hh.
  - eapply (Inv_run 0%nat lost_push_schedule
              (New 0%nat lost_push_progs live)); [apply Inv_New|].
    vm_compute; reflexivity.
  - split; [vm_compute; reflexivity|]. vm_compute.
    repeat (apply List.Forall_cons; [cbn; split; auto|]). apply List.Forall_nil.
Qed.

Lemma pushes_only_step a (s s' : State nat) :
  pushes_only s → step 0%nat a s = Some s' → pushes_only s'.
Proof.
  intros (Hp & Hpu & Hsh & Hth) H. unfold step in H. rewrite Hp in H.
  destruct a as [t b|b|id err].
  - destruct (threads s !! t) as [th|] eqn:Hl; [|done].
    pose proof Hth as Hth'. rewrite Forall_lookup in Hth'.
    destruct (Hth' _ _ Hl) as [Hpr Hf].
    unfold thread_step in H. destruct (frame th) eqn:Hfr; try done.
    + destruct (prog th) as [|c rest] eqn:Hprog; [done|].
      cbn in Hpr. apply andb_prop in Hpr as [Hc Hrest].
      destruct c; try done. cbn in H. unfold push_select in H.
      rewrite Hpu, Hsh in H.
      destruct b; repeat case_match; simplify_eq; split_and!; try done; cbn.
      all: apply Forall_insert; [done|]; cbn; auto.
    + simplify_eq. split_and!; try done. cbn.
      apply Forall_insert; [done|]; cbn; auto.
    + simplify_eq. split_and!; try done. cbn.
      apply Forall_insert; [done|]; cbn; auto.
  - unfold actor_step in H. rewrite Hpu, Hsh in H.
    destruct (a_pc (actor s)); try done.
    + destruct b; repeat case_match; simplify_eq; try done;
        split_and!; try done; cbn.
      * apply Forall_insert; [done|]; cbn.
        rewrite Forall_lookup in Hth.
        match goal with Hl : threads s !! _ = Some ?th |- _ =>
          destruct (Hth _ _ Hl) as [Hpr _]; auto end.
      * rewrite Forall_lookup in Hth.
        match goal with Hl : threads s !! _ = Some ?th, Hf : frame ?th = _ |- _ =>
          destruct (Hth _ _ Hl) as [_ Hf']; rewrite Hf in Hf'; done end.
    + simplify_eq. split_and!; try done. cbn. apply Forall_fmap.
      eapply Forall_impl; [exact Hth|]. intros th [Hpr Hf]. cbn.
      unfold wake_popc.
      destruct (frame th) eqn:Hfr; try done; cbn; rewrite ?Hfr; auto.
    + simplify_eq. split_and!; try done. cbn. apply Forall_fmap.
      eapply Forall_impl; [exact Hth|]. intros th [Hpr Hf]. cbn.
      unfold wake_done.
      destruct (frame th) eqn:Hfr; try done; cbn; rewrite ?Hfr; auto.
  - unfold cancel_step in H. destruct (ctx_err s id); simplify_eq.
    split_and!; try done. cbn. apply Forall_fmap.
    eapply Forall_impl; [exact Hth|]. intros th [Hpr Hf]. cbn.
    unfold wake_cancel.
    destruct (frame th) eqn:Hfr; try done; cbn; rewrite ?Hfr; auto.
    case_bool_decide; cbn; rewrite ?Hfr; auto.
Qed.

Lemma pushes_only_run sch (s s' : State nat) :
  pushes_only s → run 0%nat sch s = Some s' → pushes_only s'.
Proof.
  revert s. induction sch as [|a sch IH]; intros s Hn H; cbn in H.
  - by simplify_eq.
  - destruct (step 0%nat a s) as [s1|] eqn:Hs; [|done].
    eapply IH; [|exact H]. by eapply pushes_only_step.
Qed.

(** C4, at the failing input.  After [close_returned_schedule] the call of
    [Close] has returned, [Shutdown] was not called and the context is
    live, but the producer channel is still open: [closeOnce] received the
    element of the blocked [Push] instead of closing.  The [Push] that
    follows is accepted and returns nil, and whatever runs afterwards, no
    [Push] ever panics. *)
Lemma push_after_close_returns_nil :
  ∃ s, run 0%nat close_returned_schedule
         (New 0%nat push_after_close_progs live) = Some s ∧
       log <$> threads s = [[RPush None]; [RClose]] ∧
       prog <$> threads s = [[]; [CPush c0 8%nat]] ∧
       panicked s = false ∧ pushc_closed s = false ∧
       shutdown_closed s = false ∧ ctx_err s (ctx_id c0) = None ∧
       (∃ s', run 0%nat late_push_schedule s = Some s' ∧
              log <$> threads s' = [[RPush None]; [RClose; RPush None]] ∧
              panicked s' = false ∧ accepted s' = [8%nat] ∧ total s' = 2) ∧
       ∀ sch' s', run 0%nat sch' s = Some s' →
         panicked s' = false ∧ pushc_closed s' = false.
Proof.
  eexists. split; [vm_compute; reflexivity|].
  do 6 (split; [vm_compute; reflexivity|]). split.
  - eexists. split; [vm_compute; reflexivity|]. by vm_compute.
  - intros sch' s' Hrun.
    eapply pushes_only_run in Hrun as (? & ? & _); [done|].
    do 3 (split; [vm_compute; reflexivity|]). vm_compute.
    repeat (apply List.Forall_cons; [cbn; split; auto|]). apply List.Forall_nil.
Qed.

Section OneClient.
Context {E : Type} (zero : E).

Lemma pending_after_select (q : list E) nx pu po :
  pending (after_select q nx pu po) = (if po then [nx] else []) ++ q.
Proof.
  destruct (after_select_cases q nx pu po)
    as [(->&->&->&->)|[(x&q'&->&->&->)|(_&_&->)]]; done.
Qed.

Lemma seq_run_return cerr (p : list (Call E)) A0 l A c r A' :
  seq_run zero cerr A0 (take (length l) p) l A →
  p !! length l = Some c → seq_call zero cerr A c r A' →
  seq_run zero cerr A0 (take (length (l ++ [r])) p) (l ++ [r]) A'.
Proof.
  intros Hrun Hl Hc. rewrite length_app, Nat.add_1_r.
  rewrite (take_S_r _ _ _ Hl). by econstructor.
Qed.

Lemma drop_head (p : list (Call E)) k c rest :
  drop k p = c :: rest → p !! k = Some c ∧ drop (S k) p = rest.
Proof.
  intros H. assert (p !! k = Some c) as Hl.
  { pose proof (lookup_drop p k 0) as Hd. rewrite H, Nat.add_0_r in Hd.
    by symmetry. }
  split; [done|]. rewrite (drop_S _ _ _ Hl) in H. by simplify_eq.
Qed.

Lemma single_lookup (th th' : Thread E) t :
  [th] !! t = Some th' → t = 0%nat ∧ th' = th.
Proof. destruct t as [|t]; cbn; [by intros [= ->]|done]. Qed.

(** Abstract states are equal when their fields are. *)
Lemma Abs_eq (A B : Abs (E:=E)) :
  bl A = bl B → closed A = closed B → shut A = shut B → A = B.
Proof. destruct A, B; cbn; by intros -> -> ->. Qed.

(** The concrete state changed, the client and the abstract state did
    not. *)
Lemma sim_same p cerr (s s' : State E) :
  sim zero p cerr s → Inv s' →
  threads s' = threads s → ctx_err s' = ctx_err s → abs s' = abs s →
  panicked s' = panicked s → sim zero p cerr s'.
Proof.
  intros (th & A & Hth & Hce & _ & Hrun & Hfr) HI Ht Hc Ha Hp.
  exists th, A. rewrite Ht, Hc, Ha, Hp. done.
Qed.

(** A call returns [r]. *)
Lemma sim_return p cerr (s' : State E) l rest A c r :
  threads s' = [mkThread rest Idle (l ++ [r])] → ctx_err s' = cerr → Inv s' →
  panicked s' = false →
  seq_run zero cerr (mkAbs [] false false) (take (length l) p) l A →
  p !! length l = Some c → rest = drop (S (length l)) p →
  seq_call zero cerr A c r (abs s') →
  sim zero p cerr s'.
Proof.
  intros Hth Hce HI Hp Hrun Hl Hrest Hc.
  eexists _, (abs s'). split_and!; [done|done|done| |]; cbn.
  - by eapply seq_run_return.
  - split_and!; [|done|by rewrite Hp]. by rewrite length_app, Nat.add_1_r.
Qed.

(** The call [c] goes on, in frame [f]. *)
Lemma sim_in_call p cerr (s' : State E) l rest A c f :
  threads s' = [mkThread rest f l] → ctx_err s' = cerr → Inv s' →
  panicked s' = false →
  seq_run zero cerr (mkAbs [] false false) (take (length l) p) l A →
  p !! length l = Some c → rest = drop (S (length l)) p →
  in_call cerr A c (abs s') f →
  sim zero p cerr s'.
Proof.
  intros Hth Hce HI Hp Hrun Hl Hrest Hc.
  exists (mkThread rest f l), A. split_and!; [done|done|done|done|]; cbn.
  destruct f; try done; split; eauto.
Qed.


Lemma abs_set_thread t th (s : State E) : abs (set_thread t th s) = abs s.
Proof. done. Qed.

Lemma Inv_exit_reason (s : State E) :
  Inv s → alive (a_pc (actor s)) = false →
  shutdown_closed s = true ∨ (pushc_closed s = true ∧ pending (actor s) = []).
Proof.
  intros [Ha _] Hal. destruct (ok_exit _ _ _ _ _ _ _ Ha Hal) as [?|[Hpu ?]]; [by left|].
  right. split; [|done]. by apply (ok_pushc _ _ _ _ _ _ _ Ha).
Qed.

Lemma Inv_parked_open (s : State E) :
  Inv s → actor_waits s = true → shutdown_closed s = false.
Proof.
  intros [Ha _] Hw. apply parked_true in Hw.
  by destruct (ok_parked _ _ _ _ _ _ _ Ha Hw).
Qed.

(** The first instruction of a call. *)
Lemma sim_call_step p cerr th c rest b (s s' : State E) A :
  threads s = [th] → ctx_err s = cerr → Inv s → Inv s' → panicked s = false →
  frame th = Idle →
  seq_run zero cerr (mkAbs [] false false) (take (length (log th)) p) (log th) A →
  p !! length (log th) = Some c → rest = drop (S (length (log th))) p →
  prog th = c :: rest → abs s = A →
  call_step zero 0 (mkThread rest Idle (log th)) c b s = Some s' →
  sim zero p cerr s'.
Proof.
  intros Hth Hce HI HI' Hp Hf Hrun Hpk Hrest Hpr Habs H.
  assert (∀ r, threads s' = <[0%nat:=ret (mkThread rest Idle (log th)) r]> (threads s) →
               threads s' = [mkThread rest Idle (log th ++ [r])]) as Hret.
  { intros r ->. by rewrite Hth. }
  assert (∀ f, threads s' = <[0%nat:=set_frame (mkThread rest Idle (log th)) f]> (threads s) →
               threads s' = [mkThread rest f (log th)]) as Hmove.
  { intros f ->. by rewrite Hth. }
  destruct c as [ctx e|ctx| | |ctx|]; cbn in H.
  - (* Push *)
    unfold push_select in H. destruct b; try done.
    + destruct (ctx_err s (ctx_id ctx)) as [err|] eqn:Hc; simplify_eq.
      eapply sim_return; [by apply Hret|done|done|done|done|done|done|].
      rewrite abs_set_thread. by apply seq_push_cancelled.
    + destruct (shutdown_closed s) eqn:Hsh; simplify_eq.
      eapply sim_return; [by apply Hret|done|done|done|done|done|done|].
      rewrite abs_set_thread. by apply seq_push_shutdown.
    + destruct (pushc_closed s) eqn:Hpu; simplify_eq.
      * exists th, (abs s). split_and!; try done. rewrite Hf.
        split_and!; [by rewrite Hpr; symmetry; apply drop_S|done|].
        intros _. by exists ctx, e, (drop (S (length (log th))) p).
      * destruct (actor_waits s) eqn:Hw; [|done]. cbn in H.
        destruct (a_pushc (actor s)) eqn:Hapu; simplify_eq.
        pose proof (Inv_parked_open _ HI Hw) as Hsh.
        eapply sim_in_call; [by apply Hmove|done|done|done|done|done|done|].
        cbn. exists ctx, e. split_and!; try done.
        unfold abs; cbn. unfold actor_recv. rewrite pending_after_select.
        rewrite Hsh, Hpu. f_equal. unfold pending. by rewrite <-app_assoc.
    + destruct (_ || _) eqn:Hor in H; [done|]. simplify_eq.
      eapply sim_in_call; [by apply Hmove|done|done|done|done|done|done|].
      done.
  - (* Pop *)
    unfold pop_select in H. destruct b; try done.
    + destruct (cancelled s ctx) eqn:Hc; simplify_eq.
      eapply sim_return; [by apply Hret|done|done|done|done|done|done|].
      rewrite abs_set_thread. apply seq_pop_end. left.
      unfold cancelled in Hc. by apply bool_decide_eq_true in Hc.
    + destruct (shutdown_closed s) eqn:Hsh; simplify_eq.
      eapply sim_return; [by apply Hret|done|done|done|done|done|done|].
      rewrite abs_set_thread. apply seq_pop_end. right. by left.
    + destruct (popc_closed s) eqn:Hpo; simplify_eq.
      * eapply sim_return; [by apply Hret|done|done|done|done|done|done|].
        rewrite abs_set_thread. apply seq_pop_end. right.
        apply Inv_exit_reason; [done|].
        destruct HI as [Ha _]. pose proof (ok_popc _ _ _ _ _ _ _ Ha) as Hx.
        rewrite Hpo in Hx. by destruct (a_pc (actor s)).
      * destruct (actor_waits s) eqn:Hw; [|done]. cbn in H.
        destruct (a_popc (actor s)) eqn:Hapo; simplify_eq.
        pose proof (Inv_parked_open _ HI Hw) as Hsh.
        eapply sim_in_call; [by apply Hmove|done|done|done|done|done|done|].
        cbn. exists ctx. unfold actor_sent. rewrite pending_after_select.
        cbn. unfold pending. rewrite Hapo. done.
    + destruct (_ || _) eqn:Hor in H; [done|]. simplify_eq.
      eapply sim_in_call; [by apply Hmove|done|done|done|done|done|done|].
      done.
  - (* Close *)
    unfold closeOnce_select in H. destruct b; try done.
    + destruct (chan_closed pushc s) eqn:Hc; simplify_eq. cbn in Hc.
      eapply sim_return; [by apply Hret|done|done|done|done|done|done|].
      rewrite abs_set_thread.
      replace (abs s) with (mkAbs (bl (abs s)) true (shut (abs s))) at 2
        by (apply Abs_eq; done).
      apply seq_close.
    + rewrite Hth in H. destruct t as [|t]; [|done]. cbn in H. by rewrite Hf in H.
    + destruct (_ || _) eqn:Hor in H; [done|]. simplify_eq.
      apply orb_false_elim in Hor as [Hc _]. cbn in Hc.
      eapply sim_in_call; [by apply Hmove|done|done|done|done|done|done|].
      done.
  - (* Shutdown *)
    unfold closeOnce_select in H. destruct b; try done.
    + destruct (chan_closed shutdownc s) eqn:Hc; simplify_eq. cbn in Hc.
      eapply sim_return; [by apply Hret|done|done|done|done|done|done|].
      rewrite abs_set_thread.
      replace (abs s) with (mkAbs (bl (abs s)) (closed (abs s)) true) at 2
        by (apply Abs_eq; done).
      apply seq_shutdown.
    + destruct (_ || _) eqn:Hor in H; [done|]. simplify_eq.
      apply orb_false_elim in Hor as [Hc _]. cbn in Hc.
      eapply sim_in_call; [by apply Hmove|done|done|done|done|done|done|].
      done.
  - (* WaitEmpty *)
    unfold closeOnce_select in H. destruct b; try done.
    + destruct (chan_closed pushc s) eqn:Hc; simplify_eq. cbn in Hc.
      eapply sim_in_call; [by apply Hmove|done|done|done|done|done|done|].
      cbn. split; [done|]. apply Abs_eq; done.
    + rewrite Hth in H. destruct t as [|t]; [|done]. cbn in H. by rewrite Hf in H.
    + destruct (_ || _) eqn:Hor in H; [done|]. simplify_eq.
      apply orb_false_elim in Hor as [Hc _]. cbn in Hc.
      eapply sim_in_call; [by apply Hmove|done|done|done|done|done|done|].
      done.
  - (* Size *)
    simplify_eq.
    eapply sim_in_call; [by apply Hmove|done|done|done|done|done|done|].
    done.
Qed.


Lemma sim_closeOnce_close p cerr th ch k (s : State E) A c :
  threads s = [th] → ctx_err s = cerr → Inv s →
  Inv (closeOnce_close zero 0 th ch k s) → panicked s = false →
  frame th = CloseOnceDefault ch k →
  seq_run zero cerr (mkAbs [] false false) (take (length (log th)) p) (log th) A →
  p !! length (log th) = Some c → prog th = drop (S (length (log th))) p →
  in_call cerr A c (abs s) (CloseOnceDefault ch k) →
  sim zero p cerr (closeOnce_close zero 0 th ch k s).
Proof.
  intros Hth Hce HI HI' Hp Hf Hrun Hpk Hpr Hin.
  remember (closeOnce_close zero 0 th ch k s) as s' eqn:Hs'.
  unfold closeOnce_close in Hs'. destruct th as [pr fr lg]; cbn in *. subst fr.
  assert (wake_pushc <$> threads s =
          [mkThread pr (CloseOnceDefault ch k) lg]) as Hwp by (by rewrite Hth).
  assert (wake_shutdown zero <$> threads s =
          [mkThread pr (CloseOnceDefault ch k) lg]) as Hws by (by rewrite Hth).
  destruct k as [| |ctx|]; cbn in Hin.
  - destruct Hin as (-> & -> & Hcl & <-). cbn in Hcl. cbn in Hs'.
    rewrite Hcl in Hs'.
    eapply sim_return; [rewrite Hs'; cbn; by rewrite Hwp
      |rewrite Hs'; by destruct (_ && _)|done
      |rewrite Hs'; by destruct (_ && _)|done|done|done|].
    replace (abs s') with (mkAbs (bl (abs s)) true (shut (abs s)));
      [apply seq_close|].
    rewrite Hs'. apply Abs_eq; cbn; destruct (_ && _); cbn; try done.
    unfold actor_recv_closed. by rewrite pending_after_select.
  - destruct Hin as (-> & -> & Hcl & <-). cbn in Hcl. cbn in Hs'.
    rewrite Hcl in Hs'.
    eapply sim_return; [rewrite Hs'; cbn; by rewrite Hws
      |rewrite Hs'; by destruct (actor_waits s)|done
      |rewrite Hs'; by destruct (actor_waits s)|done|done|done|].
    replace (abs s') with (mkAbs (bl (abs s)) (closed (abs s)) true);
      [apply seq_shutdown|].
    rewrite Hs'. apply Abs_eq; cbn; destruct (actor_waits s); cbn; done.
  - destruct Hin as (-> & -> & Hcl & <-). cbn in Hcl. cbn in Hs'.
    rewrite Hcl in Hs'.
    eapply sim_in_call; [rewrite Hs'; cbn; by rewrite Hwp
      |rewrite Hs'; by destruct (_ && _)|done
      |rewrite Hs'; by destruct (_ && _)|done|done|done|].
    cbn. split; [done|].
    rewrite Hs'. apply Abs_eq; cbn; destruct (_ && _); cbn; try done.
    unfold actor_recv_closed. by rewrite pending_after_select.
  - destruct Hin as (ctx & -> & -> & Hc & HshA & HB).
    assert (shutdown_closed s = false) as Hcl.
    { by apply (f_equal shut) in HB. }
    cbn in Hs'. rewrite Hcl in Hs'.
    eapply sim_in_call; [rewrite Hs'; cbn; by rewrite Hws
      |rewrite Hs'; by destruct (actor_waits s)|done
      |rewrite Hs'; by destruct (actor_waits s)|done|done|done|].
    cbn. exists ctx. split_and!; [done|done|].
    rewrite Hs'. apply Abs_eq; cbn; destruct (actor_waits s); cbn;
      first [by apply (f_equal bl) in HB | by apply (f_equal closed) in HB | done].
Qed.

(** A step of the client. *)
Lemma sim_thread_step p cerr t th b (s s' : State E) :
  sim zero p cerr s → Inv s' → panicked s = false →
  threads s !! t = Some th →
  thread_step zero t th b s = Some s' → sim zero p cerr s'.
Proof.
  intros (th0 & A & Hth & Hce & HI & Hrun & Hfr) HI' Hp Hl H.
  rewrite Hth in Hl. apply single_lookup in Hl as [-> ->].
  unfold thread_step in H. destruct (frame th0) eqn:Hf.
  - (* Idle *)
    destruct Hfr as (Hpr & Habs & _).
    destruct (prog th0) as [|c rest] eqn:Hpr'; [done|].
    symmetry in Hpr. apply drop_head in Hpr as [Hpk Hrest].
    eapply sim_call_step; try done.
  - done.
  - by destruct Hfr as (_ & c & _ & _ & ?).
  - (* PushSent *)
    destruct Hfr as (_ & c & Hpk & Hpr & Hin). simplify_eq.
    destruct th0 as [pr fr lg]; cbn in *.
    eapply sim_in_call; [cbn; by rewrite Hth|done|done|done|done|done|done|].
    done.
  - (* PushCounted *)
    destruct Hfr as (_ & c & Hpk & Hpr & Hin). simplify_eq.
    destruct th0 as [pr fr lg]; cbn in *.
    destruct Hin as (ctx & e & -> & HcA & HsA & HB).
    eapply sim_return; [cbn; by rewrite Hth|done|done|done|done|done|done|].
    change (abs _) with (abs s). rewrite HB. by apply seq_push.
  - done.
  - (* PopReceived *)
    destruct Hfr as (_ & c & Hpk & Hpr & Hin). simplify_eq.
    destruct th0 as [pr fr lg]; cbn in *.
    destruct Hin as (ctx & -> & HsA & Hbl & Hcl & Hsh).
    eapply sim_return; [cbn; by rewrite Hth|done|done|done|done|done|done|].
    change (abs _) with (abs s).
    replace (abs s) with (mkAbs (bl (abs s)) (closed A) false)
      by (apply Abs_eq; done).
    by apply seq_pop.
  - (* CloseOnceDefault *)
    destruct Hfr as (_ & c0 & Hpk & Hpr & Hin). simplify_eq.
    by eapply sim_closeOnce_close.
  - (* WaitEmptySelect *)
    destruct Hfr as (_ & c & Hpk & Hpr & Hin). cbn in Hin. destruct Hin as [-> HB].
    destruct th0 as [pr fr lg]; cbn in *.
    unfold waitEmpty_select in H. destruct b; try done.
    + destruct (cancelled s ctx) eqn:Hc; simplify_eq.
      eapply sim_in_call; [cbn; by rewrite Hth|done|done|done|done|done|done|].
      cbn. exists ctx. split_and!; [done| |done].
      unfold cancelled in Hc. by apply bool_decide_eq_true in Hc.
    + destruct (done_closed s) eqn:Hdn; simplify_eq.
      eapply sim_return; [cbn; by rewrite Hth|done|done|done|done|done|done|].
      change (abs _) with (abs s). rewrite HB. apply seq_waitEmpty_done.
      destruct (Inv_exit_reason s HI) as [Hx|[_ Hx]].
      * destruct HI as [Ha _]. pose proof (ok_done _ _ _ _ _ _ _ Ha) as Hx.
        rewrite Hdn in Hx. by destruct (a_pc (actor s)).
      * left. apply (f_equal shut) in HB. cbn in HB. congruence.
      * right. apply (f_equal bl) in HB. cbn in HB. congruence.
    + destruct (_ || _) eqn:Hor in H; [done|]. simplify_eq.
      eapply sim_in_call; [cbn; by rewrite Hth|done|done|done|done|done|done|].
      done.
  - done.
  - (* WaitEmptyShutdown *)
    destruct Hfr as (_ & c & Hpk & Hpr & Hin). cbn in Hin.
    destruct Hin as (ctx & -> & Hc & HB).
    destruct th0 as [pr fr lg]; cbn in *.
    unfold closeOnce_select in H. destruct b; try done.
    + destruct (chan_closed shutdownc s) eqn:Hcl; simplify_eq. cbn in Hcl.
      eapply sim_in_call; [cbn; by rewrite Hth|done|done|done|done|done|done|].
      cbn. exists ctx. split_and!; [done|done|].
      change (abs _) with (abs s). rewrite HB. f_equal.
      apply (f_equal shut) in HB. cbn in HB. congruence.
    + destruct (_ || _) eqn:Hor in H; [done|]. simplify_eq.
      apply orb_false_elim in Hor as [Hcl _]. cbn in Hcl.
      eapply sim_in_call; [cbn; by rewrite Hth|done|done|done|done|done|done|].
      cbn. exists ctx.
      assert (shut A = false) as HsA.
      { apply (f_equal shut) in HB. cbn in HB. congruence. }
      split_and!; [done|done|done|done|].
      change (abs _) with (abs s). by rewrite HB, HsA.
  - (* WaitEmptyDone *)
    destruct Hfr as (_ & c & Hpk & Hpr & Hin). cbn in Hin.
    destruct Hin as (ctx & -> & Hc & HB).
    destruct th0 as [pr fr lg]; cbn in *.
    destruct (done_closed s) eqn:Hdn; simplify_eq.
    + eapply sim_return; [cbn; by rewrite Hth|done|done|done|done|done|done|].
      change (abs _) with (abs s). rewrite HB. by apply seq_waitEmpty_cancelled.
    + eapply sim_in_call; [cbn; by rewrite Hth|done|done|done|done|done|done|].
      cbn. by exists ctx.
  - done.
  - (* SizeLoaded *)
    destruct Hfr as (_ & c & Hpk & Hpr & Hin). cbn in Hin. destruct Hin as [-> HB].
    destruct th0 as [pr fr lg]; cbn in *. simplify_eq.
    eapply sim_return; [cbn; by rewrite Hth|done|done|done|done|done|done|].
    change (abs _) with (abs s). apply seq_size.
Qed.


(** A turn of [goqueue]. *)
Lemma sim_actor_step p cerr b (s s' : State E) :
  sim zero p cerr s → Inv s' → panicked s = false →
  actor_step zero b s = Some s' → sim zero p cerr s'.
Proof.
  intros Hsim HI' Hp H. pose proof Hsim as (th & A & Hth & Hce & HI & Hrun & Hfr).
  unfold actor_step in H.
  destruct (a_pc (actor s)) eqn:Hpc; try done.
  - destruct b.
    + (* receives from the blocked Push *)
      destruct (threads s !! t) as [th0|] eqn:Hl; [|done].
      rewrite Hth in Hl. apply single_lookup in Hl as [-> ->].
      destruct (frame th) eqn:Hf; try done.
      destruct (a_pushc (actor s)) eqn:Hapu; simplify_eq.
      destruct Hfr as (_ & c & Hpk & Hpr & Hin). cbn in Hin. destruct Hin as [-> HB].
      pose proof (thread_ok_lookup s 0 th HI) as Hok. rewrite Hth in Hok.
      specialize (Hok eq_refl). unfold thread_ok, thread_ok_at in Hok.
      rewrite Hf in Hok. destruct Hok as (Hsh & Hpu & _).
      destruct th as [pr fr lg]; cbn in *.
      eapply sim_in_call; [cbn; by rewrite Hth|done|done|done|done|done|done|].
      cbn. exists ctx, e. rewrite <-HB. split_and!; try done.
      unfold abs; cbn. unfold actor_recv. rewrite pending_after_select.
      rewrite Hsh, Hpu. f_equal. unfold pending. by rewrite <-app_assoc.
    + destruct (_ && _) eqn:Hc in H; simplify_eq.
      eapply sim_same; try done.
      unfold abs; cbn. unfold actor_recv_closed. by rewrite pending_after_select.
    + (* sends to the blocked Pop *)
      destruct (threads s !! t) as [th0|] eqn:Hl; [|done].
      rewrite Hth in Hl. apply single_lookup in Hl as [-> ->].
      destruct (frame th) eqn:Hf; try done.
      destruct (a_popc (actor s)) eqn:Hapo; simplify_eq.
      destruct Hfr as (_ & c & Hpk & Hpr & Hin). cbn in Hin. destruct Hin as [-> HB].
      pose proof (thread_ok_lookup s 0 th HI) as Hok. rewrite Hth in Hok.
      specialize (Hok eq_refl). unfold thread_ok, thread_ok_at in Hok.
      rewrite Hf in Hok. destruct Hok as (Hsh & _).
      destruct th as [pr fr lg]; cbn in *.
      eapply sim_in_call; [cbn; by rewrite Hth|done|done|done|done|done|done|].
      cbn. exists ctx. rewrite <-HB. unfold actor_sent.
      rewrite pending_after_select. cbn. unfold pending. rewrite Hapo. done.
    + destruct (shutdown_closed s) eqn:Hsh; simplify_eq.
      eapply sim_same; done.
    + destruct (_ || _) eqn:Hor in H; [done|]. simplify_eq.
      eapply sim_same; done.
  - (* close(q.popc) *)
    simplify_eq.
    destruct (Inv_exit_reason s HI) as [Hx|Hx]; [by rewrite Hpc| |].
    all: destruct (frame th) eqn:Hf;
      try (eapply sim_same; [done|done| |done|done|done]; cbn;
           rewrite Hth; cbn; unfold wake_popc; by rewrite Hf).
    all: destruct Hfr as (_ & c & Hpk & Hpr & Hin); cbn in Hin;
      destruct Hin as [-> HB]; destruct th as [pr fr lg]; cbn in *; subst fr.
    all: eapply sim_return;
      [cbn; rewrite Hth; cbn; unfold wake_popc; cbn; reflexivity
      |done|done|done|done|done|done|].
    all: change (abs _) with (abs s); rewrite HB; apply seq_pop_end; right.
    + left. apply (f_equal shut) in HB. cbn in HB. congruence.
    + right. destruct Hx as [Hx1 Hx2]. rewrite <-HB. by split.
  - (* close(q.done) *)
    simplify_eq.
    destruct (Inv_exit_reason s HI) as [Hx|[_ Hx]]; [by rewrite Hpc| |].
    all: destruct (frame th) eqn:Hf;
      try (eapply sim_same; [done|done| |done|done|done]; cbn;
           rewrite Hth; cbn; unfold wake_done; by rewrite Hf).
    all: destruct Hfr as (_ & c & Hpk & Hpr & Hin); cbn in Hin;
      destruct th as [pr fr lg]; cbn in *; subst fr.
    all: try (destruct Hin as [-> HB];
      eapply sim_return;
        [cbn; rewrite Hth; cbn; unfold wake_done; cbn; reflexivity
        |done|done|done|done|done|done|];
      change (abs _) with (abs s); rewrite HB; apply seq_waitEmpty_done).
    all: try (destruct Hin as (ctx & -> & Hc & HB);
      eapply sim_return;
        [cbn; rewrite Hth; cbn; unfold wake_done; cbn; reflexivity
        |done|done|done|done|done|done|];
      change (abs _) with (abs s); rewrite HB; by apply seq_waitEmpty_cancelled).
    + left. apply (f_equal shut) in HB. cbn in HB. congruence.
    + right. apply (f_equal bl) in HB. cbn in HB. congruence.
Qed.

(** ** Every run of one client is a run of the sequential queue *)

Lemma sim_step p cerr a (s s' : State E) :
  sim zero p cerr s → is_cancel a = false → step zero a s = Some s' →
  sim zero p cerr s'.
Proof.
  intros Hsim Hq H.
  assert (Inv s') as HI'.
  { destruct Hsim as (? & ? & _ & _ & HI & _). by eapply Inv_step. }
  unfold step in H. destruct (panicked s) eqn:Hp; [done|].
  destruct a as [t b|b|]; [| |done].
  - destruct (threads s !! t) as [th|] eqn:Hl; [|done].
    by eapply sim_thread_step.
  - by eapply sim_actor_step.
Qed.

Lemma sim_New p cerr : sim zero p cerr (New zero [p] cerr).
Proof.
  exists (mkThread p Idle []), (mkAbs [] false false).
  split_and!; [done|done|apply Inv_New|apply seq_run_nil|]. cbn.
  split_and!; done.
Qed.

Lemma sim_run p cerr sch (s s' : State E) :
  sim zero p cerr s → quiet sch → run zero sch s = Some s' →
  sim zero p cerr s'.
Proof.
  revert s. induction sch as [|a sch IH]; intros s Hsim Hq H; cbn in H.
  - by simplify_eq.
  - destruct (step zero a s) as [s1|] eqn:Hs; [|done].
    apply Forall_cons in Hq as [Ha Hq]. eapply IH; [|done|exact H].
    by eapply sim_step.
Qed.

End OneClient.

Section Progress.
Context {E : Type} (zero : E).

Ltac st_cbn :=
  cbn [threads actor total size accepted dropped delivered pushc_closed
       popc_closed shutdown_closed done_closed ctx_err panicked
       set_thread set_threads set_counters set_history set_actor set_closed
       set_ctx_err panic].

Lemma sumZ_fmap_le (f : Thread E → Z) g l :
  (∀ th, f (g th) ≤ f th) → sumZ f (g <$> l) ≤ sumZ f l.
Proof.
  intros H. induction l as [|x l IH]; [done|].
  rewrite fmap_cons, !sumZ_cons. specialize (H x). lia.
Qed.

Lemma frame_rank_bounds (f : Frame E) : 0 ≤ frame_rank f ≤ 6.
Proof. destruct f as [| | | | | | |c []| | | | | |]; cbn; lia. Qed.

Lemma thread_rank_nonneg (th : Thread E) : 0 ≤ thread_rank th.
Proof. unfold thread_rank. pose proof (frame_rank_bounds (frame th)). lia. Qed.

Lemma actor_rank_bounds (a : Actor E) : 0 ≤ actor_rank a ≤ 6.
Proof. unfold actor_rank. destruct (a_pc a), (a_pushc a); lia. Qed.

Lemma actor_rank_after_select (q : list E) nx pu po :
  actor_rank (after_select q nx pu po) ≤ 4 + (if pu then 2 else 0).
Proof.
  destruct (after_select_cases q nx pu po)
    as [(->&->&->&->)|[(x&q'&->&->&->)|(_&_&->)]];
    unfold actor_rank; cbn; try lia; destruct pu; lia.
Qed.

Lemma rank_wake_shutdown (th : Thread E) :
  thread_rank (wake_shutdown zero th) ≤ thread_rank th.
Proof.
  unfold wake_shutdown, thread_rank. destruct (frame th) eqn:Hf; cbn [frame prog log ret set_frame frame_rank];
    rewrite ?Hf; cbn [frame_rank]; lia.
Qed.
Lemma rank_wake_pushc (th : Thread E) :
  thread_rank (wake_pushc th) ≤ thread_rank th.
Proof.
  unfold wake_pushc, thread_rank. destruct (frame th) eqn:Hf; cbn [frame prog log ret set_frame frame_rank];
    rewrite ?Hf; cbn [frame_rank]; lia.
Qed.
Lemma rank_wake_popc (th : Thread E) :
  thread_rank (wake_popc zero th) ≤ thread_rank th.
Proof.
  unfold wake_popc, thread_rank. destruct (frame th) eqn:Hf; cbn [frame prog log ret set_frame frame_rank];
    rewrite ?Hf; cbn [frame_rank]; lia.
Qed.
Lemma rank_wake_done (th : Thread E) :
  thread_rank (wake_done th) ≤ thread_rank th.
Proof.
  unfold wake_done, thread_rank. destruct (frame th) eqn:Hf; cbn [frame prog log ret set_frame frame_rank];
    rewrite ?Hf; cbn [frame_rank]; lia.
Qed.

Lemma rank_continue c k (th : Thread E) :
  thread_rank (continue k th) + 1 ≤
  thread_rank (set_frame th (CloseOnceDefault c k)).
Proof.
  destruct k; unfold thread_rank;
    cbn [frame prog log ret set_frame frame_rank continue kont_chan]; lia.
Qed.


Lemma measure_set_thread t th th' (s : State E) :
  threads s !! t = Some th →
  measure (set_thread t th' s) =
  measure s - 2 * thread_rank th + 2 * thread_rank th'.
Proof.
  intros Hl. unfold measure. st_cbn. rewrite (sumZ_insert _ _ _ _ _ Hl). lia.
Qed.

Lemma measure_set_actor a (s : State E) :
  measure (set_actor a s) = measure s - actor_rank (actor s) + actor_rank a.
Proof. unfold measure. st_cbn. lia. Qed.

Lemma measure_set_history acc del drp (s : State E) :
  measure (set_history acc del drp s) = measure s.
Proof. done. Qed.

Lemma measure_set_counters sz tot (s : State E) :
  measure (set_counters sz tot s) = measure s.
Proof. done. Qed.

Lemma measure_set_closed pu po sh dn (s : State E) :
  measure (set_closed pu po sh dn s) = measure s.
Proof. done. Qed.

Lemma measure_panic (s : State E) :
  panicked s = false → measure (panic s) = measure s - 1.
Proof. intros H. unfold measure. st_cbn. rewrite H. lia. Qed.

Lemma measure_wake w (s : State E) :
  (∀ th, thread_rank (w th) ≤ thread_rank th) →
  measure (set_threads (w <$> threads s) s) ≤ measure s.
Proof.
  intros H. unfold measure. st_cbn.
  pose proof (sumZ_fmap_le thread_rank w (threads s) H). lia.
Qed.

Ltac ms Hl :=
  repeat first
    [ rewrite measure_set_history | rewrite measure_set_counters
    | rewrite measure_set_closed | rewrite measure_set_actor
    | rewrite (measure_set_thread _ _ _ _ Hl) ];
  st_cbn.

Ltac rk :=
  unfold thread_rank;
  cbn [prog frame log ret set_frame continue frame_rank length].

Lemma actor_rank_parked (a : Actor E) :
  parked a = true → actor_rank a = 3 + (if a_pushc a then 2 else 0).
Proof. intros H%parked_true. unfold actor_rank. by rewrite H. Qed.

Lemma measure_push_select t th ctx e b rest (s s' : State E) :
  threads s !! t = Some th → frame th = Idle → prog th = CPush ctx e :: rest →
  panicked s = false →
  push_select t (mkThread rest Idle (log th)) ctx e b s = Some s' →
  measure s' < measure s.
Proof.
  intros Hl Hf Hp Hpan H. unfold push_select in H.
  assert (thread_rank th = 7 * Z.of_nat (length rest) + 7) as Hr.
  { unfold thread_rank. rewrite Hf, Hp. cbn [length frame_rank]. lia. }
  repeat case_match; simplify_eq; try (rewrite (measure_panic _ Hpan); lia);
    ms Hl; rewrite Hr; rk; try lia.
  match goal with H : _ && _ = true |- _ => apply andb_true_iff in H as [Hw Hu] end.
  rewrite (actor_rank_parked _ Hw), Hu.
  pose proof (actor_rank_after_select (queue (actor s) ++ [e]) (next (actor s))
                (a_pushc (actor s)) (a_popc (actor s))) as Ha.
  rewrite Hu in Ha. unfold actor_recv. rewrite Hu. lia.
Qed.

Lemma measure_pop_select t th ctx b rest (s s' : State E) :
  threads s !! t = Some th → frame th = Idle → prog th = CPop ctx :: rest →
  pop_select zero t (mkThread rest Idle (log th)) ctx b s = Some s' →
  measure s' < measure s.
Proof.
  intros Hl Hf Hp H. unfold pop_select in H.
  assert (thread_rank th = 7 * Z.of_nat (length rest) + 7) as Hr.
  { unfold thread_rank. rewrite Hf, Hp. cbn [length frame_rank]. lia. }
  repeat case_match; simplify_eq; ms Hl; rewrite Hr; rk; try lia.
  match goal with H : _ && _ = true |- _ => apply andb_true_iff in H as [Hw Hu] end.
  rewrite (actor_rank_parked _ Hw).
  pose proof (actor_rank_after_select (queue (actor s)) (next (actor s))
                (a_pushc (actor s)) false) as Ha.
  unfold actor_sent. lia.
Qed.

(** [closeOnce] entered from a frame of rank [r] with [r] larger than the
    rank of the frame before [close]. *)
Lemma measure_closeOnce_select t th th1 c k b (s s' : State E) :
  threads s !! t = Some th →
  thread_rank (set_frame th1 (CloseOnceDefault c k)) < thread_rank th →
  closeOnce_select t th1 c k b s = Some s' →
  measure s' < measure s.
Proof.
  intros Hl Hr H. unfold closeOnce_select in H.
  pose proof (rank_continue c k th1) as Hc.
  destruct b; try done.
  - case_match; simplify_eq. ms Hl. lia.
  - destruct c; [|done]. destruct (threads s !! t0) as [th'|] eqn:Hl'; [|done].
    destruct (frame th') eqn:Hf'; try done. simplify_eq.
    rewrite measure_set_history.
    destruct (decide (t = t0)) as [->|Hne].
    + unfold measure. st_cbn.
      rewrite list_insert_insert_eq, (sumZ_insert _ _ _ _ _ Hl). lia.
    + rewrite (measure_set_thread t th).
      2:{ st_cbn. by rewrite list_lookup_insert_ne. }
      rewrite (measure_set_thread _ _ _ _ Hl').
      assert (thread_rank (set_frame th' PushSent) < thread_rank th').
      { rk. rewrite Hf'. cbn [frame_rank]. lia. }
      lia.
  - case_match; simplify_eq. ms Hl. lia.
Qed.

Lemma measure_closeOnce_close t th c k (s : State E) :
  threads s !! t = Some th → frame th = CloseOnceDefault c k →
  panicked s = false →
  measure (closeOnce_close zero t th c k s) < measure s.
Proof.
  intros Hl Hf Hpan. unfold closeOnce_close.
  destruct (chan_closed c s); [rewrite (measure_panic _ Hpan); lia|].
  pose proof (rank_continue c k th) as Hc.
  assert (thread_rank (set_frame th (CloseOnceDefault c k)) = thread_rank th) as Hsame.
  { rk. by rewrite Hf. }
  destruct c.
  - rewrite (measure_set_thread t th).
    2:{ st_cbn. rewrite list_lookup_fmap, Hl. cbn. unfold wake_pushc. by rewrite Hf. }
    match goal with |- context [set_threads _ ?s0] =>
      pose proof (measure_wake (@wake_pushc E) s0 rank_wake_pushc) as Hw;
      assert (measure s0 ≤ measure s) as Hle end.
    { case_match; ms Hl; [|lia].
      match goal with H : _ && _ = true |- _ => apply andb_true_iff in H as [Hw' Hu] end.
      rewrite (actor_rank_parked _ Hw'), Hu.
      pose proof (actor_rank_after_select (queue (actor s)) (next (actor s))
                    false (a_popc (actor s))) as Ha. cbv iota in Ha.
      unfold actor_recv_closed. lia. }
    revert Hw. case_match; st_cbn; intros Hw; lia.
  - rewrite (measure_set_thread t th).
    2:{ st_cbn. rewrite list_lookup_fmap, Hl. cbn. unfold wake_shutdown. by rewrite Hf. }
    match goal with |- context [set_threads _ ?s0] =>
      pose proof (measure_wake (wake_shutdown zero) s0 rank_wake_shutdown) as Hw;
      assert (measure s0 ≤ measure s) as Hle end.
    { case_match; ms Hl; [|lia].
      match goal with H : actor_waits _ = true |- _ => rename H into Hw' end.
      rewrite (actor_rank_parked _ Hw'). unfold actor_rank. cbn.
      destruct (a_pushc (actor s)); lia. }
    revert Hw. case_match; st_cbn; intros Hw; lia.
Qed.


Lemma measure_waitEmpty_select t th ctx b (s s' : State E) :
  threads s !! t = Some th → frame th = WaitEmptySelect ctx →
  waitEmpty_select t th ctx b s = Some s' →
  measure s' < measure s.
Proof.
  intros Hl Hf H. unfold waitEmpty_select in H.
  assert (thread_rank th = 7 * Z.of_nat (length (prog th)) + 5) as Hr.
  { unfold thread_rank. by rewrite Hf. }
  repeat case_match; simplify_eq; ms Hl; rewrite Hr; rk; lia.
Qed.

Lemma measure_thread_step t th b (s s' : State E) :
  threads s !! t = Some th → panicked s = false →
  thread_step zero t th b s = Some s' →
  measure s' < measure s.
Proof.
  intros Hl Hpan H. unfold thread_step in H.
  destruct (frame th) eqn:Hf; try done.
  - destruct (prog th) as [|c rest] eqn:Hp; [done|].
    assert (thread_rank th = 7 * Z.of_nat (length rest) + 7) as Hr.
    { unfold thread_rank. rewrite Hf, Hp. cbn [length frame_rank]. lia. }
    destruct c; cbn [call_step] in H.
    + by eapply measure_push_select.
    + by eapply measure_pop_select.
    + eapply measure_closeOnce_select; [exact Hl| |exact H]. rewrite Hr. rk. lia.
    + eapply measure_closeOnce_select; [exact Hl| |exact H]. rewrite Hr. rk. lia.
    + eapply measure_closeOnce_select; [exact Hl| |exact H]. rewrite Hr. rk. lia.
    + simplify_eq. ms Hl. rewrite Hr. rk. lia.
  - simplify_eq. rewrite (measure_panic _ Hpan). lia.
  - simplify_eq. ms Hl. rk. rewrite Hf. cbn [frame_rank]. lia.
  - simplify_eq. ms Hl. rk. rewrite Hf. cbn [frame_rank]. lia.
  - simplify_eq. ms Hl. rk. rewrite Hf. cbn [frame_rank]. lia.
  - simplify_eq. by apply measure_closeOnce_close.
  - by eapply measure_waitEmpty_select.
  - eapply measure_closeOnce_select; [exact Hl| |exact H]. rk. rewrite Hf.
    cbn [frame_rank]. lia.
  - case_match; simplify_eq; ms Hl; rk; rewrite Hf; cbn [frame_rank]; lia.
  - simplify_eq. ms Hl. rk. rewrite Hf. cbn [frame_rank]. lia.
Qed.

Lemma measure_actor_step b (s s' : State E) :
  actor_step zero b s = Some s' → measure s' < measure s.
Proof.
  intros H. unfold actor_step in H.
  destruct (a_pc (actor s)) eqn:Hpc; try done.
  - assert (∀ u, a_pushc (actor s) = u →
              actor_rank (actor s) = 4 + (if u then 2 else 0)) as Hr.
    { intros u <-. unfold actor_rank. by rewrite Hpc. }
    destruct b.
    + destruct (threads s !! t) as [th|] eqn:Hl; [|done].
      destruct (frame th) eqn:Hf; try done.
      destruct (a_pushc (actor s)) eqn:Hu; [|done]. simplify_eq.
      ms Hl. unfold actor_recv. rewrite Hu.
      pose proof (actor_rank_after_select (queue (actor s) ++ [e])
                    (next (actor s)) true (a_popc (actor s))) as Ha.
      cbv iota in Ha. rk. rewrite Hf, (Hr _ eq_refl). cbn [frame_rank]. lia.
    + destruct (a_pushc (actor s)) eqn:Hu; [|done].
      destruct (pushc_closed s); [|done]. cbn in H. simplify_eq.
      ms Hl. unfold actor_recv_closed.
      pose proof (actor_rank_after_select (queue (actor s))
                    (next (actor s)) false (a_popc (actor s))) as Ha.
      cbv iota in Ha. rewrite (Hr _ eq_refl). lia.
    + destruct (threads s !! t) as [th|] eqn:Hl; [|done].
      destruct (frame th) eqn:Hf; try done.
      destruct (a_popc (actor s)) eqn:Hu; [|done]. simplify_eq.
      ms Hl. unfold actor_sent.
      pose proof (actor_rank_after_select (queue (actor s))
                    (next (actor s)) (a_pushc (actor s)) false) as Ha.
      rk. rewrite Hf, (Hr _ eq_refl). cbn [frame_rank]. lia.
    + destruct (shutdown_closed s); [|done]. simplify_eq. ms Hl.
      rewrite (Hr _ eq_refl). unfold actor_rank. cbn.
      destruct (a_pushc (actor s)); lia.
    + match type of H with (if ?c then _ else _) = _ => destruct c end; [done|].
      simplify_eq. ms Hl. rewrite (Hr _ eq_refl). unfold actor_rank. cbn. lia.
  - simplify_eq. rewrite measure_set_closed, measure_set_actor. st_cbn.
    pose proof (measure_wake (wake_popc zero) s rank_wake_popc).
    unfold actor_rank at 1 2. cbn. rewrite Hpc. lia.
  - simplify_eq. rewrite measure_set_closed, measure_set_actor. st_cbn.
    pose proof (measure_wake (@wake_done E) s rank_wake_done).
    unfold actor_rank at 1 2. cbn. rewrite Hpc. lia.
Qed.

(** Every step that is not a cancellation uses up the measure. *)
Lemma measure_step a (s s' : State E) :
  is_cancel a = false → step zero a s = Some s' → measure s' < measure s.
Proof.
  intros Hq H. unfold step in H.
  destruct (panicked s) eqn:Hpan; [done|]. destruct a as [t b|b|]; [| |done].
  - destruct (threads s !! t) as [th|] eqn:Hl; [|done].
    by eapply measure_thread_step.
  - by eapply measure_actor_step.
Qed.

Lemma measure_nonneg (s : State E) : 0 ≤ measure s.
Proof.
  unfold measure. pose proof (sumZ_nonneg thread_rank (threads s) thread_rank_nonneg).
  pose proof (actor_rank_bounds (actor s)). destruct (panicked s); lia.
Qed.

Lemma measure_run sch (s s' : State E) :
  quiet sch → run zero sch s = Some s' →
  Z.of_nat (length sch) + measure s' ≤ measure s.
Proof.
  revert s. induction sch as [|a sch IH]; intros s Hq H; cbn in H.
  - simplify_eq. cbn. lia.
  - destruct (step zero a s) as [s1|] eqn:Hs; [|done].
    apply Forall_cons in Hq as [Ha Hq].
    pose proof (measure_step _ _ _ Ha Hs). specialize (IH _ Hq H).
    cbn [length]. lia.
Qed.

Lemma measure_New progs cerr :
  measure (New zero progs cerr) =
  14 * Z.of_nat (length (concat progs)) + 7.
Proof.
  unfold measure, New. st_cbn. cbn [actor_rank a_pc a_pushc].
  assert (sumZ thread_rank ((λ p, mkThread p Idle []) <$> progs) =
          7 * Z.of_nat (length (concat progs))) as ->; [|unfold actor_rank; cbn; lia].
  induction progs as [|p progs IH]; [done|].
  rewrite fmap_cons, sumZ_cons, IH. unfold thread_rank at 1.
  cbn [prog frame frame_rank concat]. rewrite length_app. lia.
Qed.


Lemma existsb_lookup (f : Thread E → bool) l :
  existsb f l = true → ∃ t th, l !! t = Some th ∧ f th = true.
Proof.
  intros (th & Hin & Hf)%existsb_exists. apply list_elem_of_In in Hin.
  apply list_elem_of_lookup_1 in Hin as [t Hl]. by exists t, th.
Qed.

Lemma lookup_existsb (f : Thread E → bool) l t th :
  l !! t = Some th → f th = true → existsb f l = true.
Proof.
  intros Hl Hf. apply existsb_exists. exists th. split; [|done].
  apply list_elem_of_In. by eapply list_elem_of_lookup_2.
Qed.

Lemma cancelled_None (s : State E) ctx :
  ctx_err s (ctx_id ctx) = None → cancelled s ctx = false.
Proof.
  intros H. unfold cancelled. rewrite H. apply bool_decide_eq_false.
  by intros [? ?].
Qed.

Lemma cancelled_Some (s : State E) ctx err :
  ctx_err s (ctx_id ctx) = Some err → cancelled s ctx = true.
Proof. intros H. unfold cancelled. rewrite H. by apply bool_decide_eq_true. Qed.

(** Every select has a case (or blocks, or takes its default). *)
Lemma push_select_enabled t th ctx e (s : State E) :
  ∃ b s', push_select t th ctx e b s = Some s'.
Proof.
  destruct (ctx_err s (ctx_id ctx)) as [err|] eqn:Hc.
  { exists BrCtx. unfold push_select. rewrite Hc. eauto. }
  destruct (shutdown_closed s) eqn:Hsh.
  { exists BrShutdown. unfold push_select. rewrite Hsh. eauto. }
  destruct (pushc_closed s) eqn:Hpu.
  { exists BrChan. unfold push_select. rewrite Hpu. eauto. }
  destruct (actor_waits s && a_pushc (actor s)) eqn:Hw.
  { exists BrChan. unfold push_select. rewrite Hpu, Hw. eauto. }
  exists BrNone. unfold push_select.
  rewrite (cancelled_None _ _ Hc), Hsh, Hpu, Hw. cbn. eauto.
Qed.

Lemma pop_select_enabled t th ctx (s : State E) :
  ∃ b s', pop_select zero t th ctx b s = Some s'.
Proof.
  destruct (cancelled s ctx) eqn:Hc.
  { exists BrCtx. unfold pop_select. rewrite Hc. eauto. }
  destruct (shutdown_closed s) eqn:Hsh.
  { exists BrShutdown. unfold pop_select. rewrite Hsh. eauto. }
  destruct (popc_closed s) eqn:Hpo.
  { exists BrChan. unfold pop_select. rewrite Hpo. eauto. }
  destruct (actor_waits s && a_popc (actor s)) eqn:Hw.
  { exists BrChan. unfold pop_select. rewrite Hpo, Hw. eauto. }
  exists BrNone. unfold pop_select. rewrite Hc, Hsh, Hpo, Hw. cbn. eauto.
Qed.

Lemma closeOnce_select_enabled t th c k (s : State E) :
  ∃ b s', closeOnce_select t th c k b s = Some s'.
Proof.
  destruct (chan_closed c s) eqn:Hc.
  { exists BrChan. unfold closeOnce_select. rewrite Hc. eauto. }
  destruct (sender_blocked c s) eqn:Hb.
  - destruct c; [|done]. cbn in Hb. apply existsb_lookup in Hb as (t' & th' & Hl & Hf).
    exists (BrFrom t'). unfold closeOnce_select. rewrite Hl.
    unfold is_PushParked in Hf. destruct (frame th'); try done. eauto.
  - exists BrNone. unfold closeOnce_select. rewrite Hc, Hb. cbn. eauto.
Qed.

Lemma waitEmpty_select_enabled t th ctx (s : State E) :
  ∃ b s', waitEmpty_select t th ctx b s = Some s'.
Proof.
  destruct (done_closed s) eqn:Hd.
  { exists BrChan. unfold waitEmpty_select. rewrite Hd. eauto. }
  destruct (cancelled s ctx) eqn:Hc.
  { exists BrCtx. unfold waitEmpty_select. rewrite Hc. eauto. }
  exists BrNone. unfold waitEmpty_select. rewrite Hd, Hc. cbn. eauto.
Qed.

(** A client that is neither blocked nor finished can take a step. *)
Lemma thread_enabled t th (s : State E) :
  blocked (frame th) = false → finished th = false →
  ∃ b s', thread_step zero t th b s = Some s'.
Proof.
  intros Hb Hfin. unfold thread_step, finished in *.
  destruct (frame th) eqn:Hf; try done; try (exists BrNone; eauto; fail).
  - destruct (prog th) as [|c rest]; [done|]. destruct c; cbn [call_step].
    + apply push_select_enabled.
    + apply pop_select_enabled.
    + apply closeOnce_select_enabled.
    + apply closeOnce_select_enabled.
    + apply closeOnce_select_enabled.
    + exists BrNone. eauto.
  - apply waitEmpty_select_enabled.
  - apply closeOnce_select_enabled.
  - exists BrNone. destruct (done_closed s); eauto.
Qed.

(** [goqueue] can take a step unless it is blocked in its select or has
    exited. *)
Lemma actor_enabled (s : State E) :
  a_pc (actor s) ≠ AParked → a_pc (actor s) ≠ AExited →
  ∃ b s', actor_step zero b s = Some s'.
Proof.
  intros Hp He. unfold actor_step. cbv zeta.
  destruct (a_pc (actor s)) eqn:Hpc; try done; try (exists APark; eauto; fail).
  destruct (shutdown_closed s) eqn:Hsh.
  { exists AShutdown. rewrite ?Hsh. eauto. }
  destruct (a_pushc (actor s) && pushc_closed s) eqn:Hc.
  { exists ARecvClosed. rewrite ?Hc. eauto. }
  destruct (a_pushc (actor s) && existsb is_PushParked (threads s)) eqn:Hr.
  { apply andb_true_iff in Hr as [Hu (t & th & Hl & Hf)%existsb_lookup].
    exists (ARecvFrom t). rewrite Hl, ?Hu. unfold is_PushParked in Hf.
    destruct (frame th); try done. eauto. }
  destruct (a_popc (actor s) && existsb is_PopParked (threads s)) eqn:Hs.
  { apply andb_true_iff in Hs as [Hu (t & th & Hl & Hf)%existsb_lookup].
    exists (ASendTo t). rewrite Hl, ?Hu. unfold is_PopParked in Hf.
    destruct (frame th); try done. eauto. }
  exists APark. rewrite ?Hsh, ?Hs.
  destruct (a_pushc (actor s)); cbn in *; rewrite ?Hc, ?Hr; cbn; eauto.
Qed.

(** In a state in which nothing can move, [goqueue] is blocked or has
    exited and every client is blocked or finished. *)
Lemma stuck_blocked (s : State E) :
  stuck zero s → panicked s = false →
  (a_pc (actor s) = AParked ∨ a_pc (actor s) = AExited) ∧
  ∀ t th, threads s !! t = Some th →
          blocked (frame th) = true ∨ finished th = true.
Proof.
  intros Hst Hpan. split.
  - destruct (a_pc (actor s)) eqn:Hpc; auto; exfalso;
      (destruct (actor_enabled s) as (b & s' & Hs); [by rewrite Hpc..|]);
      specialize (Hst (ActActor b) eq_refl); unfold step in Hst;
      rewrite Hpan in Hst; congruence.
  - intros t th Hl. destruct (blocked (frame th)) eqn:Hb; [by left|].
    destruct (finished th) eqn:Hf; [by right|].
    destruct (thread_enabled t th s Hb Hf) as (b & s' & Hs).
    specialize (Hst (ActThread t b) eq_refl). unfold step in Hst.
    rewrite Hpan, Hl in Hst. congruence.
Qed.


Lemma runnable_false (s : State E) :
  runnable s = false ↔ stuck zero s.
Proof.
  split.
  - intros Hr a Ha. unfold step. unfold runnable in Hr.
    destruct (panicked s) eqn:Hpan; [done|]. cbn [negb andb] in Hr. apply orb_false_iff in Hr as [Hact Hth].
    destruct a as [t b|b|]; [| |done].
    + destruct (threads s !! t) as [th|] eqn:Hl; [|done].
      assert (negb (blocked (frame th)) && negb (finished th) = false) as Hb.
      { destruct (negb (blocked (frame th)) && negb (finished th)) eqn:Hx; [|done].
        by rewrite (lookup_existsb _ _ _ _ Hl Hx) in Hth. }
      unfold thread_step, finished in *.
      destruct (frame th); try done. by destruct (prog th).
    + unfold actor_step. cbv zeta. by destruct (a_pc (actor s)).
  - intros Hst. unfold runnable. destruct (panicked s) eqn:Hpan; [done|]. cbn.
    destruct (stuck_blocked s Hst Hpan) as [Ha Ht].
    apply orb_false_iff. split; [by destruct Ha as [-> | ->]|].
    destruct (existsb _ (threads s)) eqn:Hx; [|done].
    apply existsb_lookup in Hx as (t & th & Hl & Hf).
    destruct (Ht t th Hl) as [Hb|Hb]; rewrite Hb in Hf; cbn in Hf;
      [done|by rewrite andb_false_r in Hf].
Qed.

(** The results of the sequential queue are those of [seq_next], where
    that is determined. *)
Lemma seq_call_next cerr (A : Abs (E:=E)) c r A' :
  seq_call zero cerr A c r A' →
  seq_next zero cerr A c = Returns r A' ∨ seq_next zero cerr A c = Either.
Proof.
  intros H. inversion H; subst; cbn [seq_next].
  - destruct (cerr (ctx_id ctx)); [by right|]. left.
    match goal with H1 : closed A = false, H2 : shut A = false |- _ =>
      by rewrite H1, H2 end.
  - match goal with H1 : cerr _ = Some _ |- _ => rewrite H1 end. by right.
  - match goal with H1 : shut _ = true |- _ => rewrite H1 end.
    destruct (cerr (ctx_id ctx)); [by right|]. destruct (closed A'); auto.
  - match goal with H1 : bl A = _, H2 : shut A = false |- _ => rewrite H1, H2 end.
    destruct (cerr (ctx_id ctx)); auto.
  - destruct (shut A') eqn:Hsh; [by left|].
    destruct (bl A') eqn:Hbl, (cerr (ctx_id ctx)) eqn:Hc; auto.
    + match goal with H1 : _ ∨ _ |- _ => destruct H1 as [[? ?]|[?|[-> _]]] end;
        try done; by left.
    + match goal with H1 : _ ∨ _ |- _ => destruct H1 as [[? ?]|[?|[_ ?]]] end;
        done.
  - by left.
  - by left.
  - match goal with H1 : _ ∨ _ |- _ =>
      assert (shut A || is_nil (bl A) = true) as ->
        by (destruct H1 as [-> | ->]; [done|by rewrite orb_true_r]) end.
    destruct (cerr (ctx_id ctx)); auto.
  - match goal with H1 : is_Some _ |- _ => destruct H1 as [err ->] end.
    destruct (shut A || is_nil (bl A)); auto.
  - by right.
Qed.

Lemma seq_exec_run cerr (A0 : Abs (E:=E)) cs rs A more res :
  seq_run zero cerr A0 cs rs A →
  seq_exec zero cerr A0 (cs ++ more) = Some res →
  ∃ rs2 B rest,
    seq_exec zero cerr A more = Some (rs2, B, rest) ∧ res = (rs ++ rs2, B, rest).
Proof.
  intros Hrun. revert more res.
  induction Hrun as [A|A cs rs A1 c r A2 Hrun IH Hc]; intros more res Hex.
  - destruct res as [[rs2 B] rest]. by exists rs2, B, rest.
  - rewrite <- app_assoc in Hex. cbn [app] in Hex.
    destruct (IH _ _ Hex) as (rs2 & B & rest & Hex1 & ->).
    cbn [seq_exec] in Hex1.
    destruct (seq_call_next _ _ _ _ _ Hc) as [Hn|Hn]; rewrite Hn in Hex1; [|done].
    destruct (seq_exec zero cerr A2 more) as [[[rs3 B3] rest3]|]; [|done].
    simplify_eq. exists rs3, B, rest. split; [done|].
    by rewrite <- app_assoc.
Qed.

Lemma seq_run_length cerr (A0 : Abs (E:=E)) cs rs A :
  seq_run zero cerr A0 cs rs A → length cs = length rs.
Proof. induction 1; [done|]. rewrite !length_app. cbn. lia. Qed.


(** Where one client can be blocked for good, seen from the sequential
    queue: its call is one that [seq_next] says blocks. *)
Lemma sim_blocked cerr (s : State E) th A c :
  Inv s → threads s = [th] → ctx_err s = cerr → panicked s = false →
  stuck zero s → blocked (frame th) = true →
  in_call cerr A c (abs s) (frame th) →
  seq_next zero cerr A c = Blocks ∧ pending (actor s) = bl A.
Proof.
  intros HI Hth Hce Hpan Hst Hb Hin.
  destruct (stuck_blocked s Hst Hpan) as [Hpc _].
  assert (threads s !! 0%nat = Some th) as Hl by (by rewrite Hth).
  pose proof (thread_ok_lookup s 0 th HI Hl) as Hok.
  destruct HI as [Ha _]. unfold thread_ok, thread_ok_at in Hok.
  assert (alive (a_pc (actor s)) = false → a_pc (actor s) = AExited) as Hex.
  { destruct Hpc as [-> | ->]; done. }
  destruct (frame th) eqn:Hf; try done; cbn [in_call] in Hin.
  - (* Push *)
    destruct Hok as (Hsh & Hpu & _ & Hp). exfalso.
    destruct Hpc as [Hpc|Hpc].
    + specialize (Hp Hpc). pose proof (ok_pushc _ _ _ _ _ _ _ Ha Hp). congruence.
    + destruct (ok_exit _ _ _ _ _ _ _ Ha) as [?|[Hu _]]; [by rewrite Hpc|congruence|].
      pose proof (ok_pushc _ _ _ _ _ _ _ Ha Hu). congruence.
  - (* Pop *)
    destruct Hin as [-> <-]. destruct Hok as (Hsh & Hpo & Hc & Hp).
    destruct Hpc as [Hpc|Hpc].
    2:{ pose proof (ok_popc _ _ _ _ _ _ _ Ha) as Hx. rewrite Hpc in Hx. congruence. }
    specialize (Hp Hpc).
    assert (pending (actor s) = []) as Hpe.
    { unfold pending. rewrite Hp. cbn. apply (ok_queue _ _ _ _ _ _ _ Ha); [|done].
      by rewrite Hpc. }
    assert (pushc_closed s = false) as Hpu.
    { destruct (a_pushc (actor s)) eqn:Hu.
      - by apply (ok_parked _ _ _ _ _ _ _ Ha Hpc).
      - exfalso. apply (ok_work _ _ _ _ _ _ _ Ha); [by rewrite Hpc|done|done]. }
    split; [|done]. cbn [seq_next abs shut bl closed].
    rewrite Hsh, Hpe, <- Hce, Hc, Hpu. done.
  - (* WaitEmpty *)
    destruct Hin as [-> HA]. destruct Hok as (Hdn & Hc).
    destruct Hpc as [Hpc|Hpc].
    2:{ pose proof (ok_done _ _ _ _ _ _ _ Ha) as Hx. rewrite Hpc in Hx. congruence. }
    destruct (ok_parked _ _ _ _ _ _ _ Ha Hpc) as [Hsh Hopen].
    unfold abs in HA. injection HA as Hbl Hpu Hs.
    assert (a_pushc (actor s) = false) as Hu.
    { destruct (a_pushc (actor s)); [|done]. specialize (Hopen eq_refl). congruence. }
    assert (pending (actor s) ≠ []) as Hne.
    { apply (ok_work _ _ _ _ _ _ _ Ha); [by rewrite Hpc|done]. }
    split; [|done]. cbn [seq_next]. rewrite <- Hce, Hc, <- Hs, Hsh, <- Hbl.
    destruct (pending (actor s)); done.
  - (* <-q.done after Shutdown *)
    destruct Hok as [Hdn Hsh]. exfalso. destruct Hpc as [Hpc|Hpc].
    + destruct (ok_parked _ _ _ _ _ _ _ Ha Hpc). congruence.
    + pose proof (ok_done _ _ _ _ _ _ _ Ha) as Hx. rewrite Hpc in Hx. congruence.
Qed.


(** ** One client: every run is the sequential run *)
Lemma one_client_stuck p cerr (s : State E) rs B rest :
  sim zero p cerr s → runnable s = false →
  seq_exec zero cerr (mkAbs [] false false) p = Some (rs, B, rest) →
  ∃ th, threads s = [th] ∧ log th = rs ∧ pending (actor s) = bl B ∧
        match rest with
        | [] => panicked s = false ∧ frame th = Idle ∧ prog th = []
        | CPush _ _ :: _ => panicked s = true
        | _ => panicked s = false ∧ blocked (frame th) = true
        end.
Proof.
  intros (th & A & Hth & Hce & HI & Hrun & Hfr) Hr Hex.
  exists th. split; [done|].
  rewrite <- (take_drop (length (log th)) p) in Hex.
  destruct (seq_exec_run _ _ _ _ _ _ _ Hrun Hex)
    as (rs2 & B' & rest' & Hex2 & Heq). injection Heq as -> <- <-.
  destruct (panicked s) eqn:Hpan.
  - (* the client panicked: a Push on the closed queue *)
    destruct (frame th) eqn:Hf; try (by destruct Hfr).
    destruct Hfr as (Hp & Habs & Hpush).
    destruct (Hpush eq_refl) as (ctx & e & more & Hp' & Hcl).
    rewrite <- Hp, Hp' in Hex2. cbn [seq_exec seq_next] in Hex2.
    destruct (cerr (ctx_id ctx)); [done|]. rewrite Hcl in Hex2.
    destruct (shut A); [done|]. simplify_eq.
    by rewrite app_nil_r.
  - apply runnable_false in Hr.
    destruct (stuck_blocked s Hr Hpan) as [_ Ht].
    destruct (Ht 0%nat th) as [Hb|Hfin]; [by rewrite Hth| |].
    + (* blocked *)
      destruct (frame th) eqn:Hf; try done;
        destruct Hfr as (_ & c & Hl & Hp & Hin);
        rewrite <- Hf in Hin, Hb;
        destruct (sim_blocked cerr s th A c HI Hth Hce Hpan Hr Hb Hin)
          as [Hn Hpe];
        rewrite (drop_S _ _ _ Hl) in Hex2; cbn [seq_exec] in Hex2;
        rewrite Hn in Hex2; simplify_eq; rewrite app_nil_r;
        (split; [done|]); (split; [done|]);
        rewrite Hf in Hin; cbn [in_call] in Hin;
        destruct Hin as [-> _] || (exfalso; exact Hin) || idtac; try done.
      * cbn [seq_next] in Hn.
        by destruct (ctx_err s (ctx_id ctx)), (closed B), (shut B).
      * by destruct Hin as (? & -> & _).
    + (* finished *)
      unfold finished in Hfin. destruct (frame th) eqn:Hf; try done.
      destruct (prog th) eqn:Hp; [|done].
      destruct Hfr as (Hp' & Habs & _). rewrite <- Hp' in Hex2.
      cbn in Hex2. simplify_eq. rewrite app_nil_r. by split_and!.
Qed.

End Progress.

Section Sequential.
Context {E : Type} (zero : E).

Lemma seq_exec_app cerr (A : Abs (E:=E)) cs1 cs2 :
  seq_exec zero cerr A (cs1 ++ cs2) =
  match seq_exec zero cerr A cs1 with
  | Some (rs, B, []) =>
      match seq_exec zero cerr B cs2 with
      | Some (rs2, C, rest) => Some (rs ++ rs2, C, rest)
      | None => None
      end
  | Some (rs, B, rest) => Some (rs, B, rest ++ cs2)
  | None => None
  end.
Proof.
  revert A. induction cs1 as [|c cs1 IH]; intros A; cbn [app seq_exec].
  - by destruct (seq_exec zero cerr A cs2) as [[[rs2 C] rest]|].
  - destruct (seq_next zero cerr A c) as [r A'| | |]; try done.
    rewrite IH. destruct (seq_exec zero cerr A' cs1) as [[[rs B] [|c' rest]]|]; try done.
    by destruct (seq_exec zero cerr B cs2) as [[[rs2 C] rest2]|].
Qed.

Lemma seq_exec_pushes cerr c q (es : list E) :
  cerr (ctx_id c) = None →
  seq_exec zero cerr (mkAbs q false false) (CPush c <$> es) =
  Some (replicate (length es) (RPush None), mkAbs (q ++ es) false false, []).
Proof.
  intros Hc. revert q. induction es as [|e es IH]; intros q.
  - cbn. by rewrite app_nil_r.
  - cbn [fmap list_fmap seq_exec seq_next]. rewrite Hc. cbn [closed shut bl].
    change (list_fmap _ _ ?f es) with (f <$> es). rewrite IH.
    cbn. by rewrite <- app_assoc.
Qed.

(** Pops on the sequential queue that is not shut down: the first
    [length q] return the backlog in order; the others return
    [(zero, false)] when the queue is closed and block when it is not. *)
Lemma seq_exec_pops cerr c (q : list E) cl n :
  cerr (ctx_id c) = None →
  seq_exec zero cerr (mkAbs q cl false) (replicate n (CPop c)) =
  Some (((λ e, RPop e true) <$> take n q) ++
          (if cl then replicate (n - length q) (RPop zero false) else []),
        mkAbs (drop n q) cl false,
        if cl then [] else replicate (n - length q) (CPop c)).
Proof.
  intros Hc. revert q. induction n as [|n IH]; intros q.
  - cbn. rewrite drop_0. by destruct cl.
  - cbn [replicate seq_exec seq_next shut bl closed]. rewrite Hc.
    destruct q as [|x q].
    + destruct cl.
      * specialize (IH []). cbn [closed] in IH |- *. rewrite IH.
        cbn [length]. rewrite !Nat.sub_0_r, !take_nil, !drop_nil. done.
      * done.
    + cbn [closed]. rewrite IH. by cbn.
Qed.


Lemma runnable_step (s : State E) :
  runnable s = true →
  ∃ a s', is_cancel a = false ∧ step zero a s = Some s'.
Proof.
  unfold runnable, step. destruct (panicked s); [done|]. cbn [negb andb].
  intros [Ha|Ht]%orb_true_iff.
  - destruct (actor_enabled zero s) as (b & s' & Hs).
    + intros Hp. by rewrite Hp in Ha.
    + intros Hp. by rewrite Hp in Ha.
    + by exists (ActActor b), s'.
  - apply existsb_lookup in Ht as (t & th & Hl & [Hb Hf]%andb_true_iff).
    destruct (thread_enabled zero t th s) as (b & s' & Hs).
    + by destruct (blocked (frame th)).
    + by destruct (finished th).
    + exists (ActThread t b), s'. by rewrite Hl.
Qed.

Lemma completes n (s : State E) :
  measure s ≤ Z.of_nat n →
  ∃ sch s', quiet sch ∧ run zero sch s = Some s' ∧ runnable s' = false.
Proof.
  revert s. induction n as [|n IH]; intros s Hm;
    (destruct (runnable s) eqn:Hr; [|by exists [], s; split_and!; [constructor|..]]);
    destruct (runnable_step s Hr) as (a & s1 & Ha & Hs);
    pose proof (measure_step zero _ _ _ Ha Hs) as Hlt.
  - pose proof (measure_nonneg s1). lia.
  - destruct (IH s1) as (sch & s' & Hq & Hrun & Hst); [lia|].
    exists (a :: sch), s'. split_and!; [by constructor| |done].
    cbn. by rewrite Hs.
Qed.

(** X14.  From [New], with any clients and any contexts, there is a
    schedule without cancellations that runs until no goroutine can
    move. *)
Theorem run_to_completion progs cerr :
  ∃ sch (s : State E),
    quiet sch ∧ run zero sch (New zero progs cerr) = Some s ∧ runnable s = false.
Proof.
  apply (completes (Z.to_nat (measure (New zero progs cerr)))).
  pose proof (measure_nonneg (New zero progs cerr)). lia.
Qed.

(** X15.  A run without cancellations takes at most 14 steps for each
    call of the clients, and 7: no goroutine spins. *)
Theorem quiet_runs_bounded progs cerr sch (s : State E) :
  quiet sch → run zero sch (New zero progs cerr) = Some s →
  Z.of_nat (length sch) ≤ 14 * Z.of_nat (length (concat progs)) + 7.
Proof.
  intros Hq Hrun. pose proof (measure_run zero _ _ _ Hq Hrun) as H.
  rewrite measure_New in H. pose proof (measure_nonneg s). lia.
Qed.

(** X2.  One client, making its calls one after the other, on any
    schedule without cancellations: the results of the calls completed
    so far are results the sequential queue [seq_call] allows for these
    calls in this order, and between two calls the backlog and the two
    closed flags are those of the sequential queue. *)
Theorem one_client_refines p cerr sch (s : State E) :
  quiet sch → run zero sch (New zero [p] cerr) = Some s →
  ∃ th A,
    threads s = [th] ∧
    seq_run zero cerr (mkAbs [] false false)
      (take (length (log th)) p) (log th) A ∧
    (frame th = Idle → abs s = A).
Proof.
  intros Hq Hrun.
  destruct (sim_run zero p cerr sch _ s (sim_New zero p cerr) Hq Hrun)
    as (th & A & Hth & _ & _ & Hseq & Hfr).
  exists th, A. split_and!; [done|done|]. intros Hf. rewrite Hf in Hfr.
  by destruct Hfr as (_ & ? & _).
Qed.

Lemma one_client_exec p cerr sch (s : State E) rs B rest :
  quiet sch → run zero sch (New zero [p] cerr) = Some s →
  runnable s = false →
  seq_exec zero cerr (mkAbs [] false false) p = Some (rs, B, rest) →
  ∃ th, threads s = [th] ∧ log th = rs ∧ pending (actor s) = bl B ∧
        match rest with
        | [] => panicked s = false ∧ frame th = Idle ∧ prog th = []
        | CPush _ _ :: _ => panicked s = true
        | _ => panicked s = false ∧ blocked (frame th) = true
        end.
Proof.
  intros Hq Hrun Hst Hex. eapply one_client_stuck; [|done..].
  exact (sim_run zero p cerr sch _ s (sim_New zero p cerr) Hq Hrun).
Qed.

(** X3.  One client, on any schedule without cancellations that runs
    until nothing can move: where the sequential queue [seq_exec]
    determines the calls, the client has got exactly its results; it has
    finished when all calls return, it is blocked when the first call
    that does not return blocks, and the program has panicked when that
    call is a [Push] on the closed queue. *)
Theorem one_client_sequential p cerr sch (s : State E) rs B rest :
  quiet sch → run zero sch (New zero [p] cerr) = Some s →
  runnable s = false →
  seq_exec zero cerr (mkAbs [] false false) p = Some (rs, B, rest) →
  ∃ th, threads s = [th] ∧ log th = rs ∧ pending (actor s) = bl B ∧
        match rest with
        | [] => panicked s = false ∧ frame th = Idle ∧ prog th = []
        | CPush _ _ :: _ => panicked s = true
        | _ => panicked s = false ∧ blocked (frame th) = true
        end.
Proof. apply one_client_exec. Qed.


(** X4.  One client pushes [es] and then pops [n] times, with a context
    that is not cancelled: every [Push] returns nil, the pops return the
    first [n] elements of [es] in order, each with [open = true]; the
    rest stays pending; the client finishes when [n] is at most the
    number of elements and otherwise blocks in the first [Pop] that
    finds the queue empty. *)
Theorem fifo_one_client c (es : list E) n cerr sch (s : State E) :
  cerr (ctx_id c) = None → quiet sch →
  run zero sch (New zero [(CPush c <$> es) ++ replicate n (CPop c)] cerr) = Some s →
  runnable s = false →
  ∃ th, threads s = [th] ∧ panicked s = false ∧
        log th = replicate (length es) (RPush None) ++
                 ((λ e, RPop e true) <$> take n es) ∧
        pending (actor s) = drop n es ∧
        ((n ≤ length es)%nat → frame th = Idle ∧ prog th = []) ∧
        ((length es < n)%nat → blocked (frame th) = true).
Proof.
  intros Hc Hq Hrun Hst.
  assert (seq_exec zero cerr (mkAbs [] false false)
            ((CPush c <$> es) ++ replicate n (CPop c)) =
          Some (replicate (length es) (RPush None) ++
                  ((λ e, RPop e true) <$> take n es),
                mkAbs (drop n es) false false,
                replicate (n - length es) (CPop c))) as Hex.
  { rewrite seq_exec_app, (seq_exec_pushes _ _ _ _ Hc). cbn [app].
    rewrite (seq_exec_pops _ _ _ _ _ Hc). by rewrite app_nil_r. }
  destruct (one_client_exec _ _ _ _ _ _ _ Hq Hrun Hst Hex)
    as (th & Hth & Hlog & Hpe & Hrest).
  exists th. destruct (decide (n ≤ length es)%nat) as [Hn|Hn].
  - replace (n - length es)%nat with 0%nat in Hrest by lia.
    destruct Hrest as (? & ? & ?). split_and!; try done; lia.
  - destruct (n - length es)%nat as [|k] eqn:Hk; [lia|].
    destruct Hrest as (? & ?). split_and!; try done; lia.
Qed.

(** X5.  One client pushes [es], calls [Close] and pops [n] times: the
    pops return the elements of [es] in order with [open = true], every
    further [Pop] returns the zero value and false, and no call blocks. *)
Theorem close_then_drain c (es : list E) n cerr sch (s : State E) :
  cerr (ctx_id c) = None → quiet sch →
  run zero sch
    (New zero [(CPush c <$> es) ++ CClose :: replicate n (CPop c)] cerr) = Some s →
  runnable s = false →
  ∃ th, threads s = [th] ∧ panicked s = false ∧
        frame th = Idle ∧ prog th = [] ∧
        log th = replicate (length es) (RPush None) ++
                 RClose :: ((λ e, RPop e true) <$> take n es) ++
                 replicate (n - length es) (RPop zero false).
Proof.
  intros Hc Hq Hrun Hst.
  assert (seq_exec zero cerr (mkAbs [] false false)
            ((CPush c <$> es) ++ CClose :: replicate n (CPop c)) =
          Some (replicate (length es) (RPush None) ++
                  RClose :: ((λ e, RPop e true) <$> take n es) ++
                  replicate (n - length es) (RPop zero false),
                mkAbs (drop n es) true false, [])) as Hex.
  { rewrite seq_exec_app, (seq_exec_pushes _ _ _ _ Hc). cbn [app].
    cbn [seq_exec seq_next bl closed shut].
    by rewrite (seq_exec_pops _ _ _ _ _ Hc). }
  destruct (one_client_exec _ _ _ _ _ _ _ Hq Hrun Hst Hex)
    as (th & Hth & Hlog & Hpe & ? & ? & ?).
  by exists th.
Qed.

(** X6.  [WaitEmpty] with an already cancelled context on a queue with
    pending elements returns false and leaves the queue shut down: the
    [Pop] after it returns the zero value and false, and the elements
    stay undelivered. *)
Theorem waitEmpty_cancelled c c' err (es : list E) cerr sch (s : State E) :
  cerr (ctx_id c) = None → cerr (ctx_id c') = Some err → es ≠ [] → quiet sch →
  run zero sch
    (New zero [(CPush c <$> es) ++ [CWaitEmpty c'; CPop c]] cerr) = Some s →
  runnable s = false →
  ∃ th, threads s = [th] ∧ panicked s = false ∧
        frame th = Idle ∧ prog th = [] ∧
        log th = replicate (length es) (RPush None) ++
                 [RWaitEmpty false; RPop zero false] ∧
        pending (actor s) = es.
Proof.
  intros Hc Hc' Hne Hq Hrun Hst.
  assert (seq_exec zero cerr (mkAbs [] false false)
            ((CPush c <$> es) ++ [CWaitEmpty c'; CPop c]) =
          Some (replicate (length es) (RPush None) ++
                  [RWaitEmpty false; RPop zero false],
                mkAbs es true true, [])) as Hex.
  { rewrite seq_exec_app, (seq_exec_pushes _ _ _ _ Hc). cbn [app].
    cbn [seq_exec seq_next bl closed shut]. rewrite Hc'.
    destruct es; [done|]. done. }
  destruct (one_client_exec _ _ _ _ _ _ _ Hq Hrun Hst Hex)
    as (th & Hth & Hlog & Hpe & ? & ? & ?).
  by exists th.
Qed.

(** X7.  After as many pops as pushes, [WaitEmpty] with a live context
    returns true, and the client finishes. *)
Theorem waitEmpty_drained c (es : list E) cerr sch (s : State E) :
  cerr (ctx_id c) = None → quiet sch →
  run zero sch
    (New zero [(CPush c <$> es) ++ replicate (length es) (CPop c) ++
               [CWaitEmpty c]] cerr) = Some s →
  runnable s = false →
  ∃ th, threads s = [th] ∧ panicked s = false ∧
        frame th = Idle ∧ prog th = [] ∧
        log th = replicate (length es) (RPush None) ++
                 ((λ e, RPop e true) <$> es) ++ [RWaitEmpty true].
Proof.
  intros Hc Hq Hrun Hst.
  assert (seq_exec zero cerr (mkAbs [] false false)
            ((CPush c <$> es) ++ replicate (length es) (CPop c) ++
             [CWaitEmpty c]) =
          Some (replicate (length es) (RPush None) ++
                  ((λ e, RPop e true) <$> es) ++ [RWaitEmpty true],
                mkAbs [] true false, [])) as Hex.
  { rewrite seq_exec_app, (seq_exec_pushes _ _ _ _ Hc). cbn [app].
    rewrite seq_exec_app, (seq_exec_pops _ _ _ _ _ Hc).
    rewrite Nat.sub_diag, firstn_all, drop_all. cbn [replicate].
    cbn [seq_exec seq_next bl closed shut is_nil orb]. rewrite Hc.
    by rewrite !app_nil_r. }
  destruct (one_client_exec _ _ _ _ _ _ _ Hq Hrun Hst Hex)
    as (th & Hth & Hlog & Hpe & ? & ? & ?).
  by exists th.
Qed.

(** X8.  [WaitEmpty] with a live context on a queue with pending
    elements that nobody pops does not return: the client stays blocked
    in it and the elements stay pending. *)
Theorem waitEmpty_blocks c (es : list E) more cerr sch (s : State E) :
  cerr (ctx_id c) = None → es ≠ [] → quiet sch →
  run zero sch (New zero [(CPush c <$> es) ++ CWaitEmpty c :: more] cerr) = Some s →
  runnable s = false →
  ∃ th, threads s = [th] ∧ panicked s = false ∧
        blocked (frame th) = true ∧
        log th = replicate (length es) (RPush None) ∧
        pending (actor s) = es.
Proof.
  intros Hc Hne Hq Hrun Hst.
  assert (seq_exec zero cerr (mkAbs [] false false)
            ((CPush c <$> es) ++ CWaitEmpty c :: more) =
          Some (replicate (length es) (RPush None),
                mkAbs es false false, CWaitEmpty c :: more)) as Hex.
  { rewrite seq_exec_app, (seq_exec_pushes _ _ _ _ Hc). cbn [app].
    cbn [seq_exec seq_next bl closed shut]. rewrite Hc.
    destruct es; [done|]. cbn. by rewrite app_nil_r. }
  destruct (one_client_exec _ _ _ _ _ _ _ Hq Hrun Hst Hex)
    as (th & Hth & Hlog & Hpe & ? & ?).
  by exists th.
Qed.

(** X9.  After [Shutdown], [WaitEmpty] with a live context returns true
    although the pushed elements were never delivered: true says that
    [goqueue] has returned, not that the queue was drained. *)
Theorem waitEmpty_after_shutdown c (es : list E) cerr sch (s : State E) :
  cerr (ctx_id c) = None → quiet sch →
  run zero sch
    (New zero [(CPush c <$> es) ++ [CShutdown; CWaitEmpty c]] cerr) = Some s →
  runnable s = false →
  ∃ th, threads s = [th] ∧ panicked s = false ∧
        frame th = Idle ∧ prog th = [] ∧
        log th = replicate (length es) (RPush None) ++
                 [RShutdown; RWaitEmpty true] ∧
        pending (actor s) = es.
Proof.
  intros Hc Hq Hrun Hst.
  assert (seq_exec zero cerr (mkAbs [] false false)
            ((CPush c <$> es) ++ [CShutdown; CWaitEmpty c]) =
          Some (replicate (length es) (RPush None) ++
                  [RShutdown; RWaitEmpty true],
                mkAbs es true true, [])) as Hex.
  { rewrite seq_exec_app, (seq_exec_pushes _ _ _ _ Hc). cbn [app].
    cbn [seq_exec seq_next bl closed shut orb]. by rewrite Hc. }
  destruct (one_client_exec _ _ _ _ _ _ _ Hq Hrun Hst Hex)
    as (th & Hth & Hlog & Hpe & ? & ? & ?).
  by exists th.
Qed.

End Sequential.

Lemma fifo_one_client_witness :
  ∃ s, run 0%nat
         (push_steps ++ push_steps ++ pop_steps ++ pop_steps ++ [ActActor APark])
         (New 0%nat [(CPush c0 <$> [1; 2]%nat) ++ replicate 2 (CPop c0)] live)
       = Some s ∧
       ∃ th, threads s = [th] ∧ panicked s = false ∧
             log th = replicate 2 (RPush None) ++
                      ((λ e, RPop e true) <$> take 2 [1; 2]%nat) ∧
             pending (actor s) = drop 2 [1; 2]%nat ∧
             ((2 ≤ 2)%nat → frame th = Idle ∧ prog th = []) ∧
             ((2 < 2)%nat → blocked (frame th) = true).
Proof.
  eexists. split; [vm_compute; reflexivity|].
  apply (fifo_one_client 0%nat c0 [1; 2]%nat 2 live
           (push_steps ++ push_steps ++ pop_steps ++ pop_steps ++ [ActActor APark]));
    [reflexivity|vm_compute; repeat constructor|vm_compute; reflexivity|
     vm_compute; reflexivity].
Defined.

Lemma close_then_drain_witness :
  ∃ s, run 0%nat
         (push_steps ++ push_steps ++ push_steps ++ close_steps ++
          [ActActor ARecvClosed] ++ pop_steps ++ pop_steps ++ pop_steps ++
          exit_steps ++ [ActThread 0 BrChan])
         (New 0%nat [(CPush c0 <$> [1; 2; 3]%nat) ++
                     CClose :: replicate 4 (CPop c0)] live)
       = Some s ∧
       ∃ th, threads s = [th] ∧ panicked s = false ∧
             frame th = Idle ∧ prog th = [] ∧
             log th = replicate 3 (RPush None) ++
                      RClose :: ((λ e, RPop e true) <$> take 4 [1; 2; 3]%nat) ++
                      replicate (4 - 3) (RPop 0%nat false).
Proof.
  eexists. split; [vm_compute; reflexivity|].
  apply (close_then_drain 0%nat c0 [1; 2; 3]%nat 4 live
           (push_steps ++ push_steps ++ push_steps ++ close_steps ++
            [ActActor ARecvClosed] ++ pop_steps ++ pop_steps ++ pop_steps ++
            exit_steps ++ [ActThread 0 BrChan]));
    [reflexivity|vm_compute; repeat constructor|vm_compute; reflexivity|
     vm_compute; reflexivity].
Defined.

Lemma waitEmpty_cancelled_witness :
  ∃ s, run 0%nat
         (push_steps ++ close_steps ++ [ActThread 0 BrCtx] ++ close_steps ++
          [ActActor AShutdown] ++ exit_steps ++
          [ActThread 0 BrNone; ActThread 0 BrShutdown])
         (New 0%nat [(CPush c0 <$> [7%nat]) ++ [CWaitEmpty c1; CPop c0]]
            c1_cancelled)
       = Some s ∧
       ∃ th, threads s = [th] ∧ panicked s = false ∧
             frame th = Idle ∧ prog th = [] ∧
             log th = replicate 1 (RPush None) ++
                      [RWaitEmpty false; RPop 0%nat false] ∧
             pending (actor s) = [7%nat].
Proof.
  eexists. split; [vm_compute; reflexivity|].
  apply (waitEmpty_cancelled 0%nat c0 c1 Ctxerr.Canceled [7%nat] c1_cancelled
           (push_steps ++ close_steps ++ [ActThread 0 BrCtx] ++ close_steps ++
            [ActActor AShutdown] ++ exit_steps ++
            [ActThread 0 BrNone; ActThread 0 BrShutdown]));
    [reflexivity|reflexivity|discriminate|vm_compute; repeat constructor|
     vm_compute; reflexivity|vm_compute; reflexivity].
Defined.

Lemma waitEmpty_drained_witness :
  ∃ s, run 0%nat
         (push_steps ++ pop_steps ++ close_steps ++ [ActActor ARecvClosed] ++
          exit_steps ++ [ActThread 0 BrChan])
         (New 0%nat [(CPush c0 <$> [7%nat]) ++ replicate 1 (CPop c0) ++
                     [CWaitEmpty c0]] live)
       = Some s ∧
       ∃ th, threads s = [th] ∧ panicked s = false ∧
             frame th = Idle ∧ prog th = [] ∧
             log th = replicate 1 (RPush None) ++
                      ((λ e, RPop e true) <$> [7%nat]) ++ [RWaitEmpty true].
Proof.
  eexists. split; [vm_compute; reflexivity|].
  apply (waitEmpty_drained 0%nat c0 [7%nat] live
           (push_steps ++ pop_steps ++ close_steps ++ [ActActor ARecvClosed] ++
            exit_steps ++ [ActThread 0 BrChan]));
    [reflexivity|vm_compute; repeat constructor|vm_compute; reflexivity|
     vm_compute; reflexivity].
Defined.

Lemma waitEmpty_blocks_witness :
  ∃ s, run 0%nat
         (push_steps ++ close_steps ++
          [ActActor ARecvClosed; ActThread 0 BrNone; ActActor APark])
         (New 0%nat [(CPush c0 <$> [7%nat]) ++ CWaitEmpty c0 :: [CPop c0]] live)
       = Some s ∧
       ∃ th, threads s = [th] ∧ panicked s = false ∧
             blocked (frame th) = true ∧
             log th = replicate 1 (RPush None) ∧
             pending (actor s) = [7%nat].
Proof.
  eexists. split; [vm_compute; reflexivity|].
  apply (waitEmpty_blocks 0%nat c0 [7%nat] [CPop c0] live
           (push_steps ++ close_steps ++
            [ActActor ARecvClosed; ActThread 0 BrNone; ActActor APark]));
    [reflexivity|discriminate|vm_compute; repeat constructor|
     vm_compute; reflexivity|vm_compute; reflexivity].
Defined.

Lemma waitEmpty_after_shutdown_witness :
  ∃ s, run 0%nat
         (push_steps ++ close_steps ++ [ActActor AShutdown] ++ exit_steps ++
          close_steps ++ [ActThread 0 BrChan])
         (New 0%nat [(CPush c0 <$> [7%nat]) ++ [CShutdown; CWaitEmpty c0]] live)
       = Some s ∧
       ∃ th, threads s = [th] ∧ panicked s = false ∧
             frame th = Idle ∧ prog th = [] ∧
             log th = replicate 1 (RPush None) ++ [RShutdown; RWaitEmpty true] ∧
             pending (actor s) = [7%nat].
Proof.
  eexists. split; [vm_compute; reflexivity|].
  apply (waitEmpty_after_shutdown 0%nat c0 [7%nat] live
           (push_steps ++ close_steps ++ [ActActor AShutdown] ++ exit_steps ++
            close_steps ++ [ActThread 0 BrChan]));
    [reflexivity|vm_compute; repeat constructor|vm_compute; reflexivity|
     vm_compute; reflexivity].
Defined.

Lemma one_client_sequential_witness :
  ∃ s, run 0%nat
         (close_steps ++ [ActActor ARecvClosed] ++ exit_steps ++
          [ActThread 0 BrChan])
         (New 0%nat [[CClose; CPush c0 7%nat]] live) = Some s ∧
       ∃ th, threads s = [th] ∧ log th = [RClose] ∧
             pending (actor s) = [] ∧ panicked s = true.
Proof.
  eexists. split; [vm_compute; reflexivity|].
  apply (one_client_sequential 0%nat [CClose; CPush c0 7%nat] live
           (close_steps ++ [ActActor ARecvClosed] ++ exit_steps ++
            [ActThread 0 BrChan])
           _ [RClose] (mkAbs [] true false) [CPush c0 7%nat]);
    [vm_compute; repeat constructor|vm_compute; reflexivity|
     vm_compute; reflexivity|vm_compute; reflexivity].
Defined.

Lemma one_client_refines_witness :
  ∃ s, run 0%nat (push_steps ++ [ActActor APark; ActThread 0 BrChan])
         (New 0%nat [[CPush c0 7%nat; CPop c0]] live) = Some s ∧
       ∃ th A,
         threads s = [th] ∧
         seq_run 0%nat live (mkAbs [] false false)
           (take (length (log th)) [CPush c0 7%nat; CPop c0]) (log th) A ∧
         (frame th = Idle → abs s = A).
Proof.
  eexists. split; [vm_compute; reflexivity|].
  apply (one_client_refines 0%nat [CPush c0 7%nat; CPop c0] live
           (push_steps ++ [ActActor APark; ActThread 0 BrChan]));
    [vm_compute; repeat constructor|vm_compute; reflexivity].
Defined.

Lemma quiet_runs_bounded_witness :
  Z.of_nat (length lost_push_schedule) ≤
  14 * Z.of_nat (length (concat lost_push_progs)) + 7.
Proof.
  eapply (quiet_runs_bounded 0%nat lost_push_progs live lost_push_schedule);
    [vm_compute; repeat constructor|vm_compute; reflexivity].
Defined.

Section Postconditions.
Context {E : Type} (zero : E).

Ltac st_cbn :=
  cbn [threads actor total size accepted dropped delivered pushc_closed
       popc_closed shutdown_closed done_closed ctx_err panicked
       set_thread set_threads set_counters set_history set_actor set_closed
       set_ctx_err panic].

Ltac rw_flags :=
  repeat match goal with
  | H : pushc_closed _ = _ |- _ => rewrite H
  | H : shutdown_closed _ = _ |- _ => rewrite H
  | H : done_closed _ = _ |- _ => rewrite H
  end.

Ltac post_thread HP :=
  unfold Post; st_cbn; rw_flags;
  first [exact HP | apply Forall_insert; [exact HP|]].

Lemma ret_ok_mono pu sh dn (del drp : list E) pu' sh' dn' del' drp' r :
  (pu = true → pu' = true) → (sh = true → sh' = true) →
  (dn = true → dn' = true) → (∀ x, x ∈ del → x ∈ del') →
  (drp ≠ [] → drp' ≠ []) →
  ret_ok_at zero pu sh dn del drp r → ret_ok_at zero pu' sh' dn' del' drp' r.
Proof.
  intros Hpu Hsh Hdn Hdel Hdrp. destruct r as [| x []| | | |]; cbn; auto.
  - intros [?|?]; auto.
  - intros [? ?]; auto.
Qed.

Lemma tp_mono pu sh dn (del drp : list E) pu' sh' dn' del' drp' th :
  (pu = true → pu' = true) → (sh = true → sh' = true) →
  (dn = true → dn' = true) → (∀ x, x ∈ del → x ∈ del') →
  (drp ≠ [] → drp' ≠ []) →
  thread_post_at zero pu sh dn del drp th →
  thread_post_at zero pu' sh' dn' del' drp' th.
Proof.
  intros Hpu Hsh Hdn Hdel Hdrp [Hl Hf]. split.
  - eapply Forall_impl; [exact Hl|]. intros r. by apply ret_ok_mono.
  - destruct (frame th); auto.
Qed.

Lemma tp_ret pu sh dn (del drp : list E) th r :
  thread_post_at zero pu sh dn del drp th → ret_ok_at zero pu sh dn del drp r →
  thread_post_at zero pu sh dn del drp (ret th r).
Proof.
  intros [Hl _] Hr. split; [|done]. cbn. apply Forall_app. split; [done|].
  by constructor.
Qed.

Lemma tp_frame pu sh dn (del drp : list E) th f :
  thread_post_at zero pu sh dn del drp th →
  match f with PopReceived x => x ∈ del | _ => True end →
  thread_post_at zero pu sh dn del drp (set_frame th f).
Proof. intros [Hl _] Hf. by split. Qed.

Lemma tp_call pu sh dn (del drp : list E) th rest :
  thread_post_at zero pu sh dn del drp th →
  thread_post_at zero pu sh dn del drp (mkThread rest Idle (log th)).
Proof. intros [Hl _]. by split. Qed.

Lemma tp_continue pu sh dn (del drp : list E) th k :
  thread_post_at zero pu sh dn del drp th →
  (kont_chan k = pushc → pu = true ∨ drp ≠ []) →
  (kont_chan k = shutdownc → sh = true) →
  thread_post_at zero pu sh dn del drp (continue k th).
Proof.
  intros Hth Hp Hs. destruct k; cbn [continue].
  - apply tp_ret; [done|]. by apply Hp.
  - apply tp_ret; [done|]. by apply Hs.
  - by apply tp_frame.
  - by apply tp_frame.
Qed.

Lemma tp_wake_shutdown pu sh dn (del drp : list E) th :
  thread_post_at zero pu sh dn del drp th →
  thread_post_at zero pu sh dn del drp (wake_shutdown zero th).
Proof.
  intros Hth. unfold wake_shutdown. destruct (frame th); try done;
    by apply tp_ret.
Qed.

Lemma tp_wake_pushc pu sh dn (del drp : list E) th :
  thread_post_at zero pu sh dn del drp th →
  thread_post_at zero pu sh dn del drp (wake_pushc th).
Proof.
  intros Hth. unfold wake_pushc. destruct (frame th); try done.
  by apply tp_frame.
Qed.

Lemma tp_wake_popc pu sh dn (del drp : list E) th :
  thread_post_at zero pu sh dn del drp th →
  thread_post_at zero pu sh dn del drp (wake_popc zero th).
Proof.
  intros Hth. unfold wake_popc. destruct (frame th); try done; by apply tp_ret.
Qed.

Lemma tp_wake_cancel pu sh dn (del drp : list E) id err th :
  thread_post_at zero pu sh dn del drp th →
  thread_post_at zero pu sh dn del drp (wake_cancel zero id err th).
Proof.
  intros Hth. unfold wake_cancel. destruct (frame th); try done;
    case_bool_decide; try done; by (apply tp_ret || apply tp_frame).
Qed.

(** [close(q.done)]: the clients it wakes are in [WaitEmpty]; one that
    waits after its [Shutdown] knows [shutdown] closed. *)
Lemma tp_wake_done a pu po sh cerr (del drp : list E) th :
  thread_ok_at a pu po sh false cerr th →
  thread_post_at zero pu sh false del drp th →
  thread_post_at zero pu sh true del drp (wake_done th).
Proof.
  intros Hok Hth.
  assert (thread_post_at zero pu sh true del drp th) as Hth'.
  { revert Hth. by apply tp_mono. }
  unfold wake_done. unfold thread_ok_at in Hok.
  destruct (frame th); try done; apply tp_ret; try done.
  by destruct Hok.
Qed.

Lemma Post_set_thread t th' (s : State E) :
  Post zero s →
  thread_post_at zero (pushc_closed s) (shutdown_closed s) (done_closed s)
    (delivered s) (dropped s) th' →
  Post zero (set_thread t th' s).
Proof.
  intros HP Hth. unfold Post. st_cbn. apply Forall_insert; [exact HP|exact Hth].
Qed.

Lemma Post_lookup (s : State E) t th :
  Post zero s → threads s !! t = Some th →
  thread_post_at zero (pushc_closed s) (shutdown_closed s) (done_closed s)
    (delivered s) (dropped s) th.
Proof. intros HP Hl. unfold Post in HP. rewrite Forall_lookup in HP. by eapply HP. Qed.

Lemma Post_push_select t th ctx e b (s s' : State E) :
  Post zero s →
  thread_post_at zero (pushc_closed s) (shutdown_closed s) (done_closed s)
    (delivered s) (dropped s) th →
  push_select t th ctx e b s = Some s' → Post zero s'.
Proof.
  intros HP Hth H. unfold push_select in H. unfold Post in HP.
  repeat case_match; simplify_eq; try done;
    post_thread HP; by (apply tp_ret || apply tp_frame).
Qed.

Lemma Post_pop_select t th ctx b (s s' : State E) :
  Post zero s →
  thread_post_at zero (pushc_closed s) (shutdown_closed s) (done_closed s)
    (delivered s) (dropped s) th →
  pop_select zero t th ctx b s = Some s' → Post zero s'.
Proof.
  intros HP Hth H. unfold pop_select in H. unfold Post in HP.
  repeat case_match; simplify_eq; try done;
    try (post_thread HP; by (apply tp_ret || apply tp_frame)).
  unfold Post. st_cbn. rw_flags.
  assert (∀ x, x ∈ delivered s → x ∈ delivered s ++ [next (actor s)]) as Hin.
  { intros x Hx. apply elem_of_app. by left. }
  eapply Forall_insert_mono; [exact HP| |].
  - intros y _. by apply tp_mono.
  - apply tp_frame; [revert Hth; by apply tp_mono|].
    apply elem_of_app. right. by apply list_elem_of_singleton.
Qed.

Lemma Post_closeOnce_select t th c k b (s s' : State E) :
  Post zero s → kont_chan k = c →
  thread_post_at zero (pushc_closed s) (shutdown_closed s) (done_closed s)
    (delivered s) (dropped s) th →
  closeOnce_select t th c k b s = Some s' → Post zero s'.
Proof.
  intros HP Hk Hth H. unfold closeOnce_select in H.
  destruct b; try done.
  - destruct (chan_closed c s) eqn:Hc; [|done]. simplify_eq.
    apply Post_set_thread; [done|]. apply tp_continue; [done| |].
    + intros Hp. rewrite Hp in Hc. by left.
    + intros Hp. by rewrite Hp in Hc.
  - destruct c; [|done]. destruct (threads s !! t0) as [th'|] eqn:Hl; [|done].
    destruct (frame th') eqn:Hf; try done. simplify_eq.
    unfold Post. st_cbn.
    assert (dropped s ++ [e] ≠ []) as Hne by (by destruct (dropped s)).
    apply Forall_insert.
    + eapply Forall_insert_mono; [exact HP| |].
      * intros y _. by apply tp_mono.
      * apply tp_frame; [|done]. pose proof (Post_lookup _ _ _ HP Hl) as Hy.
        revert Hy. by apply tp_mono.
    + apply tp_continue; [revert Hth; by apply tp_mono|by right|].
      intros Hp. congruence.
  - destruct (chan_closed c s || sender_blocked c s); [done|]. simplify_eq.
    apply Post_set_thread; [done|]. by apply tp_frame.
Qed.

Lemma Post_closeOnce_close t th c k (s : State E) :
  Post zero s → kont_chan k = c →
  thread_post_at zero (pushc_closed s) (shutdown_closed s) (done_closed s)
    (delivered s) (dropped s) th →
  Post zero (closeOnce_close zero t th c k s).
Proof.
  intros HP Hk Hth. unfold closeOnce_close.
  destruct (chan_closed c s); [done|]. destruct c.
  - assert (Forall (thread_post_at zero true (shutdown_closed s) (done_closed s)
                      (delivered s) (dropped s)) (wake_pushc <$> threads s)) as HF.
    { eapply Forall_fmap_mono; [exact HP|]. intros y _ Hy.
      apply tp_wake_pushc. revert Hy. by apply tp_mono. }
    assert (thread_post_at zero true (shutdown_closed s) (done_closed s)
              (delivered s) (dropped s) (continue k th)) as Hc.
    { apply tp_continue; [revert Hth; by apply tp_mono|by left|].
      intros Hp. congruence. }
    case_match; unfold Post; st_cbn; by apply Forall_insert.
  - assert (Forall (thread_post_at zero (pushc_closed s) true (done_closed s)
                      (delivered s) (dropped s))
              (wake_shutdown zero <$> threads s)) as HF.
    { eapply Forall_fmap_mono; [exact HP|]. intros y _ Hy.
      apply tp_wake_shutdown. revert Hy. by apply tp_mono. }
    assert (thread_post_at zero (pushc_closed s) true (done_closed s)
              (delivered s) (dropped s) (continue k th)) as Hc.
    { apply tp_continue; [revert Hth; by apply tp_mono| |done].
      intros Hp. congruence. }
    case_match; unfold Post; st_cbn; by apply Forall_insert.
Qed.

Lemma Post_waitEmpty_select t th ctx b (s s' : State E) :
  Post zero s →
  thread_post_at zero (pushc_closed s) (shutdown_closed s) (done_closed s)
    (delivered s) (dropped s) th →
  waitEmpty_select t th ctx b s = Some s' → Post zero s'.
Proof.
  intros HP Hth H. unfold waitEmpty_select in H. unfold Post in HP.
  repeat case_match; simplify_eq; try done;
    post_thread HP; by (apply tp_ret || apply tp_frame).
Qed.

Lemma Post_thread_step t th b (s s' : State E) :
  Inv s → Post zero s → threads s !! t = Some th →
  thread_step zero t th b s = Some s' → Post zero s'.
Proof.
  intros HI HP Hl H. pose proof (Post_lookup _ _ _ HP Hl) as Hth.
  pose proof (thread_ok_lookup s t th HI Hl) as Hok.
  unfold thread_ok, thread_ok_at in Hok.
  unfold thread_step in H. destruct (frame th) eqn:Hf; try done.
  - destruct (prog th) as [|c rest]; [done|].
    pose proof (tp_call _ _ _ _ _ _ rest Hth) as Hth'.
    destruct c; cbn [call_step] in H.
    + by eapply Post_push_select.
    + by eapply Post_pop_select.
    + eapply Post_closeOnce_select; [exact HP| |exact Hth'|exact H]; reflexivity.
    + eapply Post_closeOnce_select; [exact HP| |exact Hth'|exact H]; reflexivity.
    + eapply Post_closeOnce_select; [exact HP| |exact Hth'|exact H]; reflexivity.
    + simplify_eq. apply Post_set_thread; [done|]. by apply tp_frame.
  - by simplify_eq.
  - simplify_eq. apply (Post_set_thread _ _ s); [done|]. by apply tp_frame.
  - simplify_eq. apply (Post_set_thread _ _ s); [done|]. by apply tp_ret.
  - simplify_eq. apply (Post_set_thread _ _ s); [done|]. apply tp_ret; [done|].
    destruct Hth as [_ Hx]. by rewrite Hf in Hx.
  - simplify_eq. by apply Post_closeOnce_close.
  - by eapply Post_waitEmpty_select.
  - eapply Post_closeOnce_select; [exact HP| |exact Hth|exact H]; reflexivity.
  - destruct (done_closed s) eqn:Hdn; simplify_eq;
      (apply Post_set_thread; [done|]); rewrite Hdn.
    + apply tp_ret; [done|]. split; [done|]. intros _. exact Hok.
    + by apply tp_frame.
  - simplify_eq. apply Post_set_thread; [done|]. by apply tp_ret.
Qed.

Lemma Post_actor_step b (s s' : State E) :
  Inv s → Post zero s → actor_step zero b s = Some s' → Post zero s'.
Proof.
  intros HI HP H. unfold actor_step in H. cbv zeta in H.
  destruct (a_pc (actor s)) eqn:Hpc; try done.
  - destruct b.
    + destruct (threads s !! t) as [th|] eqn:Hl; [|done].
      destruct (frame th); try done. destruct (a_pushc (actor s)); [|done].
      simplify_eq. unfold Post. st_cbn. apply Forall_insert; [exact HP|].
      apply tp_frame; [|done]. by eapply Post_lookup.
    + case_match; by simplify_eq.
    + destruct (threads s !! t) as [th|] eqn:Hl; [|done].
      destruct (frame th); try done. destruct (a_popc (actor s)); [|done].
      simplify_eq. unfold Post. st_cbn.
      assert (∀ x, x ∈ delivered s → x ∈ delivered s ++ [next (actor s)]) as Hin.
      { intros x Hx. apply elem_of_app. by left. }
      eapply Forall_insert_mono; [exact HP| |].
      * intros y _. by apply tp_mono.
      * apply tp_frame.
        -- pose proof (Post_lookup _ _ _ HP Hl) as Hy. revert Hy. by apply tp_mono.
        -- apply elem_of_app. right. by apply list_elem_of_singleton.
    + case_match; by simplify_eq.
    + case_match; by simplify_eq.
  - simplify_eq. unfold Post. st_cbn. eapply Forall_fmap_mono; [exact HP|].
    intros y _ Hy. by apply tp_wake_popc.
  - simplify_eq. unfold Post. st_cbn. destruct HI as [Ha Ht].
    pose proof (ok_done _ _ _ _ _ _ _ Ha) as Hdn. rewrite Hpc in Hdn.
    unfold Post in HP. rewrite Forall_forall in Ht, HP.
    apply Forall_fmap, Forall_forall.
    intros y Hy. cbn. specialize (Ht y Hy). specialize (HP y Hy).
    unfold thread_ok in Ht. rewrite Hdn in Ht, HP. by eapply tp_wake_done.
Qed.

Lemma Post_step a (s s' : State E) :
  Inv s → Post zero s → step zero a s = Some s' → Post zero s'.
Proof.
  intros HI HP H. unfold step in H. destruct (panicked s); [done|].
  destruct a as [t b|b|id err].
  - destruct (threads s !! t) as [th|] eqn:Hl; [|done].
    by eapply Post_thread_step.
  - by eapply Post_actor_step.
  - unfold cancel_step in H. destruct (ctx_err s id); [done|]. simplify_eq.
    unfold Post. st_cbn. eapply Forall_fmap_mono; [exact HP|].
    intros y _ Hy. by apply tp_wake_cancel.
Qed.

Lemma Post_New progs cerr : Post zero (New zero progs cerr).
Proof.
  unfold Post, New. st_cbn. apply Forall_fmap, Forall_forall.
  intros p _. by split.
Qed.

Lemma Post_run sch (s s' : State E) :
  Inv s → Post zero s → run zero sch s = Some s' → Post zero s'.
Proof.
  revert s. induction sch as [|a sch IH]; intros s HI HP H; cbn in H.
  - by simplify_eq.
  - destruct (step zero a s) as [s1|] eqn:Hs; [|done].
    eapply IH; [|by eapply Post_step|exact H]. by eapply Inv_step.
Qed.


Lemma reachable_Inv progs cerr sch (s : State E) :
  run zero sch (New zero progs cerr) = Some s → Inv s.
Proof. intros H. eapply (Inv_run zero); [apply Inv_New|exact H]. Qed.

(** X10.  In every state the program reaches: once [Close] has returned,
    [pushc] is closed or [closeOnce] has taken an element from a blocked
    [Push]; once [Shutdown] has returned, [shutdown] is closed; once
    [WaitEmpty] has returned, [goqueue] has exited and closed [done],
    and [shutdown] is closed when the result was false; an element [Pop]
    returned with [open = true] was sent by [goqueue], and with [open =
    false] it is the zero value. *)
Theorem returns_postconditions progs cerr sch (s : State E) t th r :
  run zero sch (New zero progs cerr) = Some s →
  threads s !! t = Some th → r ∈ log th →
  match r with
  | RClose => pushc_closed s = true ∨ dropped s ≠ []
  | RShutdown => shutdown_closed s = true
  | RWaitEmpty b =>
      a_pc (actor s) = AExited ∧ done_closed s = true ∧
      (b = false → shutdown_closed s = true)
  | RPop x o => if o then x ∈ delivered s else x = zero
  | _ => True
  end.
Proof.
  intros Hrun Hl Hr. pose proof (reachable_Inv _ _ _ _ Hrun) as HI.
  assert (Post zero s) as HP.
  { eapply Post_run; [apply (Inv_New zero)|apply Post_New|exact Hrun]. }
  destruct (Post_lookup _ _ _ HP Hl) as [Hlog _].
  rewrite Forall_forall in Hlog. specialize (Hlog r Hr).
  destruct r as [| x o| | |b|]; try exact Hlog.
  destruct Hlog as [Hdn Hsh]. split_and!; try done.
  destruct HI as [Ha _]. pose proof (ok_done _ _ _ _ _ _ _ Ha) as Hd.
  rewrite Hdn in Hd. by destruct (a_pc (actor s)).
Qed.

(** X1.  In every state the program reaches, whatever the clients and
    the schedule, cancellations included: the elements [goqueue] has
    received on [pushc] are, in order, the elements it has handed to
    [Pop] calls followed by the one on offer and the backlog.  Nothing
    is delivered twice, skipped or reordered. *)
Theorem fifo_history progs cerr sch (s : State E) :
  run zero sch (New zero progs cerr) = Some s →
  accepted s = delivered s ++ pending (actor s).
Proof.
  intros Hrun. destruct (reachable_Inv _ _ _ _ Hrun) as [Ha _].
  exact (ok_hist _ _ _ _ _ _ _ Ha).
Qed.

(** X11.  In every state the program reaches: [popc] is closed only
    after [shutdown] was closed or [pushc] was closed and everything
    accepted was delivered; [done] is closed only after [popc], and
    exactly when [goqueue] has exited. *)
Theorem goqueue_exit progs cerr sch (s : State E) :
  run zero sch (New zero progs cerr) = Some s →
  (popc_closed s = true →
   shutdown_closed s = true ∨
   (pushc_closed s = true ∧ pending (actor s) = [])) ∧
  (done_closed s = true → popc_closed s = true) ∧
  (done_closed s = true ↔ a_pc (actor s) = AExited).
Proof.
  intros Hrun. pose proof (reachable_Inv _ _ _ _ Hrun) as HI.
  destruct HI as [Ha Ht].
  pose proof (ok_popc _ _ _ _ _ _ _ Ha) as Hpo.
  pose proof (ok_done _ _ _ _ _ _ _ Ha) as Hdn.
  split_and!.
  - intros Hc. apply (Inv_exit_reason s (conj Ha Ht)).
    rewrite Hc in Hpo. by destruct (a_pc (actor s)).
  - intros Hd. rewrite Hd in Hdn. rewrite Hpo. by destruct (a_pc (actor s)).
  - rewrite Hdn. by destruct (a_pc (actor s)).
Qed.

Lemma Inv_blocked (s : State E) t th :
  Inv s → stuck zero s → panicked s = false → threads s !! t = Some th →
  finished th = true ∨
  (∃ ctx, frame th = PopParked ctx ∧ pending (actor s) = [] ∧
          pushc_closed s = false ∧ shutdown_closed s = false ∧
          ctx_err s (ctx_id ctx) = None) ∨
  (∃ ctx, frame th = WaitEmptyParked ctx ∧ a_pc (actor s) = AParked ∧
          shutdown_closed s = false ∧ ctx_err s (ctx_id ctx) = None).
Proof.
  intros HI Hst Hpan Hl.
  destruct (stuck_blocked zero s Hst Hpan) as [Hpc Hth].
  destruct (Hth t th Hl) as [Hb|Hf]; [|by left]. right.
  pose proof (thread_ok_lookup s t th HI Hl) as Hok.
  destruct HI as [Ha _]. unfold thread_ok, thread_ok_at in Hok.
  destruct (frame th) eqn:Hf; try done.
  - (* Push *)
    destruct Hok as (Hsh & Hpu & _ & Hp). exfalso.
    destruct Hpc as [Hpc|Hpc].
    + specialize (Hp Hpc). pose proof (ok_pushc _ _ _ _ _ _ _ Ha Hp). congruence.
    + destruct (ok_exit _ _ _ _ _ _ _ Ha) as [?|[Hu _]]; [by rewrite Hpc|congruence|].
      pose proof (ok_pushc _ _ _ _ _ _ _ Ha Hu). congruence.
  - (* Pop *)
    left. exists ctx. destruct Hok as (Hsh & Hpo & Hc & Hp).
    destruct Hpc as [Hpc|Hpc].
    2:{ pose proof (ok_popc _ _ _ _ _ _ _ Ha) as Hx. rewrite Hpc in Hx. congruence. }
    specialize (Hp Hpc).
    assert (pending (actor s) = []) as Hpe.
    { unfold pending. rewrite Hp. cbn. apply (ok_queue _ _ _ _ _ _ _ Ha); [|done].
      by rewrite Hpc. }
    split_and!; try done.
    destruct (a_pushc (actor s)) eqn:Hu.
    + by apply (ok_parked _ _ _ _ _ _ _ Ha Hpc).
    + exfalso. apply (ok_work _ _ _ _ _ _ _ Ha); [by rewrite Hpc|done|done].
  - (* WaitEmpty *)
    right. exists ctx. destruct Hok as (Hdn & Hc).
    destruct Hpc as [Hpc|Hpc].
    2:{ pose proof (ok_done _ _ _ _ _ _ _ Ha) as Hx. rewrite Hpc in Hx. congruence. }
    destruct (ok_parked _ _ _ _ _ _ _ Ha Hpc) as [Hsh _]. by split_and!.
  - (* <-q.done after Shutdown *)
    destruct Hok as [Hdn Hsh]. exfalso. destruct Hpc as [Hpc|Hpc].
    + destruct (ok_parked _ _ _ _ _ _ _ Ha Hpc). congruence.
    + pose proof (ok_done _ _ _ _ _ _ _ Ha) as Hx. rewrite Hpc in Hx. congruence.
Qed.

(** X13.  When no goroutine can move and nothing has panicked, every
    client has made all its calls, or is blocked in [Pop] on the empty
    queue with [pushc] and [shutdown] open, or is blocked in [WaitEmpty]
    with [goqueue] waiting; no client is stuck in [Push], [Close],
    [Shutdown] or [Size]. *)
Theorem blocked_clients progs cerr sch (s : State E) t th :
  run zero sch (New zero progs cerr) = Some s →
  runnable s = false → panicked s = false → threads s !! t = Some th →
  finished th = true ∨
  (∃ ctx, frame th = PopParked ctx ∧ pending (actor s) = [] ∧
          pushc_closed s = false ∧ shutdown_closed s = false ∧
          ctx_err s (ctx_id ctx) = None) ∨
  (∃ ctx, frame th = WaitEmptyParked ctx ∧ a_pc (actor s) = AParked ∧
          shutdown_closed s = false ∧ ctx_err s (ctx_id ctx) = None).
Proof.
  intros Hrun Hr Hpan Hl. eapply Inv_blocked; try done.
  - by eapply reachable_Inv.
  - by apply (runnable_false zero).
Qed.

(** X16.  [closeOnce] is not atomic: when two clients have both taken
    the default case of its select on the same open channel, the first
    closes the channel and the second panics closing it again. *)
Theorem concurrent_close_panics (s : State E) t1 t2 th1 th2 c k1 k2 b1 b2 :
  threads s !! t1 = Some th1 → threads s !! t2 = Some th2 → t1 ≠ t2 →
  frame th1 = CloseOnceDefault c k1 → frame th2 = CloseOnceDefault c k2 →
  panicked s = false → chan_closed c s = false →
  ∃ s', run zero [ActThread t1 b1; ActThread t2 b2] s = Some s' ∧
        panicked s' = true.
Proof.
  intros Hl1 Hl2 Hne Hf1 Hf2 Hpan Hc.
  cbn [run]. unfold step at 1. rewrite Hpan, Hl1. unfold thread_step at 1.
  rewrite Hf1.
  set (s1 := closeOnce_close zero t1 th1 c k1 s).
  assert (panicked s1 = false ∧ chan_closed c s1 = true ∧
          threads s1 !! t2 = Some th2) as (Hpan1 & Hc1 & Hl21).
  { unfold s1, closeOnce_close. rewrite Hc. destruct c.
    - split_and!; [by case_match|by case_match|].
      assert (∀ s0 : State E, threads (set_thread t1 (continue k1 th1)
                (set_threads (wake_pushc <$> threads s) s0)) !! t2 = Some th2) as Hx.
      { intros s0. cbn. rewrite list_lookup_insert_ne by done.
        rewrite list_lookup_fmap, Hl2. cbn. unfold wake_pushc. by rewrite Hf2. }
      apply Hx.
    - split_and!; [by case_match|by case_match|].
      assert (∀ s0 : State E, threads (set_thread t1 (continue k1 th1)
                (set_threads (wake_shutdown zero <$> threads s) s0)) !! t2 = Some th2) as Hx.
      { intros s0. cbn. rewrite list_lookup_insert_ne by done.
        rewrite list_lookup_fmap, Hl2. cbn. unfold wake_shutdown. by rewrite Hf2. }
      apply Hx. }
  unfold step. rewrite Hpan1, Hl21. unfold thread_step. rewrite Hf2.
  eexists. split; [done|]. unfold closeOnce_close. by rewrite Hc1.
Qed.

End Postconditions.

Lemma returns_postconditions_witness :
  ∃ s, run 0%nat
         (push_steps ++ close_steps ++ [ActThread 0 BrCtx] ++ close_steps ++
          [ActActor AShutdown] ++ exit_steps ++
          [ActThread 0 BrNone; ActThread 0 BrShutdown])
         (New 0%nat [(CPush c0 <$> [7%nat]) ++ [CWaitEmpty c1; CPop c0]]
            c1_cancelled)
       = Some s ∧
       a_pc (actor s) = AExited ∧ done_closed s = true ∧
       (false = false → shutdown_closed s = true).
Proof.
  eexists. split; [vm_compute; reflexivity|].
  eapply (returns_postconditions 0%nat
            [(CPush c0 <$> [7%nat]) ++ [CWaitEmpty c1; CPop c0]] c1_cancelled
            (push_steps ++ close_steps ++ [ActThread 0 BrCtx] ++ close_steps ++
             [ActActor AShutdown] ++ exit_steps ++
             [ActThread 0 BrNone; ActThread 0 BrShutdown])
            _ 0%nat _ (RWaitEmpty false));
    [vm_compute; reflexivity|vm_compute; reflexivity|].
  cbn. by repeat constructor.
Defined.

Lemma fifo_history_witness :
  ∃ s, run 0%nat (push_steps ++ push_steps ++ pop_steps)
         (New 0%nat [(CPush c0 <$> [1; 2]%nat) ++ replicate 2 (CPop c0)] live)
       = Some s ∧
       accepted s = delivered s ++ pending (actor s).
Proof.
  eexists. split; [vm_compute; reflexivity|].
  apply (fifo_history 0%nat
           [(CPush c0 <$> [1; 2]%nat) ++ replicate 2 (CPop c0)] live
           (push_steps ++ push_steps ++ pop_steps)).
  vm_compute; reflexivity.
Defined.

Lemma goqueue_exit_witness :
  ∃ s, run 0%nat
         (push_steps ++ close_steps ++ [ActActor ARecvClosed] ++ pop_steps ++
          exit_steps)
         (New 0%nat [[CPush c0 7%nat; CClose; CPop c0]] live) = Some s ∧
       (popc_closed s = true →
        shutdown_closed s = true ∨
        (pushc_closed s = true ∧ pending (actor s) = [])) ∧
       (done_closed s = true → popc_closed s = true) ∧
       (done_closed s = true ↔ a_pc (actor s) = AExited).
Proof.
  eexists. split; [vm_compute; reflexivity|].
  apply (goqueue_exit 0%nat [[CPush c0 7%nat; CClose; CPop c0]] live
           (push_steps ++ close_steps ++ [ActActor ARecvClosed] ++ pop_steps ++
            exit_steps)).
  vm_compute; reflexivity.
Defined.

Lemma blocked_clients_witness :
  ∃ s th, run 0%nat [ActActor APark; ActThread 0 BrNone]
            (New 0%nat [[CPop c0]] live) = Some s ∧
          threads s !! 0%nat = Some th ∧
          (finished th = true ∨
           (∃ ctx, frame th = PopParked ctx ∧ pending (actor s) = [] ∧
                   pushc_closed s = false ∧ shutdown_closed s = false ∧
                   ctx_err s (ctx_id ctx) = None) ∨
           (∃ ctx, frame th = WaitEmptyParked ctx ∧ a_pc (actor s) = AParked ∧
                   shutdown_closed s = false ∧ ctx_err s (ctx_id ctx) = None)).
Proof.
  eexists. eexists. split; [vm_compute; reflexivity|].
  split; [vm_compute; reflexivity|].
  apply (blocked_clients 0%nat [[CPop c0]] live
           [ActActor APark; ActThread 0 BrNone] _ 0%nat);
    vm_compute; reflexivity.
Defined.

Lemma concurrent_close_panics_witness :
  ∃ s, run 0%nat [ActThread 0 BrNone; ActThread 1 BrNone]
         (New 0%nat [[CClose]; [CClose]] live) = Some s ∧
       ∃ s', run 0%nat [ActThread 0 BrNone; ActThread 1 BrNone] s = Some s' ∧
             panicked s' = true.
Proof.
  eexists. split; [vm_compute; reflexivity|].
  eapply (concurrent_close_panics 0%nat _ 0%nat 1%nat _ _ pushc KClose KClose);
    try (vm_compute; reflexivity). lia.
Defined.

Section Wakeups.
Context {E : Type} (zero : E).

(** X12.  In every state the program reaches, a client is blocked in a
    select only while none of its cases can proceed: its context is not
    cancelled, the channels it waits for are not closed, and [goqueue]
    is not waiting at the other end of its channel. *)
Theorem no_lost_wakeup progs cerr sch (s : State E) t th :
  run zero sch (New zero progs cerr) = Some s → threads s !! t = Some th →
  match frame th with
  | PushParked ctx _ =>
      ctx_err s (ctx_id ctx) = None ∧ shutdown_closed s = false ∧
      pushc_closed s = false ∧
      ¬ (a_pc (actor s) = AParked ∧ a_pushc (actor s) = true)
  | PopParked ctx =>
      ctx_err s (ctx_id ctx) = None ∧ shutdown_closed s = false ∧
      popc_closed s = false ∧
      ¬ (a_pc (actor s) = AParked ∧ a_popc (actor s) = true)
  | WaitEmptyParked ctx =>
      ctx_err s (ctx_id ctx) = None ∧ done_closed s = false
  | WaitEmptyDoneParked => done_closed s = false
  | _ => True
  end.
Proof.
  intros Hrun Hl.
  assert (Inv s) as HI by (eapply (Inv_run zero); [apply Inv_New|exact Hrun]).
  pose proof (thread_ok_lookup s t th HI Hl) as Hok.
  unfold thread_ok, thread_ok_at in Hok.
  destruct (frame th); try done.
  - destruct Hok as (? & ? & ? & Hp). split_and!; try done.
    intros [Hpc Hu]. specialize (Hp Hpc). congruence.
  - destruct Hok as (? & ? & ? & Hp). split_and!; try done.
    intros [Hpc Hu]. specialize (Hp Hpc). congruence.
  - by destruct Hok.
  - by destruct Hok.
Qed.

End Wakeups.

Lemma no_lost_wakeup_witness :
  ∃ s th, run 0%nat [ActActor APark; ActThread 0 BrNone]
            (New 0%nat [[CPop c0]] live) = Some s ∧
          threads s !! 0%nat = Some th ∧
          match frame th with
          | PushParked ctx _ =>
              ctx_err s (ctx_id ctx) = None ∧ shutdown_closed s = false ∧
              pushc_closed s = false ∧
              ¬ (a_pc (actor s) = AParked ∧ a_pushc (actor s) = true)
          | PopParked ctx =>
              ctx_err s (ctx_id ctx) = None ∧ shutdown_closed s = false ∧
              popc_closed s = false ∧
              ¬ (a_pc (actor s) = AParked ∧ a_popc (actor s) = true)
          | WaitEmptyParked ctx =>
              ctx_err s (ctx_id ctx) = None ∧ done_closed s = false
          | WaitEmptyDoneParked => done_closed s = false
          | _ => True
          end.
Proof.
  eexists. eexists. split; [vm_compute; reflexivity|].
  split; [vm_compute; reflexivity|].
  apply (no_lost_wakeup 0%nat [[CPop c0]] live
           [ActActor APark; ActThread 0 BrNone] _ 0%nat);
    vm_compute; reflexivity.
Defined.

(** * The two backlog types of syncq.go *)

(** [type buffer[E any] []E]: a slice used as a queue. *)
Module Buffer.
Section Buffer.
Context {E : Type} (zero : E).

Definition buffer := list E.

Definition add (b : buffer) (e : E) : buffer := b ++ [e].
Definition size (b : buffer) : Z := Z.of_nat (length b).

(** [next]: the result and the buffer it leaves. *)
Definition next (b : buffer) : (E * bool) * buffer :=
  match b with
  | [] => ((zero, false), b)
  | x :: q => ((x, true), q)
  end.

(** [k] calls of [next] in a row. *)
Fixpoint nexts (k : nat) (b : buffer) : list (E * bool) * buffer :=
  match k with
  | O => ([], b)
  | S k =>
      let '(r, b') := next b in
      let '(rs, b'') := nexts k b' in
      (r :: rs, b'')
  end.

Lemma adds_app (b : buffer) es : foldl add b es = b ++ es.
Proof.
  revert b. induction es as [|e es IH]; intros b; cbn [foldl].
  - by rewrite app_nil_r.
  - rewrite IH. unfold add. by rewrite <- app_assoc.
Qed.

Lemma nexts_spec k (b : buffer) :
  nexts k b =
  (((λ e, (e, true)) <$> take k b) ++ replicate (k - length b) (zero, false),
   drop k b).
Proof.
  revert b. induction k as [|k IH]; intros b; [by rewrite drop_0|].
  cbn [nexts]. destruct b as [|x q]; cbn [next].
  - rewrite IH. cbn. by rewrite take_nil, drop_nil, Nat.sub_0_r.
  - rewrite IH. done.
Qed.

(** X23.  [buffer]: after adding [es], [size] has grown by their number
    and [k] calls of [next] return the old elements and then [es], in
    order, each with true, and after them the zero value with false. *)
Theorem buffer_fifo (b : buffer) es k :
  size (foldl add b es) = size b + Z.of_nat (length es) ∧
  nexts k (foldl add b es) =
  (((λ e, (e, true)) <$> take k (b ++ es)) ++
     replicate (k - length (b ++ es)) (zero, false),
   drop k (b ++ es)).
Proof.
  rewrite adds_app. split; [|apply nexts_spec].
  unfold size. rewrite length_app. lia.
Qed.

End Buffer.
End Buffer.

(** [type batchingBuffer[E any, S ~[]E]]: elements come in slices and
    leave in batches of [n]. *)
Module Batching.
Section Batching.
Context {E : Type}.

Record batchingBuffer := mkBatching { queue : list E; n : Z }.

Definition add (b : batchingBuffer) (e : list E) : batchingBuffer :=
  mkBatching (queue b ++ e) (n b).

Definition size (b : batchingBuffer) : Z := Z.of_nat (length (queue b)).

(** What [next] does: it returns, or the slice expression
    [b.queue[:b.n]] panics. *)
Inductive Result :=
| Returned (batch : list E) (ok : bool) (b' : batchingBuffer)
| SliceBoundsOutOfRange (high : Z).

Definition next (b : batchingBuffer) : Result :=
  if Z.of_nat (length (queue b)) <? n b then Returned [] false b
  else if n b <? 0 then SliceBoundsOutOfRange (n b)
  else Returned (take (Z.to_nat (n b)) (queue b)) true
         (mkBatching (drop (Z.to_nat (n b)) (queue b)) (n b)).

(** [next] until it returns false: the batches and the buffer left;
    [None] when [next] panics or [fuel] calls were not enough. *)
Fixpoint drain (fuel : nat) (b : batchingBuffer)
    : option (list (list E) * batchingBuffer) :=
  match fuel with
  | O => None
  | S fuel =>
      match next b with
      | Returned _ false b' => Some ([], b')
      | Returned batch true b' =>
          match drain fuel b' with
          | Some (bs, b'') => Some (batch :: bs, b'')
          | None => None
          end
      | SliceBoundsOutOfRange _ => None
      end
  end.

(** X24.  [batchingBuffer.next]: with a negative [n] the slice
    expression panics; with [n = 0] it returns an empty batch and true
    and leaves the queue as it is, however often it is called; with a
    positive [n] it returns false while fewer than [n] elements are
    queued and otherwise the first [n] elements, which it removes. *)
Theorem next_cases (b : batchingBuffer) :
  (n b < 0 → next b = SliceBoundsOutOfRange (n b)) ∧
  (n b = 0 → next b = Returned [] true b) ∧
  (0 < n b → size b < n b → next b = Returned [] false b) ∧
  (0 < n b → n b ≤ size b →
   ∃ batch b', next b = Returned batch true b' ∧
               Z.of_nat (length batch) = n b ∧
               queue b = batch ++ queue b' ∧ n b' = n b).
Proof.
  unfold next, size. split_and!.
  - intros Hn. destruct (Z.ltb_spec (Z.of_nat (length (queue b))) (n b)); [lia|].
    destruct (Z.ltb_spec (n b) 0); [done|lia].
  - intros Hn. destruct b as [q m]. cbn [n queue] in *. subst m.
    destruct (Z.ltb_spec (Z.of_nat (length q)) 0); [lia|]. cbn.
    by rewrite drop_0, take_0.
  - intros Hn Hs. destruct (Z.ltb_spec (Z.of_nat (length (queue b))) (n b)); [done|lia].
  - intros Hn Hs. destruct (Z.ltb_spec (Z.of_nat (length (queue b))) (n b)); [lia|].
    destruct (Z.ltb_spec (n b) 0); [lia|]. eexists _, _. split; [done|].
    cbn. rewrite length_take, take_drop. split_and!; [lia|done|done].
Qed.

Lemma drain_spec fuel (b : batchingBuffer) :
  0 < n b → (length (queue b) < fuel)%nat →
  ∃ bs b', drain fuel b = Some (bs, b') ∧
           concat bs ++ queue b' = queue b ∧
           Forall (λ batch, Z.of_nat (length batch) = n b) bs ∧
           size b' < n b ∧ n b' = n b.
Proof.
  revert b. induction fuel as [|fuel IH]; intros b Hn Hf; [lia|].
  cbn [drain]. destruct (next_cases b) as (_ & _ & Hlt & Hge).
  destruct (Z.ltb_spec (size b) (n b)) as [Hs|Hs].
  - rewrite (Hlt Hn Hs). exists [], b. split_and!; done.
  - destruct (Hge Hn Hs) as (batch & b1 & -> & Hl & Hq & Hn1).
    destruct (IH b1) as (bs & b' & -> & Hc & HF & Hs' & Hn').
    { lia. } { rewrite Hq, length_app in Hf. lia. }
    exists (batch :: bs), b'. split_and!; try done.
    + cbn. rewrite <- app_assoc, Hc. done.
    + constructor; [done|]. by rewrite <- Hn1.
    + lia.
    + congruence.
Qed.

(** X25.  [batchingBuffer] with a positive [n]: calling [next] until it
    returns false splits the queue, in order, into batches of exactly
    [n] elements and leaves fewer than [n] elements behind. *)
Theorem drain_batches fuel (b : batchingBuffer) :
  0 < n b → (length (queue b) < fuel)%nat →
  ∃ bs b', drain fuel b = Some (bs, b') ∧
           concat bs ++ queue b' = queue b ∧
           Forall (λ batch, Z.of_nat (length batch) = n b) bs ∧
           size b' < n b.
Proof.
  intros Hn Hf. destruct (drain_spec fuel b Hn Hf) as (bs & b' & ? & ? & ? & ? & _).
  by exists bs, b'.
Qed.

End Batching.

Lemma next_cases_witness :
  next (mkBatching [1; 2; 3]%nat (-1)) = SliceBoundsOutOfRange (-1) ∧
  next (mkBatching [1; 2; 3]%nat 0) = Returned [] true (mkBatching [1; 2; 3]%nat 0).
Proof.
  split.
  - apply (proj1 (next_cases (mkBatching [1; 2; 3]%nat (-1)))). cbn. lia.
  - apply (proj1 (proj2 (next_cases (mkBatching [1; 2; 3]%nat 0)))). reflexivity.
Defined.

Lemma drain_batches_witness :
  ∃ bs b', drain 6 (add (add (mkBatching [] 2) [1; 2; 3]%nat) [4; 5]%nat) =
             Some (bs, b') ∧
           concat bs ++ queue b' = [1; 2; 3; 4; 5]%nat ∧
           Forall (λ batch, Z.of_nat (length batch) = 2) bs ∧
           size b' < 2.
Proof.
  apply (drain_batches 6 (add (add (mkBatching [] 2) [1; 2; 3]%nat) [4; 5]%nat));
    [reflexivity|cbn; lia].
Defined.

End Batching.

End Syncq.
